(** * logd: the serialized log chunk (SerializedLogChunk.h)

    A shallow embedding of the chunk object of the logging daemon: one
    decompressed byte region, one compressed snapshot, a write cursor, a
    reader reference count and a writer flag.  The inline members of the
    header (the constructor, PruneSize, FinishWriting, log_entry and the
    plain accessors) are transcribed from the header.  The members the
    header only declares are modelled from the design document, each under
    a comment that says so.

    A second part embeds apexd's APEX file repository
    (apex_file_repository.cpp) and the staging of install hooks
    (apexd_prepostinstall.cpp), in the modules Apex and ApexFacts. *)

From Stdlib Require Import ZArith List Bool Lia.
From Stdlib.Strings Require Import Byte.
From Stdlib Require String Ascii DecimalString.
Import ListNotations.
Local Open Scope Z_scope.

(* ================================================================== *)
(** * Machine integers and bytes *)

(** Unsigned [bits]-bit arithmetic wraps around. *)
Definition wrap (bits v : Z) : Z := v mod 2 ^ bits.

Definition uint32_t (v : Z) : Z := wrap 32 v.
Definition uint64_t (v : Z) : Z := wrap 64 v.
Definition size_t (v : Z) : Z := wrap 64 v.

Definition byte_of_Z (v : Z) : byte :=
  match Byte.of_N (Z.to_N (v mod 256)) with
  | Some b => b
  | None => x00
  end.

Definition Z_of_byte (b : byte) : Z := Z.of_N (Byte.to_N b).

Arguments byte_of_Z : simpl never.
Arguments Z_of_byte : simpl never.

(** [n] bytes, least significant first. *)
Fixpoint le_bytes (n : nat) (v : Z) : list byte :=
  match n with
  | O => []
  | S k => byte_of_Z v :: le_bytes k (v / 256)
  end.

Fixpoint le_value (bs : list byte) : Z :=
  match bs with
  | [] => 0
  | b :: rest => Z_of_byte b + 256 * le_value rest
  end.

Definition slice {A} (off n : nat) (l : list A) : list A :=
  firstn n (skipn off l).

(* ================================================================== *)
(** * Fatal checks *)

(** A failed CHECK aborts the process: the operation yields no state. *)
Inductive result (A : Type) : Type :=
| Ok (a : A)
| Fatal.
Arguments Ok {A} a.
Arguments Fatal {A}.

Definition bind {A B} (r : result A) (k : A -> result B) : result B :=
  match r with
  | Ok a => k a
  | Fatal => Fatal
  end.

Notation "x <- e ;; k" := (bind e (fun x => k))
  (at level 61, e at next level, right associativity).

Definition get {A} (default : A) (r : result A) : A :=
  match r with
  | Ok a => a
  | Fatal => default
  end.

(* ================================================================== *)
(** * SerializedData *)

(** Modelled from the spec: SerializedData.h is not part of the sources.
    The design document calls it one contiguous, resizable byte region
    that is freed down to empty on release.  A region is the list of its
    bytes; a region built with a size holds that many bytes (zero here,
    unspecified in the program). *)
Definition SerializedData := list byte.

Definition size (d : SerializedData) : Z := Z.of_nat (length d).

Definition SerializedData_sized (n : Z) : SerializedData :=
  repeat x00 (Z.to_nat n).

Definition Resize (new_size : Z) (d : SerializedData) : SerializedData :=
  firstn (Z.to_nat new_size) d ++ repeat x00 (Z.to_nat new_size - length d).

(* ================================================================== *)
(** * The compression engine *)

(** Modelled from the spec: the compressor is an external collaborator,
    "any stream compressor with a stable round-trip guarantee
    (decompress(compress(x)) == x for all x)".  Decompression of bytes
    that are no snapshot fails. *)
Class CompressionEngine : Type := {
  compress : SerializedData -> SerializedData;
  decompress : SerializedData -> option SerializedData;
  decompress_compress : forall x, decompress (compress x) = Some x
}.

(** A reference engine: run-length coding behind a one-byte frame tag.
    Runs are at most 255 long; each is emitted as a count and a value. *)
Definition rle_magic : byte := "R"%byte.

Fixpoint rle_runs (l : list byte) : list (nat * byte) :=
  match l with
  | [] => []
  | b :: rest =>
      match rle_runs rest with
      | (n, b') :: runs =>
          if Byte.eqb b b' && (n <? 255)%nat
          then (S n, b) :: runs
          else (1%nat, b) :: (n, b') :: runs
      | [] => [(1%nat, b)]
      end
  end.

(** The bytes a list of runs stands for. *)
Fixpoint rle_expand (runs : list (nat * byte)) : list byte :=
  match runs with
  | [] => []
  | (n, b) :: rest => repeat b n ++ rle_expand rest
  end.

Fixpoint rle_emit (runs : list (nat * byte)) : list byte :=
  match runs with
  | [] => []
  | (n, b) :: rest => byte_of_Z (Z.of_nat n) :: b :: rle_emit rest
  end.

Fixpoint rle_parse (bs : list byte) : option (list byte) :=
  match bs with
  | [] => Some []
  | n :: b :: rest =>
      match rle_parse rest with
      | Some out => Some (repeat b (Z.to_nat (Z_of_byte n)) ++ out)
      | None => None
      end
  | _ :: [] => None
  end.

Definition rle_compress (d : SerializedData) : SerializedData :=
  rle_magic :: rle_emit (rle_runs d).

Definition rle_decompress (d : SerializedData) : option SerializedData :=
  match d with
  | tag :: body => if Byte.eqb tag rle_magic then rle_parse body else None
  | [] => None
  end.

(* ================================================================== *)
(** * Encoded entries *)

(** Modelled from the spec: SerializedLogEntry.h is not part of the
    sources.  An entry is "a header (sequence number, wall-clock
    timestamp, owning-application identity, process id, thread id, payload
    length) immediately followed by length bytes of message payload".  The
    field widths are those of the parameters of Log in the header:
    uint64_t sequence, log_time (two 32-bit words), uid_t, pid_t, pid_t and
    uint16_t len. *)
Record SerializedLogEntry : Type := {
  sequence : Z;
  realtime : Z;
  uid : Z;
  pid : Z;
  tid : Z;
  msg : list byte
}.

Definition header_size : nat := 30.

Definition encode_entry (e : SerializedLogEntry) : list byte :=
  le_bytes 8 (sequence e) ++ le_bytes 8 (realtime e) ++
  le_bytes 4 (uid e) ++ le_bytes 4 (pid e) ++ le_bytes 4 (tid e) ++
  le_bytes 2 (Z.of_nat (length (msg e))) ++ msg e.

Definition entry_uid (block : list byte) : Z := le_value (slice 16 4 block).

Definition entry_msg_len (block : list byte) : nat :=
  Z.to_nat (le_value (slice 28 2 block)).

Definition total_len (block : list byte) : nat :=
  (header_size + entry_msg_len block)%nat.

Definition decode_entry (block : list byte) : SerializedLogEntry :=
  {| sequence := le_value (slice 0 8 block);
     realtime := le_value (slice 8 8 block);
     uid := entry_uid block;
     pid := le_value (slice 20 4 block);
     tid := le_value (slice 24 4 block);
     msg := slice header_size (entry_msg_len block) block |}.

(** The fields of an entry fit the widths of the header. *)
Definition entry_in_range (e : SerializedLogEntry) : Prop :=
  0 <= sequence e < 2 ^ 64 /\
  0 <= realtime e < 2 ^ 64 /\
  0 <= uid e < 2 ^ 32 /\
  0 <= pid e < 2 ^ 32 /\
  0 <= tid e < 2 ^ 32 /\
  Z.of_nat (length (msg e)) < 2 ^ 16.

(** The entries laid out back to back at the start of [region], each as
    its block of bytes; the scan stops at the first entry that does not fit.
    An entry takes at least a header, so [length region] steps suffice. *)
Fixpoint scan_blocks (fuel : nat) (region : list byte) : list (list byte) :=
  match fuel with
  | O => []
  | S fuel' =>
      if (length region <? header_size)%nat then []
      else if (length region <? total_len region)%nat then []
      else firstn (total_len region) region
           :: scan_blocks fuel' (skipn (total_len region) region)
  end.

Definition blocks_of (region : list byte) : list (list byte) :=
  scan_blocks (length region) region.

(** A block is one whole entry: a header and as many payload bytes as its
    length field says. *)
Definition whole_entry (block : list byte) : Prop :=
  (header_size <= length block)%nat /\ length block = total_len block.

(* ================================================================== *)
(** * The chunk *)

(** A reader is known to the chunk as a SerializedFlushToState pointer,
    an opaque handle. *)
Definition reader := Z.

(** The members of the class, in the order of the header:
    SerializedData contents_; int write_offset_; uint32_t
    reader_ref_count_; bool writer_active_; uint64_t
    highest_sequence_number_; SerializedData compressed_log_;
    std::vector<SerializedFlushToState*> readers_. *)
Record SerializedLogChunk : Type := {
  contents_ : SerializedData;
  write_offset_ : Z;
  reader_ref_count_ : Z;
  writer_active_ : bool;
  highest_sequence_number_ : Z;
  compressed_log_ : SerializedData;
  readers_ : list reader
}.

Definition with_contents (d : SerializedData) (c : SerializedLogChunk) :=
  {| contents_ := d;
     write_offset_ := write_offset_ c;
     reader_ref_count_ := reader_ref_count_ c;
     writer_active_ := writer_active_ c;
     highest_sequence_number_ := highest_sequence_number_ c;
     compressed_log_ := compressed_log_ c;
     readers_ := readers_ c |}.

Definition with_write_offset (o : Z) (c : SerializedLogChunk) :=
  {| contents_ := contents_ c;
     write_offset_ := o;
     reader_ref_count_ := reader_ref_count_ c;
     writer_active_ := writer_active_ c;
     highest_sequence_number_ := highest_sequence_number_ c;
     compressed_log_ := compressed_log_ c;
     readers_ := readers_ c |}.

Definition with_reader_ref_count (n : Z) (c : SerializedLogChunk) :=
  {| contents_ := contents_ c;
     write_offset_ := write_offset_ c;
     reader_ref_count_ := n;
     writer_active_ := writer_active_ c;
     highest_sequence_number_ := highest_sequence_number_ c;
     compressed_log_ := compressed_log_ c;
     readers_ := readers_ c |}.

Definition with_writer_active (b : bool) (c : SerializedLogChunk) :=
  {| contents_ := contents_ c;
     write_offset_ := write_offset_ c;
     reader_ref_count_ := reader_ref_count_ c;
     writer_active_ := b;
     highest_sequence_number_ := highest_sequence_number_ c;
     compressed_log_ := compressed_log_ c;
     readers_ := readers_ c |}.

Definition with_highest_sequence_number (s : Z) (c : SerializedLogChunk) :=
  {| contents_ := contents_ c;
     write_offset_ := write_offset_ c;
     reader_ref_count_ := reader_ref_count_ c;
     writer_active_ := writer_active_ c;
     highest_sequence_number_ := s;
     compressed_log_ := compressed_log_ c;
     readers_ := readers_ c |}.

Definition with_compressed_log (d : SerializedData) (c : SerializedLogChunk) :=
  {| contents_ := contents_ c;
     write_offset_ := write_offset_ c;
     reader_ref_count_ := reader_ref_count_ c;
     writer_active_ := writer_active_ c;
     highest_sequence_number_ := highest_sequence_number_ c;
     compressed_log_ := d;
     readers_ := readers_ c |}.

Definition with_readers (rs : list reader) (c : SerializedLogChunk) :=
  {| contents_ := contents_ c;
     write_offset_ := write_offset_ c;
     reader_ref_count_ := reader_ref_count_ c;
     writer_active_ := writer_active_ c;
     highest_sequence_number_ := highest_sequence_number_ c;
     compressed_log_ := compressed_log_ c;
     readers_ := rs |}.

(** explicit SerializedLogChunk(size_t size) : contents_(size) {}
    with the default member initializers of the class. *)
Definition SerializedLogChunk_new (size : Z) : SerializedLogChunk :=
  {| contents_ := SerializedData_sized size;
     write_offset_ := 0;
     reader_ref_count_ := 0;
     writer_active_ := true;
     highest_sequence_number_ := 1;
     compressed_log_ := [];
     readers_ := [] |}.

(** An address inside the decompressed region: contents_.data() plus a
    byte offset. *)
Inductive pointer : Type :=
| ContentsPtr (offset : Z).

Definition ptr_add (p : pointer) (k : Z) : pointer :=
  match p with ContentsPtr o => ContentsPtr (o + k) end.

(** const uint8_t* data() const { return contents_.data(); } *)
Definition data (c : SerializedLogChunk) : pointer := ContentsPtr 0.

(** int write_offset() const *)
Definition write_offset (c : SerializedLogChunk) : Z := write_offset_ c.

(** uint64_t highest_sequence_number() const *)
Definition highest_sequence_number (c : SerializedLogChunk) : Z :=
  highest_sequence_number_ c.

(** uint32_t reader_ref_count() const *)
Definition reader_ref_count (c : SerializedLogChunk) : Z :=
  reader_ref_count_ c.

(** The byte a pointer designates, when it lies inside the region. *)
Definition load (c : SerializedLogChunk) (p : pointer) : option byte :=
  match p with
  | ContentsPtr o =>
      if o <? 0 then None else nth_error (contents_ c) (Z.to_nat o)
  end.

(** const SerializedLogEntry* log_entry(int offset) const {
        CHECK(writer_active_ || reader_ref_count_ > 0);
        return reinterpret_cast<const SerializedLogEntry*>(data() + offset);
    } *)
Definition log_entry (offset : Z) (c : SerializedLogChunk) : result pointer :=
  if writer_active_ c || (0 <? reader_ref_count_ c)
  then Ok (ptr_add (data c) offset)
  else Fatal.

Section Footprint.

(** sizeof( *this ): fixed by the ABI, not by the header. *)
Variable sizeof_this : Z.

(** size_t PruneSize() const {
        return sizeof( *this ) + (compressed_log_.size() ?: contents_.size());
    } *)
Definition PruneSize (c : SerializedLogChunk) : Z :=
  size_t (sizeof_this +
          (if size (compressed_log_ c) =? 0
           then size (contents_ c)
           else size (compressed_log_ c))).

(** The footprint as the design document words it: "compressed size if a
    valid compressed snapshot exists and the decompressed region has been
    released, otherwise the decompressed region's full size", on top of
    the per-object overhead. *)
Definition MemoryFootprint_spec (c : SerializedLogChunk) : Z :=
  size_t (sizeof_this +
          (if negb (size (compressed_log_ c) =? 0)
              && (size (contents_ c) =? 0)
           then size (compressed_log_ c)
           else size (contents_ c))).

End Footprint.

(** The bytes the two regions of a chunk hold in memory. *)
Definition live_bytes (c : SerializedLogChunk) : Z :=
size (contents_ c) + size (compressed_log_ c).

(** The region is resident: "non-empty, sized >= write cursor". *)
Definition resident (c : SerializedLogChunk) : bool :=
negb (size (contents_ c) =? 0) && (write_offset_ c <=? size (contents_ c)).

Section WithEngine.

Context {engine : CompressionEngine}.

(** Modelled from the spec: SerializedLogChunk.cpp is not part of the
    sources.  Compress "takes the current decompressed region as input,
    produces a compressed byte sequence ..., stores it as the compressed
    snapshot.  Idempotent; safe to call repeatedly, each call overwriting
    the previous snapshot." *)
Definition Compress (c : SerializedLogChunk) : SerializedLogChunk :=
  with_compressed_log (compress (contents_ c)) c.

(** Modelled from the spec: the decompression step of
    SerializedLogChunk.cpp.  "Inverse of Compress; reconstitutes the
    decompressed region from the compressed snapshot.  Fails fatally if
    no valid snapshot exists." *)
Definition Decompress (c : SerializedLogChunk) : result SerializedLogChunk :=
  match decompress (compressed_log_ c) with
  | Some d => Ok (with_contents d c)
  | None => Fatal
  end.

(** void FinishWriting() {
        writer_active_ = false;
        Compress();
        if (reader_ref_count_ == 0) {
            contents_.Resize(0);
        }
    } *)
Definition FinishWriting (c : SerializedLogChunk) : SerializedLogChunk :=
  let c1 := with_writer_active false c in
  let c2 := Compress c1 in
  if reader_ref_count_ c2 =? 0
  then with_contents (Resize 0 (contents_ c2)) c2
  else c2.

(** Modelled from the spec: IncReaderRefCount of SerializedLogChunk.cpp,
    the counting half of Attach.  "Increments reader count; if the
    decompressed region is not currently resident (was released after
    finalize+compress), triggers the compression manager's decompression
    step to reconstitute it before returning."  The count is a uint32_t. *)
Definition IncReaderRefCount (c : SerializedLogChunk)
  : result SerializedLogChunk :=
  let c1 := with_reader_ref_count (uint32_t (reader_ref_count_ c + 1)) c in
  if resident c1 then Ok c1 else Decompress c1.

(** Modelled from the spec: DecReaderRefCount of SerializedLogChunk.cpp,
    the counting half of Detach.  "Decrements reader count.  If the
    resulting count is zero and the writer is inactive, releases the
    decompressed region."  A detach that no attach matches is "a fatal
    precondition failure". *)
Definition DecReaderRefCount (c : SerializedLogChunk)
  : result SerializedLogChunk :=
  if reader_ref_count_ c =? 0 then Fatal
  else
    let c1 := with_reader_ref_count (uint32_t (reader_ref_count_ c - 1)) c in
    if (reader_ref_count_ c1 =? 0) && negb (writer_active_ c1)
    then Ok (with_contents (Resize 0 (contents_ c1)) c1)
    else Ok c1.

(** Modelled from the spec: AttachReader of SerializedLogChunk.cpp.
    Attach counts the reader, makes the region resident, and "registers
    readerHandle in the back-reference set". *)
Definition AttachReader (r : reader) (c : SerializedLogChunk)
  : result SerializedLogChunk :=
  c1 <- IncReaderRefCount c ;;
  Ok (with_readers (readers_ c1 ++ [r]) c1).

Fixpoint remove_first (r : reader) (rs : list reader) : list reader :=
  match rs with
  | [] => []
  | r' :: rest => if r =? r' then rest else r' :: remove_first r rest
  end.

(** Modelled from the spec: DetachReader of SerializedLogChunk.cpp.
    Detach "removes readerHandle from the back-reference set, decrements
    reader count ...  Calling Detach for a handle never attached is a
    fatal precondition failure." *)
Definition DetachReader (r : reader) (c : SerializedLogChunk)
  : result SerializedLogChunk :=
  if existsb (Z.eqb r) (readers_ c)
  then DecReaderRefCount (with_readers (remove_first r (readers_ c)) c)
  else Fatal.

(** Modelled from the spec: NotifyReadersOfPrune of
    SerializedLogChunk.cpp.  It "iterates the current back-reference set
    and invokes each reader's pruned-notification callback with
    logStreamId" and "does not mutate reader count or the back-reference
    set itself": the result is the list of callbacks made. *)
Definition NotifyReadersOfPrune (log_id : Z) (c : SerializedLogChunk)
  : list (reader * Z) :=
  map (fun r => (r, log_id)) (readers_ c).

(** Modelled from the spec: CanLog of SerializedLogChunk.cpp.
    CanAppend(entryLen) "returns whether writeCursor + headerSize +
    entryLen fits within the region's fixed capacity". *)
Definition CanLog (len : Z) (c : SerializedLogChunk) : bool :=
  write_offset_ c + Z.of_nat header_size + len <=? size (contents_ c).

(** [block] copied over [region] from byte [pos] on. *)
Definition write_at (pos : nat) (block region : list byte) : list byte :=
  firstn pos region ++ block ++ skipn (pos + length block) region.

(** Modelled from the spec: Log of SerializedLogChunk.cpp.  Append
    requires an active writer and CanAppend, "violating either is a fatal
    precondition failure"; it "encodes the header+payload at the current
    write cursor, advances the cursor by the encoded size, updates the
    highest-sequence-number field to sequence" and "returns a non-owning
    reference to the freshly written entry".  The cursor is a (signed)
    int that never passes the size of the region. *)
Definition Log (sequence realtime uid pid tid : Z) (msg : list byte)
    (c : SerializedLogChunk) : result (SerializedLogChunk * pointer) :=
  if writer_active_ c && CanLog (Z.of_nat (length msg)) c
  then
    let block :=
      encode_entry {| sequence := sequence; realtime := realtime;
                      uid := uid; pid := pid; tid := tid; msg := msg |} in
    let c1 :=
      with_contents
        (write_at (Z.to_nat (write_offset_ c)) block (contents_ c)) c in
    let c2 :=
      with_write_offset (write_offset_ c + Z.of_nat (length block)) c1 in
    Ok (with_highest_sequence_number (uint64_t sequence) c2,
        ptr_add (data c) (write_offset_ c))
  else Fatal.

(** The decompressed region as a reader gets it: the region itself while
    the chunk is written or the region is resident, and for a finished
    chunk whose region was released what the decompression step
    reconstitutes from the compressed snapshot. *)
Definition readable_region (c : SerializedLogChunk) : SerializedData :=
  if writer_active_ c || resident c then contents_ c
  else match decompress (compressed_log_ c) with
       | Some d => d
       | None => contents_ c
       end.

(** The blocks of the entries between offset 0 and the write cursor. *)
Definition blocks (c : SerializedLogChunk) : list (list byte) :=
  blocks_of (firstn (Z.to_nat (write_offset_ c)) (readable_region c)).

(** The entries a chunk holds, released region or not. *)
Definition entries (c : SerializedLogChunk) : list SerializedLogEntry :=
  map decode_entry (blocks c).

(** The region up to the write cursor is whole entries back to back. *)
Definition well_laid (c : SerializedLogChunk) : Prop :=
  0 <= write_offset_ c /\
  concat (blocks c) =
  firstn (Z.to_nat (write_offset_ c)) (readable_region c).

(** Modelled from the spec: ClearUidLogs of SerializedLogChunk.cpp.
    ClearEntries(identity, logStreamId) requires a reader count of zero,
    "enforced as a fatal precondition failure otherwise".  It "scans the
    decompressed region in offset order, removing every entry whose
    header identity matches identity, compacting the remaining entries
    to eliminate the resulting gaps, and reducing the write cursor
    accordingly; invalidates the compressed snapshot (since content
    changed) and reports whether the region is now fully empty".

    A finished chunk with no reader has had its region released, and the
    scenario of the design document prunes exactly such a chunk: the
    region to scan is first reconstituted by the decompression step, which
    "fails fatally if no valid snapshot exists".  When the call returns
    the residency contract holds again ("it must hold after every public
    operation returns"), so on a finished chunk the region is released
    once more; a release "requires the compressed snapshot be present and
    valid", and prunes "are only reflected if Compress is invoked again
    before release": the snapshot is taken anew from the compacted region.
    On a chunk still written the region stays and the chunk is left
    without a snapshot.

    The bytes past the new cursor stay as they were.  The statistics
    collaborator is not called by the chunk and is left out. *)
Definition ClearUidLogs (uid log_id : Z) (c : SerializedLogChunk)
  : result (SerializedLogChunk * bool) :=
  if reader_ref_count_ c =? 0
  then
    c0 <- (if writer_active_ c || resident c then Ok c else Decompress c) ;;
    let scanned :=
      blocks_of (firstn (Z.to_nat (write_offset_ c0)) (contents_ c0)) in
    let kept := filter (fun b => negb (entry_uid b =? uid)) scanned in
    let compacted := concat kept in
    let c1 :=
      with_contents
        (compacted ++ skipn (length compacted) (contents_ c0)) c0 in
    let c2 := with_write_offset (Z.of_nat (length compacted)) c1 in
    let c3 := with_compressed_log [] c2 in
    Ok (if writer_active_ c3 then c3
        else with_contents (Resize 0 (contents_ c3)) (Compress c3),
        (length compacted =? 0)%nat)
  else Fatal.

(** ** Sequences of calls *)

Inductive op : Type :=
| OpLog (sequence realtime uid pid tid : Z) (msg : list byte)
| OpFinishWriting
| OpAttachReader (r : reader)
| OpDetachReader (r : reader)
| OpIncReaderRefCount
| OpDecReaderRefCount
| OpCompress
| OpClearUidLogs (uid log_id : Z)
| OpNotifyReadersOfPrune (log_id : Z).

Definition step (o : op) (c : SerializedLogChunk)
  : result SerializedLogChunk :=
  match o with
  | OpLog sequence realtime uid pid tid msg =>
      r <- Log sequence realtime uid pid tid msg c ;; Ok (fst r)
  | OpFinishWriting => Ok (FinishWriting c)
  | OpAttachReader r => AttachReader r c
  | OpDetachReader r => DetachReader r c
  | OpIncReaderRefCount => IncReaderRefCount c
  | OpDecReaderRefCount => DecReaderRefCount c
  | OpCompress => Ok (Compress c)
  | OpClearUidLogs uid log_id =>
      r <- ClearUidLogs uid log_id c ;; Ok (fst r)
  | OpNotifyReadersOfPrune _ => Ok c
  end.

Fixpoint run (ops : list op) (c : SerializedLogChunk)
  : result SerializedLogChunk :=
  match ops with
  | [] => Ok c
  | o :: rest => c1 <- step o c ;; run rest c1
  end.

(** The calls the residency contract speaks of: Log, FinishWriting,
    Attach and Detach, the last two also by their counting halves. *)
Definition lifecycle_op (o : op) : bool :=
  match o with
  | OpLog _ _ _ _ _ _ | OpFinishWriting
  | OpAttachReader _ | OpDetachReader _
  | OpIncReaderRefCount | OpDecReaderRefCount => true
  | _ => false
  end.

Definition is_finish (o : op) : bool :=
  match o with OpFinishWriting => true | _ => false end.

Definition is_attach (o : op) : bool :=
  match o with OpAttachReader _ | OpIncReaderRefCount => true | _ => false end.

(** A state the chunk can be in after a sequence of lifecycle calls on
    a fresh chunk, every call having returned. *)
Definition reachable (c : SerializedLogChunk) : Prop :=
  exists size ops,
    0 <= size /\ forallb lifecycle_op ops = true /\
    run ops (SerializedLogChunk_new size) = Ok c.

(** FinishWriting called again on a finished chunk with no reader
    counted: the region was released, and Compress takes the snapshot of
    the empty region over the one that held the entries. *)
Definition refinishes_released (o : op) (c : SerializedLogChunk) : bool :=
  is_finish o && negb (writer_active_ c) && (reader_ref_count_ c =? 0).

(** A reader counted on a finished chunk whose uint32_t count stands at
    2^32 - 1: the count wraps to 0. *)
Definition overflows_count (o : op) (c : SerializedLogChunk) : bool :=
  is_attach o && negb (writer_active_ c)
  && (reader_ref_count_ c =? 2 ^ 32 - 1).

(** The run of [ops] from [c] holds none of the two calls after which the
    residency contract is lost: a reader attaching once FinishWriting was
    repeated on a released region ([spoiled] records that it was), and a
    reader attaching where the count overflows. *)
Fixpoint keeps_contract (spoiled : bool) (ops : list op)
    (c : SerializedLogChunk) : bool :=
  match ops with
  | [] => true
  | o :: rest =>
      negb (is_attach o && spoiled) && negb (overflows_count o c) &&
      match step o c with
      | Ok c1 => keeps_contract (spoiled || refinishes_released o c) rest c1
      | Fatal => true
      end
  end.

(** What the lifecycle calls keep true of a chunk of capacity [cap]:
    the region is whole while it is in use, and once released it is what
    the snapshot decompresses to. *)
Definition lifecycle_invariant (cap : Z) (c : SerializedLogChunk) : Prop :=
  0 <= write_offset_ c <= cap /\
  0 <= reader_ref_count_ c < 2 ^ 32 /\
  (if writer_active_ c then (size (contents_ c) = cap)
   else if reader_ref_count_ c =? 0
        then (contents_ c = [] /\
              exists d, decompress (compressed_log_ c) = Some d /\
                        size d = cap)
        else (size (contents_ c) = cap /\
              decompress (compressed_log_ c) = Some (contents_ c))).

(** The state FinishWriting leaves when it is repeated on a released
    region: no writer, no reader, no region, and the snapshot of an empty
    region. *)
Definition spoiled_state (c : SerializedLogChunk) : Prop :=
  writer_active_ c = false /\ reader_ref_count_ c = 0 /\
  contents_ c = [] /\ compressed_log_ c = compress [].

(** "Resident iff writer-active OR reader-count > 0". *)
Definition residency_invariant (c : SerializedLogChunk) : Prop :=
  resident c = true <->
  (writer_active_ c = true \/ 0 < reader_ref_count_ c).

(** The content of a chunk can be read: it is still written, its region
    is resident, or its snapshot decompresses. *)
Definition content_available (c : SerializedLogChunk) : Prop :=
  writer_active_ c = true \/ resident c = true \/
  exists d, decompress (compressed_log_ c) = Some d.

End WithEngine.

(* ================================================================== *)
(** * Sample runs *)

Definition hello : list byte := ["h"; "e"; "l"; "l"; "o"]%byte.
Definition world : list byte := ["w"; "o"; "r"; "l"; "d"]%byte.
Definition foo : list byte := ["f"; "o"; "o"]%byte.

(** Three appends by one application, as in the scenario of the design
    document, then the end of writing, one reader attaching and leaving. *)
Definition three_appends : list op :=
  [OpLog 1 1600000000 1000 41 42 hello;
   OpLog 2 1600000001 1000 41 42 world;
   OpLog 3 1600000002 1000 41 43 foo].

Definition scenario : list op :=
  three_appends ++ [OpFinishWriting; OpAttachReader 7; OpDetachReader 7].

(** Appends by two applications. *)
Definition mixed_appends : list op :=
  [OpLog 1 1600000000 1000 41 42 hello;
   OpLog 2 1600000001 2000 51 52 world;
   OpLog 3 1600000002 1000 41 43 foo].

(** A reader attaches while the writer is active; writing then ends. *)
Definition finish_under_reader : list op :=
  [OpAttachReader 7; OpFinishWriting].


(** The appends of two applications, then the end of writing with no
    reader: the region is released over its snapshot. *)
Definition mixed_finished : list op :=
  mixed_appends ++ [OpFinishWriting].

(** Calls made after the end of writing. *)
Definition after_finish : list op :=
  [OpAttachReader 7; OpCompress; OpNotifyReadersOfPrune 0; OpDetachReader 7;
   OpClearUidLogs 1000 0; OpFinishWriting; OpIncReaderRefCount;
   OpDecReaderRefCount].

(* ================================================================== *)
(** * apexd: the APEX file repository and the install hooks

    apex_file_repository.cpp and the staging half of
    apexd_prepostinstall.cpp.  The file system, the APEX parser, the
    system properties and the process runner are outside these files:
    they are the fields of [System].  Log output is left out, except that
    LOG(FATAL) and a failed CHECK end the run. *)

Module Apex.

Import String.

(** android::base::Result<T>: a value or an error with its message. *)
Inductive Result (A : Type) : Type :=
| Success (a : A)
| Error (message : string).
Arguments Success {A} a.
Arguments Error {A} message.

(** The fields of the manifest the code reads (apex_manifest.proto). *)
Record ApexManifest : Type := {
  name : string;
  version : Z;
  preinstallhook : string;
  postinstallhook : string
}.

(** An opened APEX, by the accessors the code calls (apex_file.h). *)
Record ApexFile : Type := {
  GetPath : string;
  GetManifest : ApexManifest;
  GetBundledPublicKey : string
}.

(** One entry of a microdroid signature, by the accessors the code
    calls. *)
Record ApexSignature : Type := {
  size : Z;
  publickey : string
}.

(** access(path, F_OK): 0, or -1 with errno ENOENT, or -1 with another
    errno. *)
Inductive access_result : Type :=
| Accessible
| NoEntry
| OtherFailure.

(** What the two files call and do not define: the constants of
    apex_constants.h, the helpers of apexd_utils.h, ApexFile::Open with
    and without a size, android::base::GetProperty and Realpath, and
    android::microdroid::ReadMicrodroidSignature. *)
Class System : Type := {
  kApexPackageSuffix : string;
  kCompressedApexPackageSuffix : string;
  kDecompressedApexPackageSuffix : string;
  access : string -> access_result;
  FindFilesBySuffix : string -> list string -> Result (list string);
  Open : string -> Result ApexFile;
  OpenWithSize : string -> Z -> Result ApexFile;
  GetProperty : string -> string -> string;
  Realpath : string -> option string;
  ReadMicrodroidSignature : string -> Result (list ApexSignature);
  ForkAndRun : list string -> Result unit
}.

(** ** Strings *)

(** android::base::StartsWith and std::string::starts_with. *)
Definition StartsWith (s prefix : string) : bool := String.prefix prefix s.

(** android::base::EndsWith. *)
Definition EndsWith (s suffix : string) : bool :=
  (String.length suffix <=? String.length s)%nat &&
  (substring (String.length s - String.length suffix)
     (String.length suffix) s =? suffix)%string.

(** android::base::ConsumeSuffix: the string without the suffix, when it
    ends with it. *)
Definition ConsumeSuffix (s suffix : string) : option string :=
  if EndsWith s suffix
  then Some (substring 0 (String.length s - String.length suffix) s)
  else None.

(** std::to_string on an int. *)
Definition to_string (i : Z) : string :=
  DecimalString.NilZero.string_of_int (Z.to_int i).

(** ** std::unordered_map<std::string, ApexFile>

    A finite map with one entry per key.  The order in which the program
    iterates over it is not specified; the model iterates in the order of
    insertion. *)
Definition store : Type := list (string * ApexFile).

Fixpoint find (key : string) (s : store) : option ApexFile :=
  match s with
  | [] => None
  | (k, f) :: rest => if (k =? key)%string then Some f else find key rest
  end.

(** emplace inserts when the key is absent and does nothing otherwise. *)
Definition emplace (key : string) (f : ApexFile) (s : store) : store :=
  match find key s with
  | None => s ++ [(key, f)]
  | Some _ => s
  end.

(** it->second = f, for the entry found under [key]. *)
Fixpoint assign (key : string) (f : ApexFile) (s : store) : store :=
  match s with
  | [] => []
  | (k, g) :: rest =>
      if (k =? key)%string then (k, f) :: rest
      else (k, g) :: assign key f rest
  end.

(** ** The repository *)

(** The members the code uses (apex_file_repository.h). *)
Record ApexFileRepository : Type := {
  pre_installed_store_ : store;
  data_store_ : store;
  decompression_dir_ : string
}.

Definition with_pre_installed_store (s : store) (r : ApexFileRepository) :=
  {| pre_installed_store_ := s;
     data_store_ := data_store_ r;
     decompression_dir_ := decompression_dir_ r |}.

Definition with_data_store (s : store) (r : ApexFileRepository) :=
  {| pre_installed_store_ := pre_installed_store_ r;
     data_store_ := s;
     decompression_dir_ := decompression_dir_ r |}.

(** A call on the repository returns a value and leaves the repository
    in a state, or the process is aborted (LOG(FATAL), CHECK). *)
Inductive exec (A : Type) : Type :=
| Returns (a : A) (r : ApexFileRepository)
| Aborted.
Arguments Returns {A} a r.
Arguments Aborted {A}.

Section WithSystem.

Context {sys : System}.

(** bool HasPreInstalledVersion(const std::string& name) const *)
Definition HasPreInstalledVersion (name : string) (r : ApexFileRepository)
  : bool :=
  match find name (pre_installed_store_ r) with
  | Some _ => true
  | None => false
  end.

(** bool HasDataVersion(const std::string& name) const *)
Definition HasDataVersion (name : string) (r : ApexFileRepository) : bool :=
  match find name (data_store_ r) with
  | Some _ => true
  | None => false
  end.

(** Result<const std::string> GetPublicKey(const std::string& name) const *)
Definition GetPublicKey (name : string) (r : ApexFileRepository)
  : Result string :=
  match find name (pre_installed_store_ r) with
  | None => Error ("No preinstalled apex found for package " ++ name)%string
  | Some it => Success (GetBundledPublicKey it)
  end.

(** Result<const std::string> GetPreinstalledPath(const std::string&) const *)
Definition GetPreinstalledPath (name : string) (r : ApexFileRepository)
  : Result string :=
  match find name (pre_installed_store_ r) with
  | None => Error ("No preinstalled data found for package " ++ name)%string
  | Some it => Success (GetPath it)
  end.

(** Result<const std::string> GetDataPath(const std::string& name) const *)
Definition GetDataPath (name : string) (r : ApexFileRepository)
  : Result string :=
  match find name (data_store_ r) with
  | None => Error ("No data apex found for package " ++ name)%string
  | Some it => Success (GetPath it)
  end.

(** ApexFileRef GetDataApex(const std::string& name) const, with its
    CHECK(it != data_store_.end()). *)
Definition GetDataApex (name : string) (r : ApexFileRepository)
  : exec ApexFile :=
  match find name (data_store_ r) with
  | None => Aborted
  | Some it => Returns it r
  end.

(** ApexFileRef GetPreInstalledApex(const std::string& name) const, with
    its CHECK(it != pre_installed_store_.end()). *)
Definition GetPreInstalledApex (name : string) (r : ApexFileRepository)
  : exec ApexFile :=
  match find name (pre_installed_store_ r) with
  | None => Aborted
  | Some it => Returns it r
  end.

(** bool IsDecompressedApex(const ApexFile& apex) const *)
Definition IsDecompressedApex (apex : ApexFile) (r : ApexFileRepository)
  : bool :=
  StartsWith (GetPath apex) (decompression_dir_ r).

(** bool IsPreInstalledApex(const ApexFile& apex) const *)
Definition IsPreInstalledApex (apex : ApexFile) (r : ApexFileRepository)
  : bool :=
  match find (name (GetManifest apex)) (pre_installed_store_ r) with
  | None => false
  | Some it =>
      (GetPath it =? GetPath apex)%string || IsDecompressedApex apex r
  end.

(** std::vector<ApexFileRef> GetPreInstalledApexFiles() const *)
Definition GetPreInstalledApexFiles (r : ApexFileRepository)
  : list ApexFile :=
  map snd (pre_installed_store_ r).

(** std::vector<ApexFileRef> GetDataApexFiles() const *)
Definition GetDataApexFiles (r : ApexFileRepository) : list ApexFile :=
  map snd (data_store_ r).

(** The std::unordered_map<std::string, std::vector<ApexFileRef>> that
    AllApexFilesByName builds. *)
Definition groups : Type := list (string * list ApexFile).

Fixpoint find_group (key : string) (g : groups) : option (list ApexFile) :=
  match g with
  | [] => None
  | (k, fs) :: rest =>
      if (k =? key)%string then Some fs else find_group key rest
  end.

(** result[key] = fs *)
Fixpoint set_group (key : string) (fs : list ApexFile) (g : groups)
  : groups :=
  match g with
  | [] => [(key, fs)]
  | (k, old) :: rest =>
      if (k =? key)%string then (k, fs) :: rest
      else (k, old) :: set_group key fs rest
  end.

(** result[key].emplace_back(f); operator[] makes the entry when there is
    none. *)
Fixpoint push_group (key : string) (f : ApexFile) (g : groups) : groups :=
  match g with
  | [] => [(key, [f])]
  | (k, fs) :: rest =>
      if (k =? key)%string then (k, fs ++ [f]) :: rest
      else (k, fs) :: push_group key f rest
  end.

(** The body of the grouping loop. *)
Definition group_one (result : groups) (apex_file : ApexFile) : groups :=
  let package_name := name (GetManifest apex_file) in
  let result1 :=
    match find_group package_name result with
    | None => set_group package_name [] result
    | Some _ => result
    end in
  push_group package_name apex_file result1.

(** std::unordered_map<std::string, std::vector<ApexFileRef>>
    AllApexFilesByName() const *)
Definition AllApexFilesByName (r : ApexFileRepository) : groups :=
  let all_apex_files := GetPreInstalledApexFiles r ++ GetDataApexFiles r in
  fold_left group_one all_apex_files [].

Fixpoint find_path (full_path : string) (s : store) : option ApexFile :=
  match s with
  | [] => None
  | (_, apex) :: rest =>
      if (GetPath apex =? full_path)%string then Some apex
      else find_path full_path rest
  end.

(** std::optional<ApexFileRef> GetApexFile(const std::string&) const *)
Definition GetApexFile (full_path : string) (r : ApexFileRepository)
  : option ApexFile :=
  match find_path full_path (pre_installed_store_ r) with
  | Some apex => Some apex
  | None => find_path full_path (data_store_ r)
  end.

Definition kVndkApexModuleNamePrefix : string := "com.android.vndk.".
Definition kPlatformVersionCodenameProperty : string :=
  "ro.build.version.codename".

(** What ScanBuiltInDir accepts of a file whose name is already
    registered: the same path and key, or another path for a VNDK APEX on
    a build that is not a release. *)
Definition tolerated (it apex_file : ApexFile) : Prop :=
  (GetPath it = GetPath apex_file /\
   GetBundledPublicKey it = GetBundledPublicKey apex_file) \/
  (GetPath it <> GetPath apex_file /\
   StartsWith (name (GetManifest apex_file)) kVndkApexModuleNamePrefix
     = true /\
   GetProperty kPlatformVersionCodenameProperty "REL" <> "REL"%string).

(** The loop of ScanBuiltInDir over the files found. *)
Fixpoint ScanBuiltInDir_files (files : list string) (r : ApexFileRepository)
  : exec (Result unit) :=
  match files with
  | [] => Returns (Success tt) r
  | file :: rest =>
      match Open file with
      | Error e =>
          Returns (Error ("Failed to open " ++ file ++ " : " ++ e)%string) r
      | Success apex_file =>
          let name := name (GetManifest apex_file) in
          match find name (pre_installed_store_ r) with
          | None =>
              ScanBuiltInDir_files rest
                (with_pre_installed_store
                   (emplace name apex_file (pre_installed_store_ r)) r)
          | Some it =>
              if negb (GetPath it =? GetPath apex_file)%string then
                if StartsWith name kVndkApexModuleNamePrefix &&
                   negb (GetProperty kPlatformVersionCodenameProperty "REL"
                         =? "REL")%string
                then ScanBuiltInDir_files rest r
                else Aborted
              else if negb (GetBundledPublicKey it =?
                            GetBundledPublicKey apex_file)%string
              then Aborted
              else ScanBuiltInDir_files rest r
          end
      end
  end.

(** Result<void> ScanBuiltInDir(const std::string& dir) *)
Definition ScanBuiltInDir (dir : string) (r : ApexFileRepository)
  : exec (Result unit) :=
  match access dir with
  | NoEntry => Returns (Success tt) r
  | _ =>
      match FindFilesBySuffix dir
              [kApexPackageSuffix; kCompressedApexPackageSuffix] with
      | Error e => Returns (Error e) r
      | Success all_apex_files => ScanBuiltInDir_files all_apex_files r
      end
  end.

(** Result<void> AddPreInstalledApex(const std::vector<std::string>&) *)
Fixpoint AddPreInstalledApex (prebuilt_dirs : list string)
    (r : ApexFileRepository) : exec (Result unit) :=
  match prebuilt_dirs with
  | [] => Returns (Success tt) r
  | dir :: rest =>
      match ScanBuiltInDir dir r with
      | Returns (Success _) r1 => AddPreInstalledApex rest r1
      | Returns (Error e) r1 => Returns (Error e) r1
      | Aborted => Aborted
      end
  end.

Definition kFirstApexPartition : Z := 2.

(** The loop of AddBlockApex over the entries of the signature, from
    entry [i] on. *)
Fixpoint AddBlockApex_apexes (disk_path : string) (i : Z)
    (apexes : list ApexSignature) (r : ApexFileRepository)
  : exec (Result unit) :=
  match apexes with
  | [] => Returns (Success tt) r
  | apex_signature :: rest =>
      let apex_path :=
        (disk_path ++ to_string (i + kFirstApexPartition))%string in
      match OpenWithSize apex_path (size apex_signature) with
      | Error e =>
          Returns
            (Error ("Failed to open " ++ apex_path ++ " : " ++ e)%string) r
      | Success apex_file =>
          if negb (publickey apex_signature =? "")%string &&
             negb (publickey apex_signature =?
                   GetBundledPublicKey apex_file)%string
          then Returns
                 (Error ("public key doesn't match: " ++ apex_path)%string) r
          else
            let name := name (GetManifest apex_file) in
            match find name (pre_installed_store_ r) with
            | Some it =>
                Returns
                  (Error ("duplicate found in " ++ GetPath it)%string) r
            | None =>
                AddBlockApex_apexes disk_path (i + 1) rest
                  (with_pre_installed_store
                     (emplace name apex_file (pre_installed_store_ r)) r)
            end
      end
  end.

(** Result<void> AddBlockApex(const std::string& signature_partition) *)
Definition AddBlockApex (signature_partition : string)
    (r : ApexFileRepository) : exec (Result unit) :=
  match access signature_partition with
  | NoEntry => Returns (Success tt) r
  | _ =>
      match Realpath signature_partition with
      | None => Returns (Success tt) r
      | Some signature_realpath =>
          match ConsumeSuffix signature_realpath "1" with
          | None => Returns (Success tt) r
          | Some disk_path =>
              match ReadMicrodroidSignature signature_realpath with
              | Error _ => Returns (Success tt) r
              | Success signature =>
                  AddBlockApex_apexes disk_path 0 signature r
              end
          end
      end
  end.

(** One turn of the loop of AddDataApex: the repository after [file]
    has been looked at.  Every "continue" leaves it as it was. *)
Definition AddDataApex_file (file : string) (r : ApexFileRepository)
  : ApexFileRepository :=
  match Open file with
  | Error _ => r
  | Success apex_file =>
      let name := name (GetManifest apex_file) in
      if negb (HasPreInstalledVersion name r) then r
      else
        match GetPublicKey name r with
        | Error _ => r
        | Success pre_installed_public_key =>
            if negb (GetBundledPublicKey apex_file =?
                     pre_installed_public_key)%string
            then r
            else if EndsWith (GetPath apex_file)
                      kDecompressedApexPackageSuffix
            then r
            else
              match find name (data_store_ r) with
              | None =>
                  with_data_store
                    (emplace name apex_file (data_store_ r)) r
              | Some it =>
                  let existing_version := version (GetManifest it) in
                  let new_version := version (GetManifest apex_file) in
                  let prioritize_higher_version :=
                    existing_version <? new_version in
                  if prioritize_higher_version
                  then with_data_store
                         (assign name apex_file (data_store_ r)) r
                  else r
              end
        end
  end.

(** The loop of AddDataApex over the files found. *)
Fixpoint AddDataApex_files (files : list string) (r : ApexFileRepository)
  : ApexFileRepository :=
  match files with
  | [] => r
  | file :: rest => AddDataApex_files rest (AddDataApex_file file r)
  end.

(** The files AddDataApex does not skip: they open, an APEX of their
    name is pre-installed with the same bundled public key, and their path
    does not end with the suffix of decompressed APEXes. *)
Definition admitted (file : string) (apex_file : ApexFile)
    (r : ApexFileRepository) : Prop :=
  Open file = Success apex_file /\
  (exists p,
     find (name (GetManifest apex_file)) (pre_installed_store_ r) = Some p /\
     GetBundledPublicKey apex_file = GetBundledPublicKey p) /\
  EndsWith (GetPath apex_file) kDecompressedApexPackageSuffix = false.

(** Result<void> AddDataApex(const std::string& data_dir) *)
Definition AddDataApex (data_dir : string) (r : ApexFileRepository)
  : exec (Result unit) :=
  match access data_dir with
  | NoEntry => Returns (Success tt) r
  | _ =>
      match FindFilesBySuffix data_dir [kApexPackageSuffix] with
      | Error e => Returns (Error e) r
      | Success active_apex =>
          Returns (Success tt) (AddDataApex_files active_apex r)
      end
  end.

(** ** Staging an install hook (apexd_prepostinstall.cpp) *)

(** The outcome of the search for the one APEX with a hook. *)
Inductive hook_search : Type :=
| HookAt (hook_idx : Z)
| MultipleHooks.

(** The first loop of StageFnInstall, from index [i] on; hook_idx is -1
    until a hook is met. *)
Fixpoint find_hook (fn : ApexManifest -> string) (apexes : list ApexFile)
    (i hook_idx : Z) : hook_search :=
  match apexes with
  | [] => HookAt hook_idx
  | apex :: rest =>
      if negb (fn (GetManifest apex) =? "")%string then
        if negb (hook_idx =? -1) then MultipleHooks
        else find_hook fn rest (i + 1) i
      else find_hook fn rest (i + 1) hook_idx
  end.

(** The second loop: the mount points other than the one of the hook, from
    index [i] on. *)
Fixpoint other_mount_points (mount_points : list string) (i hook_idx : Z)
  : list string :=
  match mount_points with
  | [] => []
  | p :: rest =>
      if negb (i =? hook_idx)
      then p :: other_mount_points rest (i + 1) hook_idx
      else other_mount_points rest (i + 1) hook_idx
  end.

(** The invocation of apexd that StageFnInstall builds:
    "/system/bin/apexd", arg, mount_points[hook_idx], then the other
    mount points.  The program indexes the vector without a check: for an
    index outside mount_points it has no defined behaviour, and there is
    no invocation to speak of. *)
Definition invocation_args (mount_points : list string) (arg : string)
    (hook_idx : Z) : option (list string) :=
  if hook_idx <? 0 then None
  else
    match nth_error mount_points (Z.to_nat hook_idx) with
    | Some hook_mount_point =>
        Some (["/system/bin/apexd"%string; arg; hook_mount_point]
              ++ other_mount_points mount_points 0 hook_idx)
    | None => None
    end.

(** A staging call returns a result, or is aborted by its CHECK, or reads
    mount_points past its end, which is undefined behaviour. *)
Inductive staged : Type :=
| Staged (result : Result unit)
| StageAborted
| StageUndefined.

(** template <typename Fn> Result<void> StageFnInstall(apexes,
    mount_points, fn, arg, name) *)
Definition StageFnInstall (apexes : list ApexFile)
    (mount_points : list string) (fn : ApexManifest -> string)
    (arg name : string) : staged :=
  match find_hook fn apexes 0 (-1) with
  | MultipleHooks =>
      Staged
        (Error ("Missing support for multiple " ++ name ++ " hooks")%string)
  | HookAt hook_idx =>
      if hook_idx =? -1 then StageAborted
      else
        match invocation_args mount_points arg hook_idx with
        | Some args => Staged (ForkAndRun args)
        | None => StageUndefined
        end
  end.

(** Result<void> StagePreInstall(apexes, mount_points) *)
Definition StagePreInstall (apexes : list ApexFile)
    (mount_points : list string) : staged :=
  StageFnInstall apexes mount_points preinstallhook
    "--pre-install" "pre-install".

(** Result<void> StagePostInstall(apexes, mount_points) *)
Definition StagePostInstall (apexes : list ApexFile)
    (mount_points : list string) : staged :=
  StageFnInstall apexes mount_points postinstallhook
    "--post-install" "post-install".

End WithSystem.

(** ** Invariants of the stores *)

(** One entry per key, each under the name in its manifest. *)
Definition store_ok (s : store) : Prop :=
  NoDup (map fst s) /\
  Forall (fun kf => name (GetManifest (snd kf)) = fst kf) s.

Definition repository_ok (r : ApexFileRepository) : Prop :=
  store_ok (pre_installed_store_ r) /\ store_ok (data_store_ r).

(** Every data APEX has a pre-installed APEX of its name with its key. *)
Definition data_backed (r : ApexFileRepository) : Prop :=
  forall name f,
    find name (data_store_ r) = Some f ->
    exists p,
      find name (pre_installed_store_ r) = Some p /\
      GetBundledPublicKey p = GetBundledPublicKey f.

(** The files of a list whose manifest carries a given name. *)
Definition named (package : string) (files : list ApexFile)
  : list ApexFile :=
  filter (fun f => (name (GetManifest f) =? package)%string) files.

(** An APEX with a hook, for the accessor [fn] of the manifest. *)
Definition has_hook (fn : ApexManifest -> string) (apex : ApexFile) : bool :=
  negb (fn (GetManifest apex) =? "")%string.

(** A fresh repository: both stores empty. *)
Definition empty_repository (decompression_dir : string)
  : ApexFileRepository :=
  {| pre_installed_store_ := [];
     data_store_ := [];
     decompression_dir_ := decompression_dir |}.

(** ** A small system for the examples

    Two APEXes under /system/apex, updates and strays under
    /data/apex/active, two APEXes on a block device, a release build. *)

Definition demo_apex (path package : string) (v : Z) (key hook : string)
  : ApexFile :=
  {| GetPath := path;
     GetManifest := {| name := package; version := v;
                       preinstallhook := hook; postinstallhook := "" |};
     GetBundledPublicKey := key |}.

Definition demo_open (path : string) : Result ApexFile :=
  if (path =? "/system/apex/com.android.foo.apex")%string then
    Success (demo_apex path "com.android.foo" 1 "key-foo" "bin/preinstall")
  else if (path =? "/system/apex/com.android.bar.capex")%string then
    Success (demo_apex path "com.android.bar" 1 "key-bar" "")
  else if (path =? "/data/apex/active/com.android.foo@2.apex")%string then
    Success (demo_apex path "com.android.foo" 2 "key-foo" "")
  else if (path =? "/data/apex/active/com.android.foo@3.apex")%string then
    Success (demo_apex path "com.android.foo" 3 "key-foo" "")
  else if (path =? "/data/apex/active/com.android.evil.apex")%string then
    Success (demo_apex path "com.android.foo" 9 "key-evil" "")
  else if (path =?
           "/data/apex/active/com.android.bar@2.decompressed.apex")%string
  then Success (demo_apex path "com.android.bar" 2 "key-bar" "")
  else if (path =? "/data/apex/active/com.android.new.apex")%string then
    Success (demo_apex path "com.android.new" 1 "key-new" "")
  else Error "not an APEX".

Definition demo_files (dir : string) : Result (list string) :=
  if (dir =? "/system/apex")%string then
    Success ["/system/apex/com.android.foo.apex"%string;
             "/system/apex/com.android.bar.capex"%string]
  else if (dir =? "/odd/apex")%string then
    Success ["/odd/apex/broken.apex"%string]
  else if (dir =? "/data/apex/active")%string then
    Success ["/data/apex/active/com.android.foo@3.apex"%string;
             "/data/apex/active/com.android.foo@2.apex"%string;
             "/data/apex/active/com.android.evil.apex"%string;
             "/data/apex/active/com.android.bar@2.decompressed.apex"%string;
             "/data/apex/active/com.android.new.apex"%string;
             "/data/apex/active/junk.apex"%string]
  else Error "cannot open directory".

Definition demo_open_sized (path : string) (size : Z) : Result ApexFile :=
  if (path =? "/dev/block/vdb2")%string then
    Success (demo_apex path "com.android.baz" 1 "key-baz" "")
  else if (path =? "/dev/block/vdb3")%string then
    Success (demo_apex path "com.android.qux" 1 "key-qux" "")
  else Error "not an APEX".

#[export] Instance demo_system : System :=
  {| kApexPackageSuffix := ".apex";
     kCompressedApexPackageSuffix := ".capex";
     kDecompressedApexPackageSuffix := ".decompressed.apex";
     access := fun path =>
       if (path =? "/vendor/apex")%string then NoEntry else Accessible;
     FindFilesBySuffix := fun dir _ => demo_files dir;
     Open := demo_open;
     OpenWithSize := demo_open_sized;
     GetProperty := fun _ default => default;
     Realpath := fun path =>
       if (path =? "/dev/block/by-name/signature")%string
       then Some "/dev/block/vdb1"%string else None;
     ReadMicrodroidSignature := fun path =>
       if (path =? "/dev/block/vdb1")%string
       then Success [{| size := 4096; publickey := "" |};
                     {| size := 8192; publickey := "key-qux" |}]
       else Error "no signature";
     ForkAndRun := fun _ => Success tt |}.

Definition repository_of {A} (e : exec A) : ApexFileRepository :=
  match e with
  | Returns _ r => r
  | Aborted => empty_repository ""
  end.

Definition demo_empty : ApexFileRepository :=
  empty_repository "/data/apex/decompressed".

(** The repository after the built-in directories were scanned. *)
Definition demo_scanned : ApexFileRepository :=
  repository_of (AddPreInstalledApex
                   ["/vendor/apex"%string; "/system/apex"%string]
                   demo_empty).

(** The repository after the data directory was added. *)
Definition demo_updated : ApexFileRepository :=
  repository_of (AddDataApex "/data/apex/active" demo_scanned).

(** The repository after the block device was added. *)
Definition demo_with_block : ApexFileRepository :=
  repository_of (AddBlockApex "/dev/block/by-name/signature" demo_scanned).

End Apex.

(* ================================================================== *)
(** * Bytes and little-endian fields *)

Lemma Z_of_byte_range (b : byte) : 0 <= Z_of_byte b < 256.
Proof.
  unfold Z_of_byte. pose proof (Byte.to_N_bounded b). lia.
Qed.

Lemma Z_of_byte_of_Z (v : Z) : Z_of_byte (byte_of_Z v) = v mod 256.
Proof.
  unfold Z_of_byte, byte_of_Z.
  pose proof (Z.mod_pos_bound v 256 ltac:(lia)) as Hv.
  destruct (Byte.of_N (Z.to_N (v mod 256))) as [b|] eqn:E.
  - apply Byte.to_of_N in E. rewrite E. lia.
  - apply Byte.of_N_None_iff in E. lia.
Qed.

Lemma length_le_bytes (n : nat) (v : Z) : length (le_bytes n v) = n.
Proof.
  revert v. induction n as [|n IH]; intros v; simpl; [reflexivity|].
  now rewrite IH.
Qed.

Lemma le_value_le_bytes (n : nat) (v : Z) :
  le_value (le_bytes n v) = v mod 256 ^ Z.of_nat n.
Proof.
  revert v. induction n as [|n IH]; intros v.
  - simpl. now rewrite Z.mod_1_r.
  - cbn [le_bytes le_value]. rewrite IH, Z_of_byte_of_Z.
    rewrite Nat2Z.inj_succ, Z.pow_succ_r by lia.
    rewrite Z.rem_mul_r by lia. reflexivity.
Qed.

Lemma le_value_nonneg (bs : list byte) : 0 <= le_value bs.
Proof.
  induction bs as [|b bs IH]; cbn [le_value]; [lia|].
  pose proof (Z_of_byte_range b). lia.
Qed.

(* ================================================================== *)
(** * The reference engine round-trips *)

Lemma rle_expand_runs (l : list byte) : rle_expand (rle_runs l) = l.
Proof.
  induction l as [|b rest IH]; [reflexivity|].
  cbn [rle_runs]. destruct (rle_runs rest) as [|[n b'] runs] eqn:E.
  - simpl in *. now rewrite <- IH.
  - destruct (Byte.eqb b b' && (n <? 255)%nat) eqn:C.
    + apply andb_prop in C as [Hb _]. apply Byte.byte_dec_bl in Hb. subst b'.
      cbn [rle_expand repeat] in *. now rewrite <- app_comm_cons, IH.
    + cbn [rle_expand repeat] in *. simpl. now rewrite IH.
Qed.

Lemma rle_runs_bounded (l : list byte) :
  Forall (fun r => (fst r <= 255)%nat) (rle_runs l).
Proof.
  induction l as [|b rest IH]; [constructor|].
  cbn [rle_runs]. destruct (rle_runs rest) as [|[n b'] runs].
  - constructor; [simpl; lia | constructor].
  - inversion IH as [|? ? Hn Hruns]; subst.
    destruct (Byte.eqb b b' && (n <? 255)%nat) eqn:C.
    + apply andb_prop in C as [_ Hlt]. apply Nat.ltb_lt in Hlt.
      constructor; [simpl; lia | assumption].
    + constructor; [simpl; lia | assumption].
Qed.

Lemma rle_parse_emit (runs : list (nat * byte)) :
  Forall (fun r => (fst r <= 255)%nat) runs ->
  rle_parse (rle_emit runs) = Some (rle_expand runs).
Proof.
  induction 1 as [|[n b] runs Hn _ IH]; [reflexivity|].
  cbn [rle_emit rle_parse rle_expand]. rewrite IH, Z_of_byte_of_Z.
  simpl in Hn. rewrite Z.mod_small by lia. now rewrite Nat2Z.id.
Qed.

Lemma rle_round_trip (d : SerializedData) :
  rle_decompress (rle_compress d) = Some d.
Proof.
  unfold rle_decompress, rle_compress.
  rewrite (Byte.byte_dec_lb (x := rle_magic) eq_refl).
  rewrite rle_parse_emit by apply rle_runs_bounded.
  now rewrite rle_expand_runs.
Qed.

#[export] Instance RleEngine : CompressionEngine :=
  {| compress := rle_compress;
     decompress := rle_decompress;
     decompress_compress := rle_round_trip |}.

(* ================================================================== *)
(** * Results *)

Lemma Ok_inj {A} (a b : A) : Ok a = Ok b -> a = b.
Proof. intros H. exact (f_equal (get a) H). Qed.

Ltac chunk_simpl :=
  cbn [contents_ write_offset_ reader_ref_count_ writer_active_
       highest_sequence_number_ compressed_log_ readers_
       with_contents with_write_offset with_reader_ref_count
       with_writer_active with_highest_sequence_number
       with_compressed_log with_readers Compress] in *.

(* ================================================================== *)
(** * Regions *)

Lemma size_nonneg (d : SerializedData) : 0 <= size d.
Proof. unfold size. lia. Qed.


Lemma size_eqb_zero (d : SerializedData) :
  (size d =? 0) = match d with [] => true | _ :: _ => false end.
Proof.
  destruct d; [reflexivity|]. apply Z.eqb_neq. unfold size. simpl length. lia.
Qed.

Lemma Resize_zero (d : SerializedData) : Resize 0 d = [].
Proof. reflexivity. Qed.

Lemma size_sized (n : Z) : 0 <= n -> size (SerializedData_sized n) = n.
Proof.
  intros Hn. unfold size, SerializedData_sized. rewrite repeat_length. lia.
Qed.

Lemma compress_injective {engine : CompressionEngine} (x y : SerializedData) :
  compress x = compress y -> x = y.
Proof.
  intros H. apply (f_equal decompress) in H.
  rewrite !decompress_compress in H. congruence.
Qed.

(* ================================================================== *)
(** * Construction *)

(** C10.  A freshly constructed chunk, whatever its capacity, has write
    offset 0, reader count 0, an active writer, an empty compressed
    snapshot and no registered reader; its highest sequence number is 1,
    not 0, although it holds no entry yet. *)
Theorem fresh_chunk_state {engine : CompressionEngine} (size : Z) :
  let c := SerializedLogChunk_new size in
  write_offset c = 0 /\
  reader_ref_count c = 0 /\
  writer_active_ c = true /\
  compressed_log_ c = [] /\
  readers_ c = [] /\
  highest_sequence_number c = 1 /\
  highest_sequence_number c <> 0 /\
  entries c = [].
Proof.
  cbv zeta. unfold write_offset, reader_ref_count, highest_sequence_number.
  repeat split; try reflexivity. simpl. discriminate.
Qed.

(* ================================================================== *)
(** * The memory footprint *)

Section FootprintFacts.

Variable sizeof_this : Z.

Lemma PruneSize_with_snapshot (c : SerializedLogChunk) :
  compressed_log_ c <> [] ->
  PruneSize sizeof_this c = size_t (sizeof_this + size (compressed_log_ c)).
Proof.
  intros Hc. unfold PruneSize. rewrite size_eqb_zero.
  destruct (compressed_log_ c); [contradiction | reflexivity].
Qed.

Lemma PruneSize_without_snapshot (c : SerializedLogChunk) :
  compressed_log_ c = [] ->
  PruneSize sizeof_this c = size_t (sizeof_this + size (contents_ c)).
Proof.
  intros Hc. unfold PruneSize. now rewrite Hc.
Qed.

(** C2, as the code has it.  PruneSize is the overhead plus the size of
    the compressed snapshot whenever that snapshot is non-empty, released
    region or not, and the overhead plus the full size of the decompressed
    region otherwise.  It is the footprint of the design document exactly
    in the states where one of the two regions is empty or both cost the
    same. *)
Theorem PruneSize_prefers_snapshot (c : SerializedLogChunk) :
  (compressed_log_ c <> [] ->
   PruneSize sizeof_this c = size_t (sizeof_this + size (compressed_log_ c)))
  /\
  (compressed_log_ c = [] ->
   PruneSize sizeof_this c = size_t (sizeof_this + size (contents_ c)))
  /\
  (PruneSize sizeof_this c = MemoryFootprint_spec sizeof_this c <->
   compressed_log_ c = [] \/ contents_ c = [] \/
   size_t (sizeof_this + size (compressed_log_ c)) =
   size_t (sizeof_this + size (contents_ c))).
Proof.
  split; [apply PruneSize_with_snapshot|].
  split; [apply PruneSize_without_snapshot|].
  unfold PruneSize, MemoryFootprint_spec. rewrite !size_eqb_zero.
  destruct (compressed_log_ c) as [|x xs], (contents_ c) as [|y ys];
    cbn [negb andb]; split; intros H; auto.
  destruct H as [H | [H | H]]; [discriminate | discriminate | exact H].
Qed.

(** C3, as the code has it.  When one of the two regions is empty (no
    snapshot taken yet, or the decompressed region released) PruneSize
    counts every live byte; when both are held it counts the snapshot
    alone and leaves the decompressed region out. *)
Theorem PruneSize_counts_live_bytes (c : SerializedLogChunk) :
  0 <= sizeof_this ->
  sizeof_this + live_bytes c < 2 ^ 64 ->
  (contents_ c = [] \/ compressed_log_ c = [] ->
   PruneSize sizeof_this c = sizeof_this + live_bytes c /\
   live_bytes c <= PruneSize sizeof_this c)
  /\
  (contents_ c <> [] -> compressed_log_ c <> [] ->
   PruneSize sizeof_this c = sizeof_this + size (compressed_log_ c) /\
   PruneSize sizeof_this c + size (contents_ c) = sizeof_this + live_bytes c).
Proof.
  intros Hs Hfit. unfold live_bytes in *.
  pose proof (size_nonneg (contents_ c)) as H1.
  pose proof (size_nonneg (compressed_log_ c)) as H2.
  assert (Hw : forall v, 0 <= v -> v <= sizeof_this + size (contents_ c)
                         + size (compressed_log_ c) -> size_t v = v).
  { intros v Hv Hle. unfold size_t, wrap. apply Z.mod_small. lia. }
  split.
  - intros [H | H].
    + unfold PruneSize. rewrite size_eqb_zero.
      destruct (compressed_log_ c) as [|x xs] eqn:E.
      * rewrite H. change (size []) with 0. rewrite Hw; lia.
      * rewrite H in *. change (size []) with 0 in *. rewrite Hw; lia.
    + rewrite PruneSize_without_snapshot by assumption.
      rewrite H in *. change (size []) with 0 in *. rewrite Hw; lia.
  - intros _ Hc. rewrite PruneSize_with_snapshot by assumption.
    rewrite Hw; lia.
Qed.

End FootprintFacts.

(* ================================================================== *)
(** * Finishing, compressing, reading *)

Section ChunkFacts.

Context {engine : CompressionEngine}.

Lemma Compress_frame (c : SerializedLogChunk) :
  contents_ (Compress c) = contents_ c /\
  write_offset_ (Compress c) = write_offset_ c /\
  reader_ref_count_ (Compress c) = reader_ref_count_ c /\
  writer_active_ (Compress c) = writer_active_ c /\
  highest_sequence_number_ (Compress c) = highest_sequence_number_ c /\
  readers_ (Compress c) = readers_ c.
Proof. repeat split. Qed.

Lemma FinishWriting_no_readers (c : SerializedLogChunk) :
  reader_ref_count_ c = 0 ->
  FinishWriting c =
  with_contents [] (Compress (with_writer_active false c)).
Proof.
  intros H. unfold FinishWriting. cbn [Compress with_compressed_log
    with_writer_active reader_ref_count_]. now rewrite H.
Qed.

Lemma FinishWriting_with_readers (c : SerializedLogChunk) :
  reader_ref_count_ c <> 0 ->
  FinishWriting c = Compress (with_writer_active false c).
Proof.
  intros H. unfold FinishWriting. cbn [Compress with_compressed_log
    with_writer_active reader_ref_count_].
  apply Z.eqb_neq in H. now rewrite H.
Qed.

(** C4.  FinishWriting marks the writer inactive, takes the compressed
    snapshot of the decompressed region as it is through Compress, and
    empties the decompressed region exactly when the reader count is zero
    at that instant; with readers attached the region is left as it was.
    Cursor, count, sequence number and readers are not touched. *)
Theorem FinishWriting_effect (c : SerializedLogChunk) :
  writer_active_ (FinishWriting c) = false /\
  compressed_log_ (FinishWriting c) =
    compressed_log_ (Compress (with_writer_active false c)) /\
  compressed_log_ (FinishWriting c) = compress (contents_ c) /\
  (reader_ref_count_ c = 0 -> contents_ (FinishWriting c) = []) /\
  (reader_ref_count_ c <> 0 -> contents_ (FinishWriting c) = contents_ c) /\
  (contents_ c <> [] ->
   (contents_ (FinishWriting c) = [] <-> reader_ref_count_ c = 0)) /\
  write_offset_ (FinishWriting c) = write_offset_ c /\
  reader_ref_count_ (FinishWriting c) = reader_ref_count_ c /\
  highest_sequence_number_ (FinishWriting c) = highest_sequence_number_ c /\
  readers_ (FinishWriting c) = readers_ c.
Proof.
  destruct (Z.eq_dec (reader_ref_count_ c) 0) as [Hz | Hnz].
  - rewrite (FinishWriting_no_readers c Hz).
    repeat split; auto; intros; try contradiction; try assumption.
  - rewrite (FinishWriting_with_readers c Hnz).
    repeat split; auto; intros; try contradiction.
Qed.

(** A second FinishWriting is one more Compress of the finished chunk.
    With Compress "overwriting the previous snapshot" at each call, it
    leaves the chunk as the first call left it exactly when readers were
    attached at the first call (the region was kept) or the region was
    empty to begin with; with no reader the snapshot is taken anew from
    the released, empty region, all other members staying as they were. *)
Lemma FinishWriting_twice (c : SerializedLogChunk) :
  FinishWriting (FinishWriting c) =
    with_compressed_log (compress (contents_ (FinishWriting c)))
      (FinishWriting c) /\
  (FinishWriting (FinishWriting c) = FinishWriting c <->
   reader_ref_count_ c <> 0 \/ contents_ c = []) /\
  (reader_ref_count_ c = 0 ->
   compressed_log_ (FinishWriting (FinishWriting c)) = compress []).
Proof.
  destruct (Z.eq_dec (reader_ref_count_ c) 0) as [Hz | Hnz].
  - rewrite (FinishWriting_no_readers c Hz).
    rewrite FinishWriting_no_readers by exact Hz.
    split; [reflexivity|]. split; [|reflexivity].
    split.
    + intros H. right.
      apply (f_equal compressed_log_) in H. cbn in H.
      symmetry. now apply compress_injective.
    + intros [H | H]; [contradiction|].
      unfold Compress, with_contents, with_compressed_log,
        with_writer_active. cbn. now rewrite H.
  - rewrite (FinishWriting_with_readers c Hnz).
    rewrite FinishWriting_with_readers by exact Hnz.
    split; [reflexivity|]. split; [|intros; contradiction].
    split; [intros _; now left | intros _; reflexivity].
Qed.

(** C6, as the code has it.  log_entry is fatal when the writer is
    inactive and no reader is counted.  With an active writer or a reader
    counted its CHECK passes and it returns the address of the
    decompressed region advanced by the offset, whatever the offset and
    whatever the region: that address designates a byte of the region,
    the byte of that index, exactly when the offset is at least 0 and
    below the size of the region. *)
Theorem log_entry_checks_state_only (offset : Z) (c : SerializedLogChunk) :
  (writer_active_ c = false /\ reader_ref_count_ c = 0 ->
   log_entry offset c = Fatal) /\
  (writer_active_ c = true \/ 0 < reader_ref_count_ c ->
   log_entry offset c = Ok (ContentsPtr offset) /\
   ((exists b, load c (ContentsPtr offset) = Some b) <->
    0 <= offset < size (contents_ c)) /\
   (forall b, load c (ContentsPtr offset) = Some b ->
              nth_error (contents_ c) (Z.to_nat offset) = Some b)).
Proof.
  unfold log_entry. split.
  - intros [Hw Hr]. now rewrite Hw, Hr.
  - intros H.
    assert (Hc : writer_active_ c || (0 <? reader_ref_count_ c) = true).
    { destruct H as [H | H]; [now rewrite H|].
      apply Z.ltb_lt in H. rewrite H. apply orb_true_r. }
    rewrite Hc. split; [reflexivity|]. unfold load. split.
    + split.
      * intros [b Hb].
        destruct (offset <? 0) eqn:E; [discriminate|].
        apply Z.ltb_ge in E. split; [exact E|].
        assert (Hn : nth_error (contents_ c) (Z.to_nat offset) <> None)
          by (rewrite Hb; discriminate).
        apply nth_error_Some in Hn. unfold size. lia.
      * intros [Hlo Hhi].
        destruct (offset <? 0) eqn:E; [apply Z.ltb_lt in E; lia|].
        destruct (nth_error (contents_ c) (Z.to_nat offset)) as [b|] eqn:N.
        -- now exists b.
        -- apply nth_error_None in N. unfold size in Hhi. lia.
    + intros b. destruct (offset <? 0); [discriminate | trivial].
Qed.

(** C8.  Compress followed by the decompression step gives back the
    decompressed region byte for byte, whatever the region holds and
    whatever has become of the region in between (released, or overwritten
    by any bytes [d]): the region is rebuilt from the snapshot alone, and
    no other member is touched. *)
Theorem Compress_Decompress_round_trip (c : SerializedLogChunk) :
  Decompress (Compress c) = Ok (Compress c) /\
  contents_ (Compress c) = contents_ c /\
  (forall d : SerializedData,
     exists c',
       Decompress (with_contents d (Compress c)) = Ok c' /\
       contents_ c' = contents_ c /\
       c' = Compress c).
Proof.
  assert (H : forall d,
             Decompress (with_contents d (Compress c)) = Ok (Compress c)).
  { intros d. unfold Decompress. chunk_simpl.
    rewrite decompress_compress. reflexivity. }
  split; [|split; [reflexivity|]].
  - unfold Decompress. chunk_simpl. rewrite decompress_compress.
    destruct c; reflexivity.
  - intros d. exists (Compress c). split; [apply H | split; reflexivity].
Qed.

(** After a release, the first attach brings the very same region back. *)
Lemma release_then_attach (r : reader) (c : SerializedLogChunk) :
  reader_ref_count_ c = 0 ->
  exists c',
    AttachReader r (FinishWriting c) = Ok c' /\
    contents_ c' = contents_ c /\
    reader_ref_count_ c' = 1.
Proof.
  intros Hz. rewrite (FinishWriting_no_readers c Hz).
  unfold AttachReader, IncReaderRefCount, resident, Decompress.
  cbn. rewrite Hz. cbn. rewrite decompress_compress. cbn.
  eexists. repeat split.
Qed.

End ChunkFacts.

(* ================================================================== *)
(** * The writer flag *)

Section WriterFlag.

Context {engine : CompressionEngine}.

Lemma Decompress_writer_active (c c' : SerializedLogChunk) :
  Decompress c = Ok c' -> writer_active_ c' = writer_active_ c.
Proof.
  unfold Decompress. destruct (decompress (compressed_log_ c));
    intros H; inversion H; reflexivity.
Qed.

Lemma IncReaderRefCount_writer_active (c c' : SerializedLogChunk) :
  IncReaderRefCount c = Ok c' -> writer_active_ c' = writer_active_ c.
Proof.
  unfold IncReaderRefCount.
  destruct (resident _); intros H.
  - inversion H; reflexivity.
  - apply Decompress_writer_active in H. exact H.
Qed.

Lemma DecReaderRefCount_writer_active (c c' : SerializedLogChunk) :
  DecReaderRefCount c = Ok c' -> writer_active_ c' = writer_active_ c.
Proof.
  unfold DecReaderRefCount.
  destruct (reader_ref_count_ c =? 0); [discriminate|].
  destruct (_ && _); intros H; inversion H; reflexivity.
Qed.

Lemma Log_writer_active sequence realtime uid pid tid msg
    (c c' : SerializedLogChunk) (p : pointer) :
  Log sequence realtime uid pid tid msg c = Ok (c', p) ->
  writer_active_ c = true /\ writer_active_ c' = true.
Proof.
  unfold Log. destruct (writer_active_ c) eqn:W; [|discriminate].
  destruct (CanLog _ c); [|discriminate].
  intros H. apply Ok_inj in H. apply (f_equal fst) in H.
  cbn [fst] in H. subst c'. split; [reflexivity | exact W].
Qed.

Lemma ClearUidLogs_writer_active uid log_id
    (c c' : SerializedLogChunk) (empty : bool) :
  ClearUidLogs uid log_id c = Ok (c', empty) ->
  writer_active_ c' = writer_active_ c.
Proof.
  unfold ClearUidLogs. destruct (reader_ref_count_ c =? 0); [|discriminate].
  assert (Hk : forall c0 : SerializedLogChunk,
             writer_active_ c0 = writer_active_ c ->
             forall (d : SerializedData) (n : Z) (b : bool),
               Ok (if writer_active_
                        (with_compressed_log []
                           (with_write_offset n (with_contents d c0)))
                   then with_compressed_log []
                          (with_write_offset n (with_contents d c0))
                   else with_contents
                          (Resize 0
                             (contents_
                                (with_compressed_log []
                                   (with_write_offset n
                                      (with_contents d c0)))))
                          (Compress
                             (with_compressed_log []
                                (with_write_offset n (with_contents d c0)))),
                   b) = Ok (c', empty) ->
               writer_active_ c' = writer_active_ c).
  { intros c0 Hw d n b H. apply Ok_inj in H. apply (f_equal fst) in H.
    cbn [fst] in H. subst c'. chunk_simpl.
    destruct (writer_active_ c0) eqn:W; chunk_simpl; congruence. }
  destruct (writer_active_ c || resident c).
  - cbn [bind]. apply Hk. reflexivity.
  - unfold Decompress. destruct (decompress (compressed_log_ c)) as [d|];
      [|discriminate].
    cbn [bind]. apply Hk. reflexivity.
Qed.

(** Only FinishWriting writes the flag, and it writes false. *)
Lemma step_writer_active (o : op) (c c' : SerializedLogChunk) :
  step o c = Ok c' ->
  writer_active_ c' = writer_active_ c \/
  (o = OpFinishWriting /\ writer_active_ c' = false).
Proof.
  destruct o; cbn [step]; intros H.
  - destruct (Log _ _ _ _ _ _ c) as [[c1 p]|] eqn:L; [|discriminate].
    cbn in H. inversion H; subst.
    apply Log_writer_active in L as [-> ->]. now left.
  - inversion H; subst. right. split; [reflexivity|].
    unfold FinishWriting. destruct (_ =? 0); reflexivity.
  - unfold AttachReader in H.
    destruct (IncReaderRefCount c) as [c1|] eqn:I; [|discriminate].
    cbn in H. inversion H; subst. left. cbn.
    now apply IncReaderRefCount_writer_active.
  - unfold DetachReader in H. destruct (existsb _ _); [|discriminate].
    left. now apply DecReaderRefCount_writer_active in H.
  - left. now apply IncReaderRefCount_writer_active.
  - left. now apply DecReaderRefCount_writer_active.
  - inversion H; subst. now left.
  - destruct (ClearUidLogs _ _ c) as [[c1 e]|] eqn:L; [|discriminate].
    cbn in H. inversion H; subst. left.
    now apply ClearUidLogs_writer_active in L.
  - inversion H; subst. now left.
Qed.

Lemma run_writer_inactive (ops : list op) (c c' : SerializedLogChunk) :
  writer_active_ c = false -> run ops c = Ok c' -> writer_active_ c' = false.
Proof.
  revert c. induction ops as [|o ops IH]; intros c Hw H.
  - inversion H; subst. exact Hw.
  - cbn [run] in H. destruct (step o c) as [c1|] eqn:S; [|discriminate].
    cbn in H. apply (IH c1); [|exact H].
    destruct (step_writer_active o c c1 S) as [E | [_ E]]; congruence.
Qed.

(** C7.  A chunk is built with the writer active.  Once the writer is
    inactive, no sequence of calls (appends, attaches, detaches,
    compressions, prunes, notifications, further finishes) that returns
    makes it active again; and the only call that changes the flag at all
    is FinishWriting. *)
Theorem writer_active_one_way (size : Z) (ops : list op)
    (c c' : SerializedLogChunk) :
  writer_active_ c = false ->
  run ops c = Ok c' ->
  writer_active_ (SerializedLogChunk_new size) = true /\
  writer_active_ c' = false /\
  (forall o c1 c2, step o c1 = Ok c2 ->
     writer_active_ c2 <> writer_active_ c1 -> o = OpFinishWriting).
Proof.
  intros Hw H. split; [reflexivity|]. split.
  - exact (run_writer_inactive ops c c' Hw H).
  - intros o c1 c2 S Hne.
    destruct (step_writer_active o c1 c2 S) as [E | [E _]];
      [contradiction | exact E].
Qed.

End WriterFlag.

(* ================================================================== *)
(** * Scanning the entries of a region *)

Lemma slice_firstn {A} (off n m : nat) (l : list A) :
  (off + n <= m)%nat -> slice off n (firstn m l) = slice off n l.
Proof.
  intros H. unfold slice. rewrite skipn_firstn_comm, firstn_firstn.
  f_equal. lia.
Qed.

Lemma slice_app {A} (off n : nat) (a b : list A) :
  (off + n <= length a)%nat -> slice off n (a ++ b) = slice off n a.
Proof.
  intros H. unfold slice. rewrite skipn_app, firstn_app, length_skipn.
  replace (n - (length a - off))%nat with 0%nat by lia.
  cbn [firstn]. apply app_nil_r.
Qed.

Lemma total_len_firstn (m : nat) (region : list byte) :
  (header_size <= m)%nat -> total_len (firstn m region) = total_len region.
Proof.
  intros H. unfold total_len, entry_msg_len, header_size in *.
  rewrite slice_firstn by lia. reflexivity.
Qed.

Lemma total_len_app (block rest : list byte) :
  (header_size <= length block)%nat ->
  total_len (block ++ rest) = total_len block.
Proof.
  intros H. unfold total_len, entry_msg_len, header_size in *.
  rewrite slice_app by lia. reflexivity.
Qed.

Lemma entry_uid_app (block rest : list byte) :
  (header_size <= length block)%nat ->
  entry_uid (block ++ rest) = entry_uid block.
Proof.
  intros H. unfold entry_uid, header_size in *. rewrite slice_app by lia.
  reflexivity.
Qed.

Lemma header_le_total_len (region : list byte) :
  (header_size <= total_len region)%nat.
Proof. unfold total_len. lia. Qed.

Lemma scan_blocks_equation (fuel : nat) (region : list byte) :
  scan_blocks (S fuel) region =
  if (length region <? header_size)%nat then []
  else if (length region <? total_len region)%nat then []
  else firstn (total_len region) region
       :: scan_blocks fuel (skipn (total_len region) region).
Proof. reflexivity. Qed.

(** Every block the scan yields is one whole entry. *)
Lemma scan_blocks_whole (fuel : nat) (region : list byte) :
  Forall whole_entry (scan_blocks fuel region).
Proof.
  revert region. induction fuel as [|fuel IH]; intros region.
  - constructor.
  - rewrite scan_blocks_equation.
    destruct (length region <? header_size)%nat eqn:H1; [constructor|].
    destruct (length region <? total_len region)%nat eqn:H2; [constructor|].
    apply Nat.ltb_ge in H1, H2. constructor; [|apply IH].
    pose proof (header_le_total_len region) as Hh.
    unfold whole_entry. rewrite total_len_firstn by exact Hh.
    rewrite length_firstn. lia.
Qed.

(** Whole entries laid back to back scan to themselves. *)
Lemma scan_blocks_concat (bs : list (list byte)) (fuel : nat) :
  Forall whole_entry bs ->
  (length bs <= fuel)%nat ->
  scan_blocks fuel (concat bs) = bs.
Proof.
  intros Hbs. revert fuel.
  induction Hbs as [|b bs [Hh Hl] _ IH]; intros fuel Hfuel.
  - destruct fuel; reflexivity.
  - destruct fuel as [|fuel]; [simpl in Hfuel; lia|].
    rewrite scan_blocks_equation. cbn [concat].
    rewrite total_len_app by exact Hh. rewrite <- Hl.
    rewrite length_app.
    replace (length b + length (concat bs) <? header_size)%nat with false
      by (symmetry; apply Nat.ltb_ge; lia).
    replace (length b + length (concat bs) <? length b)%nat with false
      by (symmetry; apply Nat.ltb_ge; lia).
    rewrite firstn_app, Nat.sub_diag, firstn_all. cbn [firstn].
    rewrite app_nil_r.
    rewrite skipn_app, Nat.sub_diag, skipn_all. cbn [skipn app].
    rewrite IH by (simpl in Hfuel; lia). reflexivity.
Qed.

Lemma length_concat_whole (bs : list (list byte)) :
  Forall whole_entry bs ->
  (length bs * header_size <= length (concat bs))%nat.
Proof.
  induction 1 as [|b bs [Hh _] _ IH]; [simpl; lia|].
  cbn [concat length]. rewrite length_app. lia.
Qed.

Lemma blocks_of_concat (bs : list (list byte)) :
  Forall whole_entry bs -> blocks_of (concat bs) = bs.
Proof.
  intros H. unfold blocks_of. apply scan_blocks_concat; [exact H|].
  pose proof (length_concat_whole bs H). unfold header_size in *. lia.
Qed.

Lemma Forall_filter {A} (P : A -> Prop) (f : A -> bool) (l : list A) :
  Forall P l -> Forall P (filter f l).
Proof.
  induction 1 as [|x l Hx _ IH]; [constructor|].
  cbn [filter]. destruct (f x); [constructor|]; assumption.
Qed.

Lemma filter_map_comm {A B} (f : A -> B) (p : B -> bool) (l : list A) :
  filter p (map f l) = map f (filter (fun a => p (f a)) l).
Proof.
  induction l as [|x l IH]; [reflexivity|].
  cbn [map filter]. destruct (p (f x)); cbn [map]; now rewrite IH.
Qed.

Lemma Forall_filter_holds {A} (f : A -> bool) (l : list A) :
  Forall (fun a => f a = true) (filter f l).
Proof.
  induction l as [|x l IH]; [constructor|].
  cbn [filter]. destruct (f x) eqn:E; [constructor|]; assumption.
Qed.

(* ================================================================== *)
(** * Pruning *)

Section Pruning.

Context {engine : CompressionEngine}.

Lemma firstn_whole_prefix {A} (l tail : list A) :
  firstn (length l) (l ++ tail) = l.
Proof.
  rewrite firstn_app, Nat.sub_diag, firstn_all. cbn [firstn].
  apply app_nil_r.
Qed.

(** Where the region a reader gets comes from. *)
Lemma readable_region_cases (c : SerializedLogChunk) :
  content_available c ->
  (writer_active_ c || resident c = true /\
   readable_region c = contents_ c) \/
  (writer_active_ c || resident c = false /\
   exists d, decompress (compressed_log_ c) = Some d /\
             readable_region c = d).
Proof.
  intros Ha. unfold readable_region.
  destruct (writer_active_ c || resident c) eqn:E.
  - left. now split.
  - right. split; [reflexivity|].
    apply orb_false_iff in E as [Ew Er].
    destruct Ha as [H | [H | [d Hd]]]; [congruence | congruence |].
    exists d. rewrite Hd. now split.
Qed.

(** The chunk a prune leaves: the kept blocks compacted at the start of
    the region a reader gets, the cursor behind them, and for a finished
    chunk the region released over a snapshot taken anew. *)
Lemma ClearUidLogs_result (x log_id : Z) (c : SerializedLogChunk) :
  reader_ref_count_ c = 0 ->
  content_available c ->
  let kept := filter (fun b => negb (entry_uid b =? x)) (blocks c) in
  exists c',
    ClearUidLogs x log_id c = Ok (c', (length (concat kept) =? 0)%nat) /\
    readable_region c' =
      concat kept ++ skipn (length (concat kept)) (readable_region c) /\
    write_offset_ c' = Z.of_nat (length (concat kept)) /\
    reader_ref_count_ c' = 0 /\
    writer_active_ c' = writer_active_ c /\
    content_available c' /\
    (writer_active_ c = false ->
     contents_ c' = [] /\
     decompress (compressed_log_ c') = Some (readable_region c')).
Proof.
  intros Hz Ha. cbv zeta. unfold ClearUidLogs, blocks. rewrite Hz.
  cbn [Z.eqb].
  destruct (readable_region_cases c Ha) as [[E R] | [E (d & Hd & R)]];
    rewrite E, R.
  - cbn [bind]. chunk_simpl.
    set (kept := filter (fun b => negb (entry_uid b =? x))
                   (blocks_of (firstn (Z.to_nat (write_offset_ c))
                                 (contents_ c)))).
    destruct (writer_active_ c) eqn:W.
    + eexists. split; [reflexivity|].
      unfold readable_region, content_available. chunk_simpl.
      rewrite W. cbn [orb].
      split; [reflexivity|]. split; [reflexivity|]. split; [exact Hz|].
      split; [reflexivity|]. split; [now left|]. discriminate.
    + eexists. split; [reflexivity|].
      unfold readable_region, content_available, resident. chunk_simpl.
      rewrite W, decompress_compress. cbn.
      split; [reflexivity|]. split; [reflexivity|]. split; [exact Hz|].
      split; [reflexivity|]. split.
      * right. right. eexists. reflexivity.
      * intros _. split; reflexivity.
  - apply orb_false_iff in E as [W _].
    unfold Decompress. rewrite Hd. cbn [bind]. chunk_simpl.
    set (kept := filter (fun b => negb (entry_uid b =? x))
                   (blocks_of (firstn (Z.to_nat (write_offset_ c)) d))).
    rewrite W. eexists. split; [reflexivity|].
    unfold readable_region, content_available, resident. chunk_simpl.
    rewrite W, decompress_compress. cbn.
    split; [reflexivity|]. split; [reflexivity|]. split; [exact Hz|].
    split; [reflexivity|]. split.
    + right. right. eexists. reflexivity.
    + intros _. split; reflexivity.
Qed.

(** Without a readable content the prune is fatal at the decompression
    step. *)
Lemma ClearUidLogs_unavailable (x log_id : Z) (c : SerializedLogChunk) :
  reader_ref_count_ c = 0 ->
  ~ content_available c ->
  ClearUidLogs x log_id c = Fatal.
Proof.
  intros Hz Hn. unfold ClearUidLogs. rewrite Hz. cbn [Z.eqb].
  unfold content_available in Hn.
  destruct (writer_active_ c) eqn:W; [exfalso; apply Hn; now left|].
  destruct (resident c) eqn:R; [exfalso; apply Hn; right; now left|].
  cbn [orb]. unfold Decompress.
  destruct (decompress (compressed_log_ c)) as [d|] eqn:D; [|reflexivity].
  exfalso. apply Hn. right. right. now exists d.
Qed.

(** With a reader counted the prune is refused. *)
Lemma ClearUidLogs_refused (x log_id : Z) (c : SerializedLogChunk) :
  reader_ref_count_ c <> 0 -> ClearUidLogs x log_id c = Fatal.
Proof.
  intros H. unfold ClearUidLogs. apply Z.eqb_neq in H. now rewrite H.
Qed.

Lemma IncReaderRefCount_compressed_log (c c' : SerializedLogChunk) :
  IncReaderRefCount c = Ok c' -> compressed_log_ c' = compressed_log_ c.
Proof.
  unfold IncReaderRefCount, Decompress. destruct (resident _).
  - intros H. apply Ok_inj in H. now subst c'.
  - chunk_simpl. destruct (decompress (compressed_log_ c)); [|discriminate].
    intros H. apply Ok_inj in H. now subst c'.
Qed.

Lemma DecReaderRefCount_compressed_log (c c' : SerializedLogChunk) :
  DecReaderRefCount c = Ok c' -> compressed_log_ c' = compressed_log_ c.
Proof.
  unfold DecReaderRefCount.
  destruct (reader_ref_count_ c =? 0); [discriminate|].
  destruct (_ && _); intros H; apply Ok_inj in H; now subst c'.
Qed.

(** Every call that returns leaves a chunk that is still written or
    holds a snapshot that decompresses. *)
Lemma step_keeps_content (o : op) (c c' : SerializedLogChunk) :
  writer_active_ c = true \/
  (exists d, decompress (compressed_log_ c) = Some d) ->
  step o c = Ok c' ->
  writer_active_ c' = true \/
  (exists d, decompress (compressed_log_ c') = Some d).
Proof.
  intros Hc H.
  assert (Hframe : writer_active_ c' = writer_active_ c ->
                   compressed_log_ c' = compressed_log_ c ->
                   writer_active_ c' = true \/
                   (exists d, decompress (compressed_log_ c') = Some d)).
  { intros -> ->. exact Hc. }
  destruct o as [s t u q i m | | r | r | | | | x l | l]; cbn [step] in H.
  - destruct (Log _ _ _ _ _ _ c) as [[c1 p]|] eqn:L; [|discriminate].
    cbn [bind fst] in H. apply Ok_inj in H. subst c1.
    left. now apply Log_writer_active in L.
  - apply Ok_inj in H. subst c'. right. exists (contents_ c).
    unfold FinishWriting. chunk_simpl.
    destruct (reader_ref_count_ c =? 0); chunk_simpl;
      apply decompress_compress.
  - unfold AttachReader in H.
    destruct (IncReaderRefCount c) as [c1|] eqn:I; [|discriminate].
    cbn [bind] in H. apply Ok_inj in H. subst c'. chunk_simpl.
    apply Hframe; chunk_simpl.
    + now apply IncReaderRefCount_writer_active.
    + now apply IncReaderRefCount_compressed_log.
  - unfold DetachReader in H. destruct (existsb _ _); [|discriminate].
    apply Hframe.
    + now apply DecReaderRefCount_writer_active in H.
    + now apply DecReaderRefCount_compressed_log in H.
  - apply Hframe.
    + now apply IncReaderRefCount_writer_active.
    + now apply IncReaderRefCount_compressed_log.
  - apply Hframe.
    + now apply DecReaderRefCount_writer_active.
    + now apply DecReaderRefCount_compressed_log.
  - apply Ok_inj in H. subst c'. right. exists (contents_ c).
    chunk_simpl. apply decompress_compress.
  - destruct (ClearUidLogs _ _ c) as [[c1 e]|] eqn:L; [|discriminate].
    cbn [bind fst] in H. apply Ok_inj in H. subst c1.
    assert (Hz : reader_ref_count_ c = 0).
    { destruct (Z.eq_dec (reader_ref_count_ c) 0) as [E | E]; [exact E|].
      rewrite (ClearUidLogs_refused _ _ c E) in L. discriminate. }
    assert (Ha : content_available c).
    { destruct Hc as [W | D]; [now left | right; now right]. }
    destruct (ClearUidLogs_result x l c Hz Ha)
      as (c1 & Hrun & _ & _ & _ & Hw & _ & Hrel).
    rewrite Hrun in L. apply Ok_inj in L. apply (f_equal fst) in L.
    cbn [fst] in L. subst c1.
    destruct (writer_active_ c) eqn:W; [now left | right].
    destruct (Hrel eq_refl) as [_ Hd]. eexists. exact Hd.
  - apply Ok_inj in H. now subst c'.
Qed.

(** The content of every chunk the calls can build is readable. *)
Lemma run_content_available (size : Z) (ops : list op)
    (c : SerializedLogChunk) :
  run ops (SerializedLogChunk_new size) = Ok c -> content_available c.
Proof.
  intros H.
  assert (Hc : writer_active_ c = true \/
               (exists d, decompress (compressed_log_ c) = Some d)).
  { assert (H0 : writer_active_ (SerializedLogChunk_new size) = true \/
                 (exists d, decompress
                              (compressed_log_ (SerializedLogChunk_new size))
                            = Some d)) by now left.
    revert H0 H. generalize (SerializedLogChunk_new size).
    induction ops as [|o ops IH]; intros c0 H0 H.
    - apply Ok_inj in H. now subst c.
    - cbn [run] in H. destruct (step o c0) as [c1|] eqn:S; [|discriminate].
      cbn [bind] in H. apply (IH c1); [|exact H].
      exact (step_keeps_content o c0 c1 H0 S). }
  destruct Hc as [W | D]; [now left | right; now right].
Qed.

(** What a prune leaves, on a chunk whose content can be read. *)
Lemma ClearUidLogs_entries (x log_id : Z) (c : SerializedLogChunk) :
  reader_ref_count_ c = 0 ->
  content_available c ->
  exists c' empty,
    ClearUidLogs x log_id c = Ok (c', empty) /\
    Forall (fun e => uid e <> x) (entries c') /\
    entries c' = filter (fun e => negb (uid e =? x)) (entries c) /\
    (empty = true <-> entries c' = []) /\
    reader_ref_count_ c' = 0 /\
    writer_active_ c' = writer_active_ c /\
    content_available c'.
Proof.
  intros Hz Ha.
  destruct (ClearUidLogs_result x log_id c Hz Ha)
    as (c' & Hrun & Hreg & Hoff & Hrc & Hw & Ha' & _).
  set (kept := filter (fun b => negb (entry_uid b =? x)) (blocks c)) in *.
  assert (Hkept : Forall whole_entry kept).
  { apply Forall_filter. apply scan_blocks_whole. }
  assert (Hblocks : blocks c' = kept).
  { unfold blocks at 1. rewrite Hreg, Hoff, Nat2Z.id, firstn_whole_prefix.
    now apply blocks_of_concat. }
  assert (Hentries :
    entries c' = filter (fun e => negb (uid e =? x)) (entries c)).
  { unfold entries at 1. rewrite Hblocks. unfold entries.
    rewrite filter_map_comm. reflexivity. }
  exists c', (length (concat kept) =? 0)%nat.
  split; [exact Hrun|].
  split; [|split; [exact Hentries|split; [|now repeat split]]].
  - rewrite Hentries.
    eapply Forall_impl; [|apply Forall_filter_holds].
    intros e He. cbn beta in He. apply negb_true_iff, Z.eqb_neq in He.
    exact He.
  - unfold entries at 1. rewrite Hblocks.
    pose proof (length_concat_whole kept Hkept) as Hlen.
    unfold header_size in Hlen. clearbody kept. split.
    + intros He. apply Nat.eqb_eq in He.
      destruct kept as [|b bs]; [reflexivity|].
      cbn [length] in Hlen. lia.
    + intros He. apply map_eq_nil in He. rewrite He. reflexivity.
Qed.

(** C9.  A prune on a chunk with no reader counted returns whenever the
    content of the chunk can be read: the chunk is still written, its
    region is resident, or its region was released over a snapshot that
    decompresses; every chunk that calls on a fresh chunk can build is in
    that case.  In the chunk it leaves, no entry has the given uid, the
    entries are those of before with another uid, in their order, and the
    flag it returns is true exactly when no entry is left; the chunk still
    has no reader, its writer flag is unchanged and its content can still
    be read.  A chunk whose content cannot be read (released, and no
    snapshot that decompresses) makes the prune fatal. *)
Theorem ClearUidLogs_prunes (x log_id : Z) (c : SerializedLogChunk) :
  reader_ref_count_ c = 0 ->
  (content_available c ->
   exists c' empty,
     ClearUidLogs x log_id c = Ok (c', empty) /\
     Forall (fun e => uid e <> x) (entries c') /\
     entries c' = filter (fun e => negb (uid e =? x)) (entries c) /\
     (empty = true <-> entries c' = []) /\
     reader_ref_count_ c' = 0 /\
     writer_active_ c' = writer_active_ c /\
     content_available c') /\
  (~ content_available c -> ClearUidLogs x log_id c = Fatal) /\
  (forall size ops,
     run ops (SerializedLogChunk_new size) = Ok c -> content_available c).
Proof.
  intros Hz. split; [|split].
  - now apply ClearUidLogs_entries.
  - now apply ClearUidLogs_unavailable.
  - intros size ops. apply run_content_available.
Qed.

(** After the prune of a finished chunk, the next reader attaches and
    finds the entries the prune left. *)
Lemma prune_then_attach (x log_id : Z) (r : reader)
    (c : SerializedLogChunk) :
  reader_ref_count_ c = 0 ->
  writer_active_ c = false ->
  content_available c ->
  exists c' empty c'',
    ClearUidLogs x log_id c = Ok (c', empty) /\
    AttachReader r c' = Ok c'' /\
    contents_ c'' = readable_region c' /\
    entries c'' = filter (fun e => negb (uid e =? x)) (entries c) /\
    reader_ref_count_ c'' = 1.
Proof.
  intros Hz W Ha.
  destruct (ClearUidLogs_result x log_id c Hz Ha)
    as (c' & Hrun & Hreg & Hoff & Hrc & Hw & Ha' & Hrel).
  destruct (Hrel W) as [Hc Hd].
  destruct (ClearUidLogs_entries x log_id c Hz Ha)
    as (c1 & e1 & Hrun1 & _ & Hentries & _).
  rewrite Hrun in Hrun1. apply Ok_inj in Hrun1.
  apply (f_equal fst) in Hrun1. cbn [fst] in Hrun1. subst c1.
  rewrite <- Hentries. clear Hentries Hreg Hoff Hrel Ha'.
  rewrite W in Hw.
  remember (readable_region c') as R eqn:ER.
  exists c'. eexists. eexists. split; [exact Hrun|].
  unfold AttachReader, IncReaderRefCount, Decompress.
  assert (Hres : resident (with_reader_ref_count (uint32_t (reader_ref_count_ c' + 1)) c') = false).
  { unfold resident. chunk_simpl. rewrite Hc. reflexivity. }
  rewrite Hres. chunk_simpl. rewrite Hd. cbn [bind].
  split; [reflexivity|]. chunk_simpl. split; [exact ER|].
  split; [|rewrite Hrc; reflexivity].
  unfold entries, blocks. chunk_simpl. rewrite <- ER. f_equal. f_equal.
  f_equal.
  unfold readable_region. chunk_simpl. rewrite Hw, Hd. cbn [orb].
  clear Hres.
  match goal with |- context [if ?b then _ else _] => destruct b end;
    reflexivity.
Qed.
End Pruning.

(* ================================================================== *)
(** * Residency *)

Lemma length_encode_entry (e : SerializedLogEntry) :
  length (encode_entry e) = (header_size + length (msg e))%nat.
Proof.
  unfold encode_entry, header_size.
  rewrite !length_app, !length_le_bytes. lia.
Qed.

Lemma length_write_at (pos : nat) (block region : list byte) :
  (pos + length block <= length region)%nat ->
  length (write_at pos block region) = length region.
Proof.
  intros H. unfold write_at.
  rewrite !length_app, length_firstn, length_skipn. lia.
Qed.

Lemma uint32_t_small (v : Z) : 0 <= v < 2 ^ 32 -> uint32_t v = v.
Proof. intros H. unfold uint32_t, wrap. now apply Z.mod_small. Qed.


Section Residency.

Context {engine : CompressionEngine}.

Variable cap : Z.
Hypothesis cap_positive : 0 < cap.

Lemma fresh_lifecycle_invariant :
  lifecycle_invariant cap (SerializedLogChunk_new cap).
Proof.
  unfold lifecycle_invariant, SerializedLogChunk_new. chunk_simpl.
  rewrite size_sized by lia. lia.
Qed.

Lemma invariant_resident (c : SerializedLogChunk) :
  lifecycle_invariant cap c ->
  resident c = (writer_active_ c || negb (reader_ref_count_ c =? 0)).
Proof.
  intros (Ho & Hr & Hs). unfold resident.
  destruct (writer_active_ c).
  - rewrite Hs. cbn [orb].
    replace (cap =? 0) with false by (symmetry; apply Z.eqb_neq; lia).
    cbn [negb andb]. apply Z.leb_le. lia.
  - cbn [orb]. destruct (reader_ref_count_ c =? 0).
    + destruct Hs as [-> _]. reflexivity.
    + destruct Hs as [-> _].
      replace (cap =? 0) with false by (symmetry; apply Z.eqb_neq; lia).
      cbn [negb andb]. apply Z.leb_le. lia.
Qed.

Lemma invariant_residency (c : SerializedLogChunk) :
  lifecycle_invariant cap c -> residency_invariant c.
Proof.
  intros H. unfold residency_invariant. rewrite (invariant_resident c H).
  destruct H as (_ & Hr & _).
  rewrite orb_true_iff, negb_true_iff, Z.eqb_neq. split.
  - intros [Hw | Hn]; [now left | right; lia].
  - intros [Hw | Hn]; [now left | right; lia].
Qed.

Lemma with_readers_invariant (rs : list reader) (c : SerializedLogChunk) :
  lifecycle_invariant cap c -> lifecycle_invariant cap (with_readers rs c).
Proof. intros H. exact H. Qed.

Lemma IncReaderRefCount_invariant (c c' : SerializedLogChunk) :
  lifecycle_invariant cap c ->
  writer_active_ c = true \/ reader_ref_count_ c <> 2 ^ 32 - 1 ->
  IncReaderRefCount c = Ok c' ->
  lifecycle_invariant cap c'.
Proof.
  intros Hinv Hfit H. pose proof (invariant_resident c Hinv) as Hres.
  destruct Hinv as (Ho & Hr & Hs).
  unfold IncReaderRefCount in H.
  change (resident (with_reader_ref_count
                      (uint32_t (reader_ref_count_ c + 1)) c))
    with (resident c) in H.
  rewrite Hres in H.
  assert (Hrange : 0 <= uint32_t (reader_ref_count_ c + 1) < 2 ^ 32).
  { unfold uint32_t, wrap. apply Z.mod_pos_bound. lia. }
  destruct (writer_active_ c) eqn:W.
  - cbn [orb] in H. apply Ok_inj in H. subst c'.
    unfold lifecycle_invariant. chunk_simpl. rewrite W.
    split; [exact Ho | split; [exact Hrange | exact Hs]].
  - destruct Hfit as [Hfit | Hfit]; [discriminate|].
    rewrite uint32_t_small in H by lia.
    assert (Hnz : (reader_ref_count_ c + 1 =? 0) = false)
      by (apply Z.eqb_neq; lia).
    cbn [orb] in H. destruct (reader_ref_count_ c =? 0) eqn:Z0.
    + cbn [negb] in H. unfold Decompress in H. chunk_simpl.
      destruct Hs as (_ & d & Hd & Hsz). rewrite Hd in H.
      apply Ok_inj in H. subst c'.
      unfold lifecycle_invariant. chunk_simpl. rewrite W, Hnz.
      repeat split; try lia; assumption.
    + cbn [negb] in H. apply Ok_inj in H. subst c'.
      unfold lifecycle_invariant. chunk_simpl. rewrite W, Hnz.
      repeat split; try lia; apply Hs.
Qed.

Lemma DecReaderRefCount_invariant (c c' : SerializedLogChunk) :
  lifecycle_invariant cap c ->
  DecReaderRefCount c = Ok c' ->
  lifecycle_invariant cap c'.
Proof.
  intros (Ho & Hr & Hs) H. unfold DecReaderRefCount in H.
  destruct (reader_ref_count_ c =? 0) eqn:Z0; [discriminate|].
  apply Z.eqb_neq in Z0.
  rewrite uint32_t_small in H by lia. chunk_simpl.
  destruct (writer_active_ c) eqn:W.
  - rewrite andb_false_r in H. apply Ok_inj in H. subst c'.
    unfold lifecycle_invariant. chunk_simpl. rewrite W.
    repeat split; try lia.
  - rewrite andb_true_r in H. destruct Hs as [Hsz Hd].
    destruct (reader_ref_count_ c - 1 =? 0) eqn:Z1;
      apply Ok_inj in H; subst c';
      unfold lifecycle_invariant; chunk_simpl; rewrite W, Z1.
    + repeat split; try lia. exists (contents_ c). now split.
    + repeat split; try lia; assumption.
Qed.

(** FinishWriting on a chunk whose region is held, for the first time or
    again under a reader, keeps the chunk whole. *)
Lemma FinishWriting_invariant (c : SerializedLogChunk) :
  lifecycle_invariant cap c ->
  writer_active_ c = true \/ reader_ref_count_ c <> 0 ->
  lifecycle_invariant cap (FinishWriting c).
Proof.
  intros (Ho & Hr & Hs) Hheld.
  destruct (reader_ref_count_ c =? 0) eqn:Z0.
  - apply Z.eqb_eq in Z0. destruct Hheld as [W | Hnz]; [|contradiction].
    rewrite W in Hs.
    rewrite FinishWriting_no_readers by exact Z0.
    unfold lifecycle_invariant. chunk_simpl. rewrite Z0. cbn [Z.eqb].
    repeat split; try lia.
    exists (contents_ c). split; [apply decompress_compress | exact Hs].
  - assert (Hsz : size (contents_ c) = cap).
    { destruct (writer_active_ c); [exact Hs | apply Hs]. }
    rewrite FinishWriting_with_readers by (now apply Z.eqb_neq).
    unfold lifecycle_invariant. chunk_simpl. rewrite Z0.
    repeat split; try lia. apply decompress_compress.
Qed.

(** FinishWriting repeated on a released region leaves the snapshot of an
    empty region. *)
Lemma FinishWriting_spoils (c : SerializedLogChunk) :
  lifecycle_invariant cap c \/ spoiled_state c ->
  writer_active_ c = false ->
  reader_ref_count_ c = 0 ->
  spoiled_state (FinishWriting c).
Proof.
  intros Hinv W Z0.
  assert (Hc : contents_ c = []).
  { destruct Hinv as [(_ & _ & Hs) | (_ & _ & Hc & _)]; [|exact Hc].
    rewrite W, Z0 in Hs. cbn [Z.eqb] in Hs. apply Hs. }
  rewrite FinishWriting_no_readers by exact Z0.
  unfold spoiled_state. chunk_simpl. rewrite Hc. now repeat split.
Qed.

Lemma spoiled_residency (c : SerializedLogChunk) :
  spoiled_state c -> residency_invariant c.
Proof.
  intros (W & Z0 & Hc & _). unfold residency_invariant, resident.
  rewrite Hc, W, Z0. cbn. split; [discriminate|].
  intros [H | H]; [discriminate | lia].
Qed.

Lemma Log_invariant sequence realtime uid pid tid payload
    (c c' : SerializedLogChunk) (p : pointer) :
  lifecycle_invariant cap c ->
  Log sequence realtime uid pid tid payload c = Ok (c', p) ->
  lifecycle_invariant cap c'.
Proof.
  intros (Ho & Hr & Hs) H. unfold Log in H.
  destruct (writer_active_ c) eqn:W; [|discriminate].
  destruct (CanLog _ c) eqn:Hcan; [|discriminate].
  cbn [andb] in H. apply Ok_inj in H. apply (f_equal fst) in H.
  cbn [fst] in H. subst c'.
  unfold CanLog in Hcan. apply Z.leb_le in Hcan.
  unfold lifecycle_invariant. chunk_simpl. rewrite W.
  rewrite length_encode_entry. cbn [msg].
  unfold size in *. rewrite length_write_at.
  - repeat split; try lia.
  - rewrite length_encode_entry. cbn [msg]. lia.
Qed.

(** One call within the contract: the chunk stays whole, or, from a
    FinishWriting repeated on a released region on, stays as that call
    left it. *)
Lemma step_contract (spoiled : bool) (o : op) (c c' : SerializedLogChunk) :
  lifecycle_op o = true ->
  (if spoiled then spoiled_state c else lifecycle_invariant cap c) ->
  is_attach o && spoiled = false ->
  overflows_count o c = false ->
  step o c = Ok c' ->
  if spoiled || refinishes_released o c
  then spoiled_state c' else lifecycle_invariant cap c'.
Proof.
  intros Hop Hinv Hatt Hover H.
  destruct spoiled.
  - (* after the repeated FinishWriting *)
    cbn [orb]. destruct Hinv as (W & Z0 & Hc & Hz).
    destruct o; cbn [lifecycle_op] in Hop; try discriminate;
      cbn [step is_attach andb] in *; try discriminate.
    + unfold Log in H. rewrite W in H. discriminate.
    + apply Ok_inj in H. subst c'.
      apply FinishWriting_spoils; [right; now repeat split | exact W
                                  | exact Z0].
    + unfold DetachReader in H. destruct (existsb _ _); [|discriminate].
      unfold DecReaderRefCount in H. chunk_simpl. rewrite Z0 in H.
      discriminate.
    + unfold DecReaderRefCount in H. rewrite Z0 in H. discriminate.
  - cbn [orb]. clear Hatt.
    assert (Hr : 0 <= reader_ref_count_ c < 2 ^ 32) by apply Hinv.
    destruct o; cbn [lifecycle_op] in Hop; try discriminate;
      unfold refinishes_released, overflows_count in *;
      cbn [step is_attach is_finish andb] in *.
    + destruct (Log _ _ _ _ _ _ c) as [[c1 p]|] eqn:L; [|discriminate].
      cbn [bind fst] in H. apply Ok_inj in H. subst c1.
      exact (Log_invariant _ _ _ _ _ _ _ _ _ Hinv L).
    + apply Ok_inj in H. subst c'.
      destruct (writer_active_ c) eqn:W; cbn [negb andb].
      * apply FinishWriting_invariant; [exact Hinv | now left].
      * destruct (reader_ref_count_ c =? 0) eqn:Z0.
        -- apply FinishWriting_spoils;
             [now left | exact W | now apply Z.eqb_eq].
        -- apply FinishWriting_invariant; [exact Hinv | right].
           now apply Z.eqb_neq.
    + unfold AttachReader in H.
      destruct (IncReaderRefCount c) as [c1|] eqn:I; [|discriminate].
      cbn [bind] in H. apply Ok_inj in H. subst c'.
      apply with_readers_invariant.
      apply (IncReaderRefCount_invariant c c1 Hinv); [|exact I].
      destruct (writer_active_ c); [now left | right].
      cbn [negb andb] in Hover. now apply Z.eqb_neq.
    + unfold DetachReader in H. destruct (existsb _ _); [|discriminate].
      apply DecReaderRefCount_invariant in H;
        [exact H | now apply with_readers_invariant].
    + apply (IncReaderRefCount_invariant c c' Hinv); [|exact H].
      destruct (writer_active_ c); [now left | right].
      cbn [negb andb] in Hover. now apply Z.eqb_neq.
    + exact (DecReaderRefCount_invariant c c' Hinv H).
Qed.

Lemma run_contract (ops : list op) (spoiled : bool)
    (c c' : SerializedLogChunk) :
  forallb lifecycle_op ops = true ->
  (if spoiled then spoiled_state c else lifecycle_invariant cap c) ->
  keeps_contract spoiled ops c = true ->
  run ops c = Ok c' ->
  spoiled_state c' \/ lifecycle_invariant cap c'.
Proof.
  revert spoiled c. induction ops as [|o ops IH];
    intros spoiled c Hops Hinv Hk H.
  - apply Ok_inj in H. subst c'.
    destruct spoiled; [now left | now right].
  - cbn [forallb] in Hops. apply andb_prop in Hops as [Hop Hops].
    cbn [run] in H. destruct (step o c) as [c1|] eqn:S; [|discriminate].
    cbn [bind] in H. cbn [keeps_contract] in Hk. rewrite S in Hk.
    apply andb_prop in Hk as [Hk Hrest]. apply andb_prop in Hk as [Ha Hv].
    apply negb_true_iff in Ha, Hv.
    apply (IH (spoiled || refinishes_released o c) c1 Hops); [|exact Hrest
                                                              |exact H].
    now apply (step_contract spoiled o c c1).
Qed.

Lemma run_residency (ops : list op) (c : SerializedLogChunk) :
  forallb lifecycle_op ops = true ->
  keeps_contract false ops (SerializedLogChunk_new cap) = true ->
  run ops (SerializedLogChunk_new cap) = Ok c ->
  residency_invariant c.
Proof.
  intros Hops Hk H.
  destruct (run_contract ops false (SerializedLogChunk_new cap) c Hops
              fresh_lifecycle_invariant Hk H) as [Hs | Hi].
  - now apply spoiled_residency.
  - now apply invariant_residency.
Qed.

(** The contract leaves out no call it could keep: each of the two calls
    it excludes, when it returns, leaves a chunk on which the residency
    equivalence fails. *)
Lemma contract_is_tight (spoiled : bool) (o : op)
    (c c' : SerializedLogChunk) :
  lifecycle_op o = true ->
  (if spoiled then spoiled_state c else lifecycle_invariant cap c) ->
  is_attach o && spoiled = true \/ overflows_count o c = true ->
  step o c = Ok c' ->
  ~ residency_invariant c'.
Proof.
  intros Hop Hinv Hex H.
  assert (Hinc : forall c1, IncReaderRefCount c = Ok c1 ->
            (resident c1 = false /\ reader_ref_count_ c1 = 1) \/
            (resident c1 = true /\ reader_ref_count_ c1 = 0 /\
             writer_active_ c1 = false)).
  { intros c1 I. unfold IncReaderRefCount in I.
    change (resident (with_reader_ref_count
                        (uint32_t (reader_ref_count_ c + 1)) c))
      with (resident c) in I.
    destruct spoiled.
    - destruct Hinv as (W & Z0 & Hc & Hz). left.
      assert (Hres : resident c = false)
        by (unfold resident; rewrite Hc; reflexivity).
      rewrite Hres in I. unfold Decompress in I. chunk_simpl.
      rewrite Hz, decompress_compress, Z0 in I. apply Ok_inj in I. subst c1.
      split; reflexivity.
    - destruct Hex as [Hex | Hex];
        [rewrite andb_false_r in Hex; discriminate|].
      unfold overflows_count in Hex.
      apply andb_prop in Hex as [Hex Hmax].
      apply andb_prop in Hex as [_ W]. apply negb_true_iff in W.
      apply Z.eqb_eq in Hmax. right.
      pose proof (invariant_resident c Hinv) as Hres.
      rewrite W, Hmax in Hres. cbn in Hres.
      rewrite Hres in I. apply Ok_inj in I. subst c1.
      unfold resident in *. chunk_simpl. rewrite Hmax.
      split; [exact Hres | split; [reflexivity | exact W]]. }
  assert (Hbreak : forall c1,
            (resident c1 = false /\ reader_ref_count_ c1 = 1) \/
            (resident c1 = true /\ reader_ref_count_ c1 = 0 /\
             writer_active_ c1 = false) ->
            ~ residency_invariant c1).
  { intros c1 [[Hres Hrc] | (Hres & Hrc & W)] [Hl Hr].
    - rewrite Hr in Hres; [discriminate | right; lia].
    - destruct (Hl Hres) as [Hw | Hp]; [congruence | lia]. }
  assert (Hatt : is_attach o = true).
  { destruct Hex as [Hex | Hex].
    - now apply andb_prop in Hex as [Hex _].
    - unfold overflows_count in Hex.
      apply andb_prop in Hex as [Hex _]. now apply andb_prop in Hex as [Hex _]. }
  destruct o; cbn [is_attach] in Hatt; try discriminate; cbn [step] in H.
  - unfold AttachReader in H.
    destruct (IncReaderRefCount c) as [c1|] eqn:I; [|discriminate].
    cbn [bind] in H. apply Ok_inj in H. subst c'.
    apply (Hbreak (with_readers (readers_ c1 ++ [r]) c1)).
    exact (Hinc c1 eq_refl).
  - apply Hbreak. now apply Hinc.
Qed.

End Residency.


(** In such a state, whenever the check of log_entry passes the region
    it points into is resident and has the capacity the chunk was built
    with. *)
Lemma log_entry_region_resident {engine : CompressionEngine}
    (cap offset : Z) (ops : list op) (c : SerializedLogChunk) :
  0 < cap ->
  forallb lifecycle_op ops = true ->
  keeps_contract false ops (SerializedLogChunk_new cap) = true ->
  run ops (SerializedLogChunk_new cap) = Ok c ->
  writer_active_ c = true \/ 0 < reader_ref_count_ c ->
  log_entry offset c = Ok (ContentsPtr offset) /\
  resident c = true /\
  size (contents_ c) = cap.
Proof.
  intros Hcap Hops Hk H Hpre.
  pose proof (run_residency cap Hcap ops c Hops Hk H) as [_ Hres].
  split; [|split; [now apply Hres|]].
  - unfold log_entry.
    replace (writer_active_ c || (0 <? reader_ref_count_ c)) with true;
      [reflexivity|].
    symmetry. apply orb_true_iff.
    destruct Hpre as [Hw | Hr]; [now left | right; now apply Z.ltb_lt].
  - destruct (run_contract cap Hcap ops false (SerializedLogChunk_new cap) c
                Hops (fresh_lifecycle_invariant cap Hcap) Hk H)
      as [(W & Z0 & _) | (_ & Hr & Hs)].
    + destruct Hpre as [Hw | Hp]; [congruence | lia].
    + destruct (writer_active_ c); [exact Hs|].
      destruct (reader_ref_count_ c =? 0) eqn:Z0.
      * apply Z.eqb_eq in Z0. destruct Hpre as [Hw | Hp];
          [discriminate | lia].
      * apply Hs.
Qed.

(* ================================================================== *)
(** * Appending and reading back *)

Lemma slice_skip {A} (k off n : nat) (a l : list A) :
  length a = k -> (k <= off)%nat ->
  slice off n (a ++ l) = slice (off - k) n l.
Proof.
  intros Hk Hle. unfold slice. rewrite skipn_app, Hk.
  rewrite skipn_all2 by lia. reflexivity.
Qed.

Lemma slice_take {A} (n : nat) (a l : list A) :
  length a = n -> slice 0 n (a ++ l) = a.
Proof.
  intros Hn. unfold slice. cbn [skipn]. subst n.
  rewrite firstn_app, Nat.sub_diag, firstn_all. cbn [firstn].
  apply app_nil_r.
Qed.

Ltac field_slice :=
  repeat first
    [ rewrite (slice_skip 8) by (try apply length_le_bytes; lia)
    | rewrite (slice_skip 4) by (try apply length_le_bytes; lia)
    | rewrite (slice_skip 2) by (try apply length_le_bytes; lia) ];
  cbn [Nat.sub].

Lemma le_value_field (n : nat) (v : Z) (rest : list byte) :
  0 <= v < 256 ^ Z.of_nat n ->
  le_value (slice 0 n (le_bytes n v ++ rest)) = v.
Proof.
  intros Hv. rewrite slice_take by apply length_le_bytes.
  rewrite le_value_le_bytes. now apply Z.mod_small.
Qed.

Lemma entry_msg_len_encode (e : SerializedLogEntry) (rest : list byte) :
  Z.of_nat (length (msg e)) < 2 ^ 16 ->
  entry_msg_len (encode_entry e ++ rest) = length (msg e).
Proof.
  intros H. unfold entry_msg_len, encode_entry. rewrite <- !app_assoc.
  field_slice. rewrite le_value_field by (cbn; lia). apply Nat2Z.id.
Qed.

(** Decoding reads back what was encoded, whatever follows the entry. *)
Lemma decode_encode_entry (e : SerializedLogEntry) (rest : list byte) :
  entry_in_range e -> decode_entry (encode_entry e ++ rest) = e.
Proof.
  intros (Hs & Ht & Hu & Hp & Hd & Hm).
  unfold decode_entry. rewrite entry_msg_len_encode by exact Hm.
  unfold entry_uid, encode_entry, header_size. rewrite <- !app_assoc.
  destruct e as [s t u p d m]. cbn [sequence realtime uid pid tid msg] in *.
  f_equal.
  - apply le_value_field. cbn; lia.
  - field_slice. apply le_value_field. cbn; lia.
  - field_slice. apply le_value_field. cbn; lia.
  - field_slice. apply le_value_field. cbn; lia.
  - field_slice. apply le_value_field. cbn; lia.
  - rewrite (slice_skip 8) by (try apply length_le_bytes; lia).
    rewrite (slice_skip 8) by (try apply length_le_bytes; lia).
    rewrite (slice_skip 4) by (try apply length_le_bytes; lia).
    rewrite (slice_skip 4) by (try apply length_le_bytes; lia).
    rewrite (slice_skip 4) by (try apply length_le_bytes; lia).
    rewrite (slice_skip 2) by (try apply length_le_bytes; lia).
    cbn [Nat.sub]. now apply slice_take.
Qed.

Lemma encode_entry_whole (e : SerializedLogEntry) :
  Z.of_nat (length (msg e)) < 2 ^ 16 -> whole_entry (encode_entry e).
Proof.
  intros H. unfold whole_entry, total_len.
  rewrite <- (app_nil_r (encode_entry e)) at 3.
  rewrite entry_msg_len_encode by exact H.
  rewrite length_encode_entry. lia.
Qed.

Lemma concat_snoc {A} (ls : list (list A)) (l : list A) :
  concat (ls ++ [l]) = concat ls ++ l.
Proof. rewrite concat_app. cbn [concat]. now rewrite app_nil_r. Qed.

Lemma firstn_write_at (pos : nat) (block region : list byte) :
  (pos <= length region)%nat ->
  firstn (pos + length block) (write_at pos block region) =
  firstn pos region ++ block.
Proof.
  intros H. unfold write_at. rewrite app_assoc, firstn_app.
  rewrite length_app, length_firstn, Nat.min_l by exact H.
  rewrite Nat.sub_diag. cbn [firstn]. rewrite app_nil_r.
  apply firstn_all2. rewrite length_app, length_firstn. lia.
Qed.

(** An append on a well laid chunk adds the entry at the end of the
    entries the chunk holds, and leaves the chunk well laid. *)
Lemma entries_after_Log {engine : CompressionEngine}
    sequence realtime uid pid tid payload
    (c c' : SerializedLogChunk) (p : pointer) :
  well_laid c ->
  entry_in_range {| sequence := sequence; realtime := realtime; uid := uid;
                    pid := pid; tid := tid; msg := payload |} ->
  Log sequence realtime uid pid tid payload c = Ok (c', p) ->
  entries c' =
    entries c ++ [{| sequence := sequence; realtime := realtime; uid := uid;
                     pid := pid; tid := tid; msg := payload |}] /\
  well_laid c' /\
  p = ContentsPtr (write_offset_ c) /\
  highest_sequence_number_ c' = sequence.
Proof.
  intros (Ho & Hlaid) Hrange H. unfold Log in H.
  destruct (writer_active_ c) eqn:W; [|discriminate].
  destruct (CanLog _ c) eqn:Hcan; [|discriminate].
  cbn [andb] in H. apply Ok_inj in H.
  pose proof (f_equal fst H) as H1. pose proof (f_equal snd H) as H2.
  cbn [fst snd] in H1, H2. clear H. subst c' p.
  unfold CanLog in Hcan. apply Z.leb_le in Hcan. unfold size in Hcan.
  set (e := {| sequence := sequence; realtime := realtime; uid := uid;
               pid := pid; tid := tid; msg := payload |}) in *.
  assert (Hwhole : whole_entry (encode_entry e)).
  { apply encode_entry_whole. apply Hrange. }
  assert (Hreg : readable_region c = contents_ c).
  { unfold readable_region. now rewrite W. }
  rewrite Hreg in Hlaid.
  assert (Hblocks :
    blocks (with_highest_sequence_number (uint64_t sequence)
      (with_write_offset
         (write_offset_ c + Z.of_nat (length (encode_entry e)))
         (with_contents
            (write_at (Z.to_nat (write_offset_ c)) (encode_entry e)
               (contents_ c)) c)))
    = blocks c ++ [encode_entry e]).
  { unfold blocks at 1. unfold readable_region. chunk_simpl.
    rewrite W. cbn [orb].
    replace (Z.to_nat (write_offset_ c + Z.of_nat (length (encode_entry e))))
      with (Z.to_nat (write_offset_ c) + length (encode_entry e))%nat by lia.
    rewrite firstn_write_at by lia.
    rewrite <- Hlaid, <- concat_snoc.
    apply blocks_of_concat. apply Forall_app. split.
    - apply scan_blocks_whole.
    - constructor; [exact Hwhole | constructor]. }
  split; [|split; [|split]].
  - unfold entries at 1. rewrite Hblocks, map_app. cbn [map].
    rewrite <- (app_nil_r (encode_entry e)).
    rewrite decode_encode_entry by exact Hrange. reflexivity.
  - split; [chunk_simpl; lia|]. rewrite Hblocks.
    unfold readable_region. chunk_simpl. rewrite W. cbn [orb].
    replace (Z.to_nat (write_offset_ c + Z.of_nat (length (encode_entry e))))
      with (Z.to_nat (write_offset_ c) + length (encode_entry e))%nat by lia.
    rewrite firstn_write_at by lia. rewrite concat_snoc, Hlaid. reflexivity.
  - unfold ptr_add, data. reflexivity.
  - chunk_simpl. unfold uint64_t, wrap. apply Z.mod_small. apply Hrange.
Qed.

Lemma fresh_well_laid {engine : CompressionEngine} (size : Z) :
  well_laid (SerializedLogChunk_new size).
Proof. split; [cbn; lia | reflexivity]. Qed.

(* ================================================================== *)
(** * Where the code departs from the design document *)


(** A second FinishWriting with no reader replaces the snapshot by that
    of the released region; the next attach then brings back an empty
    region although a reader is counted.  This attach is the first of the
    two calls the residency theorem leaves out. *)
Lemma second_finish_breaks_residency :
  exists c,
    run (engine := RleEngine)
      [OpFinishWriting; OpFinishWriting; OpAttachReader 7]
      (SerializedLogChunk_new 8) = Ok c /\
    reader_ref_count_ c = 1 /\
    contents_ c = [] /\
    ~ residency_invariant c.
Proof.
  eexists. split; [vm_compute; reflexivity|].
  split; [reflexivity|]. split; [reflexivity|].
  unfold residency_invariant. intros [_ H].
  assert (F : resident
    {| contents_ := []; write_offset_ := 0; reader_ref_count_ := 1;
       writer_active_ := false; highest_sequence_number_ := 1;
       compressed_log_ := [rle_magic]; readers_ := [7] |} = true).
  { apply H. right. cbn. lia. }
  discriminate F.
Qed.

(** The state reached when a reader is attached as writing ends: the
    snapshot (35 bytes on the reference engine) and the region (4096
    bytes) are both held. *)
Lemma finish_under_reader_state :
  exists c,
    run (engine := RleEngine) finish_under_reader
      (SerializedLogChunk_new 4096) = Ok c /\
    size (compressed_log_ c) = 35 /\
    size (contents_ c) = 4096 /\
    write_offset_ c = 0 /\
    reader_ref_count_ c = 1 /\
    writer_active_ c = false.
Proof.
  eexists. split; [vm_compute; reflexivity|].
  repeat split; vm_compute; reflexivity.
Qed.

(** Against C2.  In that state PruneSize (on an 80-byte object) returns
    80 + 35 where the footprint of the design document is 80 + 4096; the
    two differ whatever the size of the object. *)
Lemma PruneSize_differs_from_footprint :
  exists c,
    run (engine := RleEngine) finish_under_reader
      (SerializedLogChunk_new 4096) = Ok c /\
    compressed_log_ c <> [] /\
    contents_ c <> [] /\
    PruneSize 80 c = 115 /\
    MemoryFootprint_spec 80 c = 4176 /\
    forall sizeof_this,
      PruneSize sizeof_this c <> MemoryFootprint_spec sizeof_this c.
Proof.
  destruct finish_under_reader_state as (c & Hrun & Hz & Hc & _).
  exists c. split; [exact Hrun|].
  assert (Hz0 : (size (compressed_log_ c) =? 0) = false)
    by (rewrite Hz; reflexivity).
  assert (Hc0 : (size (contents_ c) =? 0) = false)
    by (rewrite Hc; reflexivity).
  split; [intros E; rewrite E in Hz; discriminate Hz|].
  split; [intros E; rewrite E in Hc; discriminate Hc|].
  unfold PruneSize, MemoryFootprint_spec. rewrite Hz0, Hc0, Hz, Hc.
  cbn [negb andb].
  split; [reflexivity|]. split; [reflexivity|].
  intros s E. unfold size_t, wrap in E.
  assert (D : (s + 4096 - (s + 35)) mod 2 ^ 64 = 0).
  { rewrite Zminus_mod, E, Z.sub_diag. reflexivity. }
  replace (s + 4096 - (s + 35)) with 4061 in D by lia.
  discriminate D.
Qed.

(** Against C3.  In that same reachable state 4131 bytes are live, the
    region is resident with its 4096 bytes, and PruneSize returns 115 on
    an 80-byte object, and less than the live bytes on any object below
    4016 bytes. *)
Lemma PruneSize_undercounts :
  exists c,
    reachable (engine := RleEngine) c /\
    resident c = true /\
    size (contents_ c) = 4096 /\
    live_bytes c = 4131 /\
    PruneSize 80 c = 115 /\
    ~ live_bytes c <= PruneSize 80 c /\
    ~ size (contents_ c) <= PruneSize 80 c /\
    forall sizeof_this,
      0 <= sizeof_this < 4016 -> PruneSize sizeof_this c < live_bytes c.
Proof.
  destruct finish_under_reader_state as (c & Hrun & Hz & Hc & Ho & _).
  exists c. split.
  { exists 4096, finish_under_reader.
    split; [lia|]. split; [reflexivity | exact Hrun]. }
  assert (Hz0 : (size (compressed_log_ c) =? 0) = false)
    by (rewrite Hz; reflexivity).
  assert (Hc0 : (size (contents_ c) =? 0) = false)
    by (rewrite Hc; reflexivity).
  unfold resident, live_bytes, PruneSize.
  rewrite Hz0, Hc0, Hz, Hc, Ho. cbn [negb andb].
  split; [reflexivity|]. split; [reflexivity|]. split; [reflexivity|].
  split; [reflexivity|].
  split; [intros H; vm_compute in H; apply H; reflexivity|].
  split; [intros H; vm_compute in H; apply H; reflexivity|].
  intros s Hs. unfold size_t, wrap. rewrite Z.mod_small by lia. lia.
Qed.

(** On a fresh chunk of 8 bytes, with Compress overwriting the snapshot
    at each call, a second FinishWriting changes the compressed snapshot
    the first one took. *)
Lemma FinishWriting_not_idempotent :
  FinishWriting (engine := RleEngine)
    (FinishWriting (SerializedLogChunk_new 8)) <>
  FinishWriting (engine := RleEngine) (SerializedLogChunk_new 8).
Proof.
  intros H. apply (f_equal compressed_log_) in H.
  vm_compute in H. discriminate H.
Qed.

(** Against C6.  On a fresh chunk of 4096 bytes the writer is active, so
    the check of log_entry passes at every offset: at offset -1 and at
    offset 4096 it returns an address that designates no byte of the
    region.  On a chunk built with capacity 0 the check passes as well and
    there is no resident region to point into. *)
Lemma log_entry_outside_region :
  writer_active_ (SerializedLogChunk_new 4096) = true /\
  resident (SerializedLogChunk_new 4096) = true /\
  log_entry (-1) (SerializedLogChunk_new 4096) = Ok (ContentsPtr (-1)) /\
  load (SerializedLogChunk_new 4096) (ContentsPtr (-1)) = None /\
  log_entry 4096 (SerializedLogChunk_new 4096) = Ok (ContentsPtr 4096) /\
  load (SerializedLogChunk_new 4096) (ContentsPtr 4096) = None /\
  writer_active_ (SerializedLogChunk_new 0) = true /\
  log_entry 0 (SerializedLogChunk_new 0) = Ok (ContentsPtr 0) /\
  resident (SerializedLogChunk_new 0) = false /\
  load (SerializedLogChunk_new 0) (ContentsPtr 0) = None.
Proof. repeat split; vm_compute; reflexivity. Qed.

(* ================================================================== *)
(** * The reader count is 32 bits wide *)

Lemma run_app {engine : CompressionEngine} (ops1 ops2 : list op)
    (c : SerializedLogChunk) :
  run (ops1 ++ ops2) c = (c1 <- run ops1 c ;; run ops2 c1).
Proof.
  revert c. induction ops1 as [|o ops1 IH]; intros c; [reflexivity|].
  cbn [app run]. destruct (step o c) as [c1|]; [|reflexivity].
  cbn [bind]. apply IH.
Qed.

(** Counting readers on a resident chunk only moves the count, modulo
    2^32. *)
Lemma run_repeat_IncReaderRefCount {engine : CompressionEngine}
    (n : nat) (c : SerializedLogChunk) :
  resident c = true ->
  0 <= reader_ref_count_ c < 2 ^ 32 ->
  exists c',
    run (repeat OpIncReaderRefCount n) c = Ok c' /\
    reader_ref_count_ c' = uint32_t (reader_ref_count_ c + Z.of_nat n) /\
    contents_ c' = contents_ c /\
    write_offset_ c' = write_offset_ c /\
    writer_active_ c' = writer_active_ c.
Proof.
  revert c. induction n as [|n IH]; intros c Hres Hr.
  - exists c. cbn [repeat run]. rewrite Z.add_0_r, uint32_t_small by exact Hr.
    repeat split.
  - cbn [repeat run step]. unfold IncReaderRefCount.
    change (resident (with_reader_ref_count
                        (uint32_t (reader_ref_count_ c + 1)) c))
      with (resident c).
    rewrite Hres. cbn [bind].
    destruct (IH (with_reader_ref_count
                    (uint32_t (reader_ref_count_ c + 1)) c))
      as (c' & Hrun & Hcount & Hc & Ho & Hw).
    + exact Hres.
    + chunk_simpl. unfold uint32_t, wrap. apply Z.mod_pos_bound. lia.
    + exists c'. split; [exact Hrun|]. chunk_simpl.
      split; [|now repeat split].
      rewrite Hcount. unfold uint32_t, wrap.
      rewrite Zplus_mod_idemp_l. f_equal. lia.
Qed.

(** A reader attaches, writing ends, and 2^32 - 1 more readers are
    counted: the count is back to zero over a region that is still
    resident.  The last of these attaches is the second of the two calls
    the residency theorem leaves out. *)
Lemma reader_count_wrap_breaks_residency :
  exists c,
    run (engine := RleEngine)
      ([OpIncReaderRefCount; OpFinishWriting] ++
       repeat OpIncReaderRefCount (Z.to_nat (2 ^ 32 - 1)))
      (SerializedLogChunk_new 8) = Ok c /\
    reader_ref_count_ c = 0 /\
    writer_active_ c = false /\
    resident c = true /\
    ~ residency_invariant c.
Proof.
  set (n := Z.to_nat (2 ^ 32 - 1)).
  assert (Hn : Z.of_nat n = 2 ^ 32 - 1) by (apply Z2Nat.id; lia).
  clearbody n.
  remember (get (SerializedLogChunk_new 0)
              (run (engine := RleEngine)
                 [OpIncReaderRefCount; OpFinishWriting]
                 (SerializedLogChunk_new 8))) as c0 eqn:Ec0.
  assert (H0 : run (engine := RleEngine)
                 [OpIncReaderRefCount; OpFinishWriting]
                 (SerializedLogChunk_new 8) = Ok c0)
    by (subst c0; vm_compute; reflexivity).
  assert (Hres : resident c0 = true) by (subst c0; vm_compute; reflexivity).
  assert (Hrc : reader_ref_count_ c0 = 1)
    by (subst c0; vm_compute; reflexivity).
  assert (Hwa : writer_active_ c0 = false)
    by (subst c0; vm_compute; reflexivity).
  clear Ec0.
  destruct (run_repeat_IncReaderRefCount (engine := RleEngine) n c0 Hres)
    as (c & Hrun & Hcount & Hc & Ho & Hw); [lia|].
  exists c. rewrite run_app, H0. cbn [bind].
  assert (Hzero : reader_ref_count_ c = 0).
  { rewrite Hcount, Hrc, Hn. unfold uint32_t, wrap.
    replace (1 + (2 ^ 32 - 1)) with (1 * 2 ^ 32) by lia.
    apply Z.mod_mul. lia. }
  assert (Hres' : resident c = true).
  { unfold resident in *. now rewrite Hc, Ho. }
  split; [exact Hrun|]. split; [exact Hzero|].
  split; [congruence|]. split; [exact Hres'|].
  unfold residency_invariant. intros [H _].
  destruct (H Hres') as [Hx | Hx]; [congruence | lia].
Qed.

(* ================================================================== *)
(** * The theorems at work on sample runs *)

(** The chunk of the scenario: 4096 bytes, three appends. *)
Lemma scenario_returns :
  exists c,
    run (engine := RleEngine) scenario (SerializedLogChunk_new 4096) = Ok c /\
    write_offset_ c = 103 /\
    reader_ref_count_ c = 0 /\
    writer_active_ c = false /\
    highest_sequence_number_ c = 3 /\
    contents_ c = [] /\
    readers_ c = [].
Proof.
  eexists. split; [vm_compute; reflexivity|]. repeat split.
Qed.

(** The scenario step by step: after the end of writing the region is
    released; the reader that attaches finds the three entries in order;
    a prune is refused while it is attached, and after it left the prune
    of uid 1000 reports an empty chunk. *)
Lemma scenario_steps :
  exists c1 c2 c3 c4,
    run (engine := RleEngine) (three_appends ++ [OpFinishWriting])
      (SerializedLogChunk_new 4096) = Ok c1 /\
    contents_ c1 = [] /\
    AttachReader (engine := RleEngine) 7 c1 = Ok c2 /\
    resident c2 = true /\
    map sequence (entries c2) = [1; 2; 3] /\
    map msg (entries c2) = [hello; world; foo] /\
    ClearUidLogs 1000 0 c2 = Fatal /\
    DetachReader 7 c2 = Ok c3 /\
    ClearUidLogs 1000 0 c3 = Ok (c4, true).
Proof.
  eexists. eexists. eexists. eexists.
  split; [vm_compute; reflexivity|].
  split; [reflexivity|].
  split; [vm_compute; reflexivity|].
  split; [vm_compute; reflexivity|].
  split; [vm_compute; reflexivity|].
  split; [vm_compute; reflexivity|].
  split; [reflexivity|].
  split; [vm_compute; reflexivity|].
  vm_compute. reflexivity.
Qed.

(** The prune of a finished, released chunk.  Three entries of uids 1000,
    2000 and 1000 are appended and writing ends with no reader: the region
    is released.  The prune of uid 1000 returns false and leaves the entry
    of uid 2000; the chunk is released again over a fresh snapshot, and
    the reader that attaches next finds that one entry. *)
Lemma prune_released_chunk :
  exists c1 c2 c3,
    run (engine := RleEngine) mixed_finished
      (SerializedLogChunk_new 4096) = Ok c1 /\
    contents_ c1 = [] /\
    reader_ref_count_ c1 = 0 /\
    map uid (entries c1) = [1000; 2000; 1000] /\
    ClearUidLogs 1000 0 c1 = Ok (c2, false) /\
    contents_ c2 = [] /\
    compressed_log_ c2 <> [] /\
    map uid (entries c2) = [2000] /\
    map msg (entries c2) = [world] /\
    AttachReader 8 c2 = Ok c3 /\
    resident c3 = true /\
    map msg (entries c3) = [world].
Proof.
  eexists. eexists. eexists.
  split; [vm_compute; reflexivity|].
  split; [reflexivity|].
  split; [reflexivity|].
  split; [vm_compute; reflexivity|].
  split; [vm_compute; reflexivity|].
  split; [reflexivity|].
  split; [vm_compute; discriminate|].
  split; [vm_compute; reflexivity|].
  split; [vm_compute; reflexivity|].
  split; [vm_compute; reflexivity|].
  split; vm_compute; reflexivity.
Qed.


Lemma PruneSize_prefers_snapshot_witness :
  PruneSize 80 (FinishWriting (engine := RleEngine)
                  (SerializedLogChunk_new 4096)) =
  size_t (80 + 35).
Proof.
  refine (proj1 (PruneSize_prefers_snapshot 80
                   (FinishWriting (engine := RleEngine)
                      (SerializedLogChunk_new 4096))) _).
  vm_compute. discriminate.
Defined.

Lemma PruneSize_counts_live_bytes_witness :
  0 <= 80 /\
  live_bytes (FinishWriting (engine := RleEngine)
                (SerializedLogChunk_new 4096)) <=
  PruneSize 80 (FinishWriting (engine := RleEngine)
                  (SerializedLogChunk_new 4096)).
Proof.
  split; [lia|].
  refine (proj2 (proj1 (PruneSize_counts_live_bytes 80
                          (FinishWriting (engine := RleEngine)
                             (SerializedLogChunk_new 4096)) _ _) _)).
  - lia.
  - vm_compute. reflexivity.
  - left. reflexivity.
Defined.

Lemma FinishWriting_effect_witness :
  contents_ (FinishWriting (engine := RleEngine)
               (SerializedLogChunk_new 4096)) = [].
Proof.
  refine (proj1 (proj2 (proj2 (proj2 (FinishWriting_effect
            (engine := RleEngine) (SerializedLogChunk_new 4096))))) _).
  reflexivity.
Defined.

Lemma log_entry_checks_state_only_witness :
  log_entry 35 (SerializedLogChunk_new 4096) = Ok (ContentsPtr 35) /\
  (exists b, load (SerializedLogChunk_new 4096) (ContentsPtr 35) = Some b) /\
  log_entry 35 (FinishWriting (engine := RleEngine)
                  (SerializedLogChunk_new 4096)) = Fatal.
Proof.
  split; [|split].
  - refine (proj1 (proj2 (log_entry_checks_state_only 35
                            (SerializedLogChunk_new 4096)) _)).
    left. reflexivity.
  - refine (proj2 (proj1 (proj2 (proj2 (log_entry_checks_state_only 35
                            (SerializedLogChunk_new 4096)) _))) _).
    + left. reflexivity.
    + vm_compute. split; [discriminate | reflexivity].
  - refine (proj1 (log_entry_checks_state_only 35
                     (FinishWriting (engine := RleEngine)
                        (SerializedLogChunk_new 4096))) _).
    split; reflexivity.
Defined.

Lemma Compress_Decompress_round_trip_witness :
  exists c',
    Decompress (engine := RleEngine)
      (with_contents []
         (Compress (engine := RleEngine)
            (get (SerializedLogChunk_new 0)
               (run (engine := RleEngine) three_appends
                  (SerializedLogChunk_new 4096))))) = Ok c' /\
    contents_ c' =
    contents_
      (get (SerializedLogChunk_new 0)
         (run (engine := RleEngine) three_appends
            (SerializedLogChunk_new 4096))).
Proof.
  destruct (proj2 (proj2 (Compress_Decompress_round_trip
              (engine := RleEngine)
              (get (SerializedLogChunk_new 0)
                 (run (engine := RleEngine) three_appends
                    (SerializedLogChunk_new 4096))))) [])
    as (c' & Hrun & Hc & _).
  exists c'. split; [exact Hrun | exact Hc].
Defined.

Lemma writer_active_one_way_witness :
  writer_active_
    (FinishWriting (engine := RleEngine) (SerializedLogChunk_new 4096)) =
    false /\
  writer_active_
    (get (SerializedLogChunk_new 0)
       (run (engine := RleEngine) after_finish
          (FinishWriting (engine := RleEngine)
             (SerializedLogChunk_new 4096)))) = false.
Proof.
  split; [reflexivity|].
  refine (proj1 (proj2 (writer_active_one_way (engine := RleEngine)
    4096 after_finish
    (FinishWriting (engine := RleEngine) (SerializedLogChunk_new 4096))
    (get (SerializedLogChunk_new 0)
       (run (engine := RleEngine) after_finish
          (FinishWriting (engine := RleEngine)
             (SerializedLogChunk_new 4096)))) _ _))).
  - reflexivity.
  - vm_compute. reflexivity.
Defined.

Lemma ClearUidLogs_prunes_witness :
  reader_ref_count_
    (get (SerializedLogChunk_new 0)
       (run (engine := RleEngine) mixed_finished
          (SerializedLogChunk_new 4096))) = 0 /\
  contents_
    (get (SerializedLogChunk_new 0)
       (run (engine := RleEngine) mixed_finished
          (SerializedLogChunk_new 4096))) = [] /\
  exists c' empty,
    ClearUidLogs 1000 0
      (get (SerializedLogChunk_new 0)
         (run (engine := RleEngine) mixed_finished
            (SerializedLogChunk_new 4096))) = Ok (c', empty) /\
    entries c' =
      [{| sequence := 2; realtime := 1600000001; uid := 2000;
          pid := 51; tid := 52; msg := world |}] /\
    empty = false.
Proof.
  split; [reflexivity|]. split; [reflexivity|].
  destruct (proj1 (ClearUidLogs_prunes (engine := RleEngine) 1000 0
              (get (SerializedLogChunk_new 0)
                 (run (engine := RleEngine) mixed_finished
                    (SerializedLogChunk_new 4096))) eq_refl))
    as (c' & empty & Hrun & _ & Hentries & Hflag & _).
  { right. right. eexists. vm_compute. reflexivity. }
  exists c', empty. split; [exact Hrun|].
  assert (He : entries c' =
    [{| sequence := 2; realtime := 1600000001; uid := 2000;
        pid := 51; tid := 52; msg := world |}]).
  { rewrite Hentries. vm_compute. reflexivity. }
  split; [exact He|].
  destruct empty; [|reflexivity].
  rewrite He in Hflag. destruct Hflag as [Hflag _].
  discriminate (Hflag eq_refl).
Defined.

(* ================================================================== *)
(** * The chunk after the end of writing *)

Section AfterFinishWriting.

Context {engine : CompressionEngine}.

(** X1.  Once FinishWriting has returned, log_entry is fatal when no
    reader was counted, at every offset; with a reader counted it still
    answers, and the bytes it points at are those of before the call. *)
Theorem log_entry_after_FinishWriting (offset : Z) (c : SerializedLogChunk) :
  (reader_ref_count_ c <= 0 ->
   log_entry offset (FinishWriting c) = Fatal) /\
  (0 < reader_ref_count_ c ->
   log_entry offset (FinishWriting c) = Ok (ContentsPtr offset) /\
   load (FinishWriting c) (ContentsPtr offset) = load c (ContentsPtr offset)).
Proof.
  split.
  - intros Hr. unfold log_entry.
    replace (writer_active_ (FinishWriting c)) with false
      by (unfold FinishWriting; destruct (_ =? 0); reflexivity).
    replace (reader_ref_count_ (FinishWriting c)) with (reader_ref_count_ c)
      by (unfold FinishWriting; destruct (_ =? 0); reflexivity).
    cbn [orb]. replace (0 <? reader_ref_count_ c) with false; [reflexivity|].
    symmetry. apply Z.ltb_ge. exact Hr.
  - intros Hr. rewrite FinishWriting_with_readers by lia.
    unfold log_entry, load. chunk_simpl.
    apply Z.ltb_lt in Hr. rewrite Hr. split; reflexivity.
Qed.

(** X2.  What PruneSize reports at the two ends of the life of a chunk:
    a fresh chunk counts for the overhead plus its whole capacity, and a
    chunk finished with no reader counted counts for the overhead plus the
    size of its compressed snapshot, whatever its capacity. *)
Theorem PruneSize_fresh_and_finished (sizeof_this : Z) :
  (forall capacity,
     0 <= capacity ->
     PruneSize sizeof_this (SerializedLogChunk_new capacity) =
     size_t (sizeof_this + capacity)) /\
  (forall c,
     reader_ref_count_ c = 0 ->
     PruneSize sizeof_this (FinishWriting c) =
     size_t (sizeof_this + size (compress (contents_ c)))).
Proof.
  split.
  - intros capacity Hc. unfold PruneSize. cbn [compressed_log_
      SerializedLogChunk_new contents_].
    change (size []) with 0. cbn [Z.eqb]. now rewrite size_sized.
  - intros c Hz. rewrite (FinishWriting_no_readers c Hz).
    unfold PruneSize. chunk_simpl.
    destruct (size (compress (contents_ c)) =? 0) eqn:E; [|reflexivity].
    apply Z.eqb_eq in E. rewrite E. reflexivity.
Qed.

End AfterFinishWriting.

Lemma log_entry_after_FinishWriting_witness :
  log_entry 30 (FinishWriting (engine := RleEngine)
                  (SerializedLogChunk_new 4096)) = Fatal.
Proof.
  refine (proj1 (log_entry_after_FinishWriting (engine := RleEngine) 30
                   (SerializedLogChunk_new 4096)) _).
  vm_compute. discriminate.
Defined.

Lemma PruneSize_fresh_and_finished_witness :
  PruneSize 80 (SerializedLogChunk_new 4096) = size_t (80 + 4096) /\
  PruneSize 80 (FinishWriting (engine := RleEngine)
                  (SerializedLogChunk_new 4096)) = size_t (80 + 35).
Proof.
  split.
  - refine (proj1 (PruneSize_fresh_and_finished (engine := RleEngine) 80)
              4096 _).
    lia.
  - refine (proj2 (PruneSize_fresh_and_finished (engine := RleEngine) 80)
              (SerializedLogChunk_new 4096) _).
    reflexivity.
Defined.

(* ================================================================== *)
(** * apexd: facts about the stores *)

Module ApexFacts.

Import String.
Import Apex.

Lemma find_app (key : string) (s t : store) :
  find key (s ++ t) =
  match find key s with
  | Some f => Some f
  | None => find key t
  end.
Proof.
  induction s as [|[k f] s IH]; [reflexivity|].
  cbn [app find]. destruct (k =? key)%string; [reflexivity | exact IH].
Qed.

Lemma find_In (key : string) (f : ApexFile) (s : store) :
  find key s = Some f -> In (key, f) s.
Proof.
  induction s as [|[k g] s IH]; cbn [find]; [discriminate|].
  destruct (String.eqb_spec k key) as [-> | Hne]; intros H.
  - injection H as ->. now left.
  - right. now apply IH.
Qed.

Lemma find_None (key : string) (s : store) :
  find key s = None <-> ~ In key (map fst s).
Proof.
  induction s as [|[k g] s IH]; cbn [find map fst In].
  - split; auto.
  - destruct (String.eqb_spec k key) as [-> | Hne].
    + split; [discriminate | intros H; exfalso; apply H; now left].
    + rewrite IH. split; intros H; [intros [E | E]; auto | auto].
Qed.

Lemma In_find (key : string) (f : ApexFile) (s : store) :
  NoDup (map fst s) -> In (key, f) s -> find key s = Some f.
Proof.
  induction s as [|[k g] s IH]; cbn [map fst find]; intros Hnd Hin.
  - destruct Hin.
  - inversion Hnd as [|? ? Hnotin Hnd']; subst.
    destruct Hin as [E | Hin].
    + injection E as -> ->. now rewrite String.eqb_refl.
    + destruct (String.eqb_spec k key) as [-> | Hne].
      * exfalso. apply Hnotin. apply (in_map fst) in Hin. exact Hin.
      * now apply IH.
Qed.

Lemma find_emplace_new (key : string) (f : ApexFile) (s : store) :
  find key s = None -> find key (emplace key f s) = Some f.
Proof.
  intros H. unfold emplace. rewrite H, find_app, H.
  cbn [find]. now rewrite String.eqb_refl.
Qed.

Lemma find_emplace_other (key key' : string) (f : ApexFile) (s : store) :
  key <> key' -> find key' (emplace key f s) = find key' s.
Proof.
  intros Hne. unfold emplace. destruct (find key s); [reflexivity|].
  rewrite find_app. destruct (find key' s); [reflexivity|].
  cbn [find]. destruct (String.eqb_spec key key'); [contradiction|].
  reflexivity.
Qed.

Lemma find_emplace_keeps (key key' : string) (f g : ApexFile) (s : store) :
  find key' s = Some g -> find key' (emplace key f s) = Some g.
Proof.
  intros H. unfold emplace. destruct (find key s); [exact H|].
  now rewrite find_app, H.
Qed.

Lemma map_fst_assign (key : string) (f : ApexFile) (s : store) :
  map fst (assign key f s) = map fst s.
Proof.
  induction s as [|[k g] s IH]; [reflexivity|].
  cbn [assign]. destruct (k =? key)%string; cbn [map fst]; [reflexivity|].
  now rewrite IH.
Qed.

Lemma find_assign_same (key : string) (f g : ApexFile) (s : store) :
  find key s = Some g -> find key (assign key f s) = Some f.
Proof.
  induction s as [|[k h] s IH]; cbn [find assign]; [discriminate|].
  destruct (k =? key)%string eqn:E; cbn [find]; rewrite E; auto.
Qed.

Lemma find_assign_other (key key' : string) (f : ApexFile) (s : store) :
  key <> key' -> find key' (assign key f s) = find key' s.
Proof.
  intros Hne. induction s as [|[k h] s IH]; [reflexivity|].
  cbn [assign]. destruct (String.eqb_spec k key) as [-> | Hk]; cbn [find].
  - destruct (String.eqb_spec key key'); [contradiction | reflexivity].
  - destruct (k =? key')%string; [reflexivity | exact IH].
Qed.

Lemma store_ok_nil : store_ok [].
Proof. split; constructor. Qed.

Lemma store_ok_emplace (key : string) (f : ApexFile) (s : store) :
  store_ok s -> name (GetManifest f) = key -> store_ok (emplace key f s).
Proof.
  intros [Hnd Hnamed] Hname. unfold emplace.
  destruct (find key s) eqn:E; [now split|].
  apply find_None in E. split.
  - rewrite map_app. cbn [map fst].
    apply NoDup_app; [exact Hnd | repeat constructor; intros [] | ].
    intros k Hin [Hk | []]. subst k. contradiction.
  - apply Forall_app. split; [exact Hnamed|].
    constructor; [exact Hname | constructor].
Qed.

Lemma store_ok_assign (key : string) (f : ApexFile) (s : store) :
  store_ok s -> name (GetManifest f) = key -> store_ok (assign key f s).
Proof.
  intros [Hnd Hnamed] Hname. split; [now rewrite map_fst_assign|].
  clear Hnd. induction Hnamed as [|[k g] s Hk Hs IH]; [constructor|].
  cbn [assign]. destruct (String.eqb_spec k key) as [-> | Hne].
  - constructor; [exact Hname | assumption].
  - constructor; assumption.
Qed.

Lemma store_ok_find (key : string) (f : ApexFile) (s : store) :
  store_ok s -> find key s = Some f -> name (GetManifest f) = key.
Proof.
  intros [_ Hnamed] H. apply find_In in H.
  rewrite Forall_forall in Hnamed. exact (Hnamed _ H).
Qed.

(* ================================================================== *)
(** * apexd: scanning the pre-installed directories *)

Section ScanFacts.

Context {sys : System}.

Lemma ScanBuiltInDir_files_keeps (files : list string)
    (r r' : ApexFileRepository) (a : Result unit) :
  ScanBuiltInDir_files files r = Returns a r' ->
  data_store_ r' = data_store_ r /\
  decompression_dir_ r' = decompression_dir_ r /\
  (forall key f,
     find key (pre_installed_store_ r) = Some f ->
     find key (pre_installed_store_ r') = Some f).
Proof.
  revert r. induction files as [|file rest IH]; intros r H.
  - cbn [ScanBuiltInDir_files] in H. injection H as _ <-. auto.
  - cbn [ScanBuiltInDir_files] in H.
    destruct (Open file) as [apex_file|e].
    2:{ injection H as _ <-. auto. }
    destruct (find (name (GetManifest apex_file)) (pre_installed_store_ r))
      as [it|] eqn:F.
    + destruct (negb (GetPath it =? GetPath apex_file)%string).
      * destruct (_ && _); [now apply IH | discriminate].
      * destruct (negb _); [discriminate | now apply IH].
    + apply IH in H. destruct H as (Hd & Hdir & Hkeep).
      cbn [with_pre_installed_store data_store_ decompression_dir_
           pre_installed_store_] in *.
      split; [exact Hd|]. split; [exact Hdir|].
      intros key f Hf. apply Hkeep. now apply find_emplace_keeps.
Qed.

Lemma ScanBuiltInDir_keeps (dir : string)
    (r r' : ApexFileRepository) (a : Result unit) :
  ScanBuiltInDir dir r = Returns a r' ->
  data_store_ r' = data_store_ r /\
  decompression_dir_ r' = decompression_dir_ r /\
  (forall key f,
     find key (pre_installed_store_ r) = Some f ->
     find key (pre_installed_store_ r') = Some f).
Proof.
  unfold ScanBuiltInDir. intros H.
  destruct (access dir);
    try (injection H as _ <-; now auto);
    (destruct (FindFilesBySuffix dir _) as [files|e];
     [now apply (ScanBuiltInDir_files_keeps files r r' a)
     | injection H as _ <-; now auto]).
Qed.

Lemma AddPreInstalledApex_keeps (dirs : list string)
    (r r' : ApexFileRepository) (a : Result unit) :
  AddPreInstalledApex dirs r = Returns a r' ->
  data_store_ r' = data_store_ r /\
  decompression_dir_ r' = decompression_dir_ r /\
  (forall key f,
     find key (pre_installed_store_ r) = Some f ->
     find key (pre_installed_store_ r') = Some f).
Proof.
  revert r. induction dirs as [|dir rest IH]; intros r H.
  - cbn [AddPreInstalledApex] in H. injection H as _ <-. auto.
  - cbn [AddPreInstalledApex] in H.
    destruct (ScanBuiltInDir dir r) as [[[]|e] r1|] eqn:S; [| |discriminate].
    + destruct (ScanBuiltInDir_keeps dir r r1 _ S) as (Hd & Hdir & Hk).
      destruct (IH r1 H) as (Hd' & Hdir' & Hk').
      split; [congruence|]. split; [congruence|].
      intros key f Hf. apply Hk'. now apply Hk.
    + injection H as _ <-. exact (ScanBuiltInDir_keeps dir r r1 _ S).
Qed.

(** X3.  A scan of built-in directories, one (ScanBuiltInDir) or several
    (AddPreInstalledApex), whether it ends well or with an error, leaves
    every pre-installed APEX that was registered as it was (the first file
    of a name stays), and touches neither the data store nor the
    decompression directory. *)
Theorem scans_keep_registered (r r' : ApexFileRepository) (a : Result unit) :
  (exists dir, ScanBuiltInDir dir r = Returns a r') \/
  (exists dirs, AddPreInstalledApex dirs r = Returns a r') ->
  data_store_ r' = data_store_ r /\
  decompression_dir_ r' = decompression_dir_ r /\
  (forall key f,
     find key (pre_installed_store_ r) = Some f ->
     find key (pre_installed_store_ r') = Some f).
Proof.
  intros [[dir H] | [dirs H]].
  - exact (ScanBuiltInDir_keeps dir r r' a H).
  - exact (AddPreInstalledApex_keeps dirs r r' a H).
Qed.

Lemma ScanBuiltInDir_files_success (files : list string)
    (r r' : ApexFileRepository) :
  ScanBuiltInDir_files files r = Returns (Success tt) r' ->
  forall file, In file files ->
  exists apex_file it,
    Open file = Success apex_file /\
    find (name (GetManifest apex_file)) (pre_installed_store_ r') = Some it /\
    tolerated it apex_file.
Proof.
  revert r. induction files as [|file rest IH]; intros r H file' Hin.
  - destruct Hin.
  - cbn [ScanBuiltInDir_files] in H.
    destruct (Open file) as [apex_file|e] eqn:O; [|discriminate].
    destruct Hin as [<- | Hin].
    + destruct (find (name (GetManifest apex_file)) (pre_installed_store_ r))
        as [it|] eqn:F.
      * exists apex_file, it. split; [exact O|].
        destruct (String.eqb_spec (GetPath it) (GetPath apex_file))
          as [Hp | Hp]; cbn [negb] in H.
        -- destruct (String.eqb_spec (GetBundledPublicKey it)
                       (GetBundledPublicKey apex_file)) as [Hk | Hk];
             cbn [negb] in H; [|discriminate].
           split; [|left; now split].
           apply (ScanBuiltInDir_files_keeps _ _ _ _ H). exact F.
        -- destruct (StartsWith _ _) eqn:V; cbn [andb] in H; [|discriminate].
           destruct (String.eqb_spec
                       (GetProperty kPlatformVersionCodenameProperty "REL")
                       "REL") as [Hr | Hr]; cbn [negb] in H; [discriminate|].
           split; [|right; now repeat split].
           apply (ScanBuiltInDir_files_keeps _ _ _ _ H). exact F.
      * exists apex_file, apex_file. split; [exact O|].
        split; [|left; now split].
        apply (ScanBuiltInDir_files_keeps _ _ _ _ H).
        cbn [with_pre_installed_store pre_installed_store_].
        now apply find_emplace_new.
    + destruct (find (name (GetManifest apex_file)) (pre_installed_store_ r))
        as [it|] eqn:F.
      * destruct (negb (GetPath it =? GetPath apex_file)%string).
        -- destruct (_ && _); [now apply (IH r) | discriminate].
        -- destruct (negb _); [discriminate | now apply (IH r)].
      * now apply (IH _ H).
Qed.

Lemma ScanBuiltInDir_success_inv (dir : string)
    (r r' : ApexFileRepository) :
  ScanBuiltInDir dir r = Returns (Success tt) r' ->
  (access dir = NoEntry /\ r' = r) \/
  (access dir <> NoEntry /\
   exists all_apex_files,
     FindFilesBySuffix dir [kApexPackageSuffix; kCompressedApexPackageSuffix]
       = Success all_apex_files /\
     forall file, In file all_apex_files ->
     exists apex_file it,
       Open file = Success apex_file /\
       find (name (GetManifest apex_file)) (pre_installed_store_ r')
         = Some it /\
       tolerated it apex_file).
Proof.
  unfold ScanBuiltInDir. intros H.
  destruct (access dir) eqn:A;
    try (injection H as <-; left; now split);
    (right; split; [discriminate|];
     destruct (FindFilesBySuffix dir _) as [files|e]; [|discriminate];
     exists files; split; [reflexivity|];
     now apply (ScanBuiltInDir_files_success files r r')).
Qed.

(** X4.  When a scan of an existing directory succeeds, every file that
    was found there opened, and the pre-installed store holds under its
    name an APEX with the same path and the same bundled public key; the
    one exception is a VNDK APEX at another path on a build whose
    codename is not REL. *)
Theorem ScanBuiltInDir_success (dir : string) (r r' : ApexFileRepository) :
  access dir <> NoEntry ->
  ScanBuiltInDir dir r = Returns (Success tt) r' ->
  exists all_apex_files,
    FindFilesBySuffix dir [kApexPackageSuffix; kCompressedApexPackageSuffix]
      = Success all_apex_files /\
    forall file, In file all_apex_files ->
    exists apex_file it,
      Open file = Success apex_file /\
      find (name (GetManifest apex_file)) (pre_installed_store_ r')
        = Some it /\
      tolerated it apex_file.
Proof.
  intros Hacc H.
  destruct (ScanBuiltInDir_success_inv dir r r' H) as [[A _] | [_ Hex]];
    [contradiction | exact Hex].
Qed.

Lemma ScanBuiltInDir_files_settled (files : list string)
    (r : ApexFileRepository) :
  (forall file, In file files ->
   exists apex_file it,
     Open file = Success apex_file /\
     find (name (GetManifest apex_file)) (pre_installed_store_ r) = Some it /\
     tolerated it apex_file) ->
  ScanBuiltInDir_files files r = Returns (Success tt) r.
Proof.
  induction files as [|file rest IH]; intros H; [reflexivity|].
  cbn [ScanBuiltInDir_files].
  destruct (H file (or_introl eq_refl)) as (apex_file & it & O & F & T).
  rewrite O, F.
  assert (Hrest : ScanBuiltInDir_files rest r = Returns (Success tt) r).
  { apply IH. intros f Hf. apply H. now right. }
  destruct T as [[Hp Hk] | (Hp & Hv & Hr)].
  - rewrite Hp, Hk, !String.eqb_refl. cbn [negb]. exact Hrest.
  - destruct (String.eqb_spec (GetPath it) (GetPath apex_file));
      [contradiction|].
    cbn [negb]. rewrite Hv.
    destruct (String.eqb_spec
                (GetProperty kPlatformVersionCodenameProperty "REL") "REL");
      [contradiction|].
    cbn [negb andb]. exact Hrest.
Qed.

(** A directory whose scan succeeded stays settled in every repository
    that keeps what the scan left registered. *)
Lemma ScanBuiltInDir_settled_later (dir : string)
    (r r1 r' : ApexFileRepository) :
  ScanBuiltInDir dir r = Returns (Success tt) r1 ->
  (forall key f,
     find key (pre_installed_store_ r1) = Some f ->
     find key (pre_installed_store_ r') = Some f) ->
  ScanBuiltInDir dir r' = Returns (Success tt) r'.
Proof.
  intros H Hk.
  destruct (ScanBuiltInDir_success_inv dir r r1 H)
    as [[A _] | [A (files & Hfind & Hall)]].
  - unfold ScanBuiltInDir. now rewrite A.
  - assert (Hloop : ScanBuiltInDir_files files r' = Returns (Success tt) r').
    { apply ScanBuiltInDir_files_settled. intros file Hin.
      destruct (Hall file Hin) as (f & it & O & F & T).
      exists f, it. split; [exact O|]. split; [now apply Hk | exact T]. }
    unfold ScanBuiltInDir. rewrite Hfind.
    destruct (access dir); [exact Hloop | contradiction | exact Hloop].
Qed.

(** X5.  Scanning is idempotent: after a scan of a directory has
    succeeded, a second scan of the same directory succeeds and changes
    nothing. *)
Theorem ScanBuiltInDir_twice (dir : string) (r r' : ApexFileRepository) :
  ScanBuiltInDir dir r = Returns (Success tt) r' ->
  ScanBuiltInDir dir r' = Returns (Success tt) r'.
Proof.
  intros H. apply (ScanBuiltInDir_settled_later dir r r' r' H). auto.
Qed.

Lemma ScanBuiltInDir_files_error (files : list string)
    (r r' : ApexFileRepository) (message : string) :
  ScanBuiltInDir_files files r = Returns (Error message) r' ->
  exists file e,
    In file files /\ Open file = Error e /\
    message = ("Failed to open " ++ file ++ " : " ++ e)%string.
Proof.
  revert r. induction files as [|file rest IH]; intros r H.
  - discriminate.
  - cbn [ScanBuiltInDir_files] in H.
    destruct (Open file) as [apex_file|e] eqn:O.
    2:{ injection H as <- _. exists file, e. split; [now left | now split]. }
    assert (Hrest : forall r0,
      ScanBuiltInDir_files rest r0 = Returns (Error message) r' ->
      exists file0 e,
        In file0 (file :: rest) /\ Open file0 = Error e /\
        message = ("Failed to open " ++ file0 ++ " : " ++ e)%string).
    { intros r0 H0. destruct (IH r0 H0) as (f0 & e & Hin & Ho & Hm).
      exists f0, e. split; [now right | now split]. }
    destruct (find (name (GetManifest apex_file)) (pre_installed_store_ r))
      as [it|].
    + destruct (negb (GetPath it =? GetPath apex_file)%string).
      * destruct (_ && _); [now apply (Hrest r) | discriminate].
      * destruct (negb _); [discriminate | now apply (Hrest r)].
    + now apply (Hrest _ H).
Qed.

(** X6.  A scan returns an error in two cases only: the listing of the
    directory failed, and the error is that of the listing, with the
    repository unchanged; or a file that was found could not be opened,
    and the message names that file. *)
Theorem ScanBuiltInDir_error (dir : string) (r r' : ApexFileRepository)
    (message : string) :
  ScanBuiltInDir dir r = Returns (Error message) r' ->
  (FindFilesBySuffix dir [kApexPackageSuffix; kCompressedApexPackageSuffix]
     = Error message /\ r' = r) \/
  (exists all_apex_files file e,
     FindFilesBySuffix dir [kApexPackageSuffix; kCompressedApexPackageSuffix]
       = Success all_apex_files /\
     In file all_apex_files /\ Open file = Error e /\
     message = ("Failed to open " ++ file ++ " : " ++ e)%string).
Proof.
  unfold ScanBuiltInDir. intros H.
  destruct (access dir); try discriminate;
    (destruct (FindFilesBySuffix dir _) as [files|e];
     [ right; destruct (ScanBuiltInDir_files_error files r r' message H)
         as (file & e & Hin & Ho & Hm);
       exists files, file, e; now repeat split
     | left; injection H as <- <-; now split ]).
Qed.

Lemma AddPreInstalledApex_app (dirs1 dirs2 : list string)
    (r : ApexFileRepository) :
  AddPreInstalledApex (dirs1 ++ dirs2) r =
  match AddPreInstalledApex dirs1 r with
  | Returns (Success _) r1 => AddPreInstalledApex dirs2 r1
  | Returns (Error e) r1 => Returns (Error e) r1
  | Aborted => Aborted
  end.
Proof.
  revert r. induction dirs1 as [|dir rest IH]; intros r; [reflexivity|].
  cbn [app AddPreInstalledApex].
  destruct (ScanBuiltInDir dir r) as [[[]|e] r1|]; [apply IH | | ];
    reflexivity.
Qed.

(** X7.  AddPreInstalledApex scans the directories in order and stops at
    the first one whose scan fails: the error is that of this scan, the
    repository is as that scan left it, and the directories after it are
    not looked at. *)
Theorem AddPreInstalledApex_stops_at_failure (before after : list string)
    (dir : string) (r r1 r2 : ApexFileRepository) (message : string) :
  AddPreInstalledApex before r = Returns (Success tt) r1 ->
  ScanBuiltInDir dir r1 = Returns (Error message) r2 ->
  AddPreInstalledApex (before ++ dir :: after) r = Returns (Error message) r2.
Proof.
  intros Hb Hs. rewrite AddPreInstalledApex_app, Hb.
  cbn [AddPreInstalledApex]. now rewrite Hs.
Qed.

End ScanFacts.

(* ================================================================== *)
(** * apexd: adding the data APEXes *)

Section DataFacts.

Context {sys : System}.

(** What one turn of the loop does. *)
Lemma AddDataApex_file_cases (file : string) (r : ApexFileRepository) :
  (AddDataApex_file file r = r /\
   forall apex_file, ~ admitted file apex_file r) \/
  (exists apex_file,
     admitted file apex_file r /\
     match find (name (GetManifest apex_file)) (data_store_ r) with
     | None =>
         AddDataApex_file file r =
         with_data_store
           (emplace (name (GetManifest apex_file)) apex_file
              (data_store_ r)) r
     | Some it =>
         if version (GetManifest it) <? version (GetManifest apex_file)
         then AddDataApex_file file r =
              with_data_store
                (assign (name (GetManifest apex_file)) apex_file
                   (data_store_ r)) r
         else AddDataApex_file file r = r
     end).
Proof.
  unfold AddDataApex_file, HasPreInstalledVersion, GetPublicKey, admitted.
  destruct (Open file) as [apex_file|e] eqn:O.
  2:{ left. split; [reflexivity|]. intros a [H _]. discriminate. }
  destruct (find (name (GetManifest apex_file)) (pre_installed_store_ r))
    as [p|] eqn:P; cbn [negb].
  2:{ left. split; [reflexivity|].
      intros a (Ha & (q & Hq & _) & _). injection Ha as <-. congruence. }
  destruct (String.eqb_spec (GetBundledPublicKey apex_file)
              (GetBundledPublicKey p)) as [K | K]; cbn [negb].
  2:{ left. split; [reflexivity|].
      intros a (Ha & (q & Hq & Hk) & _). injection Ha as <-.
      rewrite P in Hq. injection Hq as <-. contradiction. }
  destruct (EndsWith (GetPath apex_file) kDecompressedApexPackageSuffix)
    eqn:S.
  { left. split; [reflexivity|].
    intros a (Ha & _ & Hs). injection Ha as <-. congruence. }
  right. exists apex_file. split.
  { split; [reflexivity|]. split; [|exact S]. exists p. now split. }
  destruct (find (name (GetManifest apex_file)) (data_store_ r)) as [it|];
    [|reflexivity].
  destruct (version (GetManifest it) <? version (GetManifest apex_file));
    reflexivity.
Qed.

Lemma AddDataApex_file_frame (file : string) (r : ApexFileRepository) :
  pre_installed_store_ (AddDataApex_file file r) = pre_installed_store_ r /\
  decompression_dir_ (AddDataApex_file file r) = decompression_dir_ r.
Proof.
  destruct (AddDataApex_file_cases file r) as [[-> _] | (a & _ & H)];
    [now split|].
  destruct (find _ (data_store_ r)) as [it|].
  - destruct (_ <? _); rewrite H; now split.
  - rewrite H. now split.
Qed.

Lemma AddDataApex_files_frame (files : list string)
    (r : ApexFileRepository) :
  pre_installed_store_ (AddDataApex_files files r) = pre_installed_store_ r /\
  decompression_dir_ (AddDataApex_files files r) = decompression_dir_ r.
Proof.
  revert r. induction files as [|file rest IH]; intros r; [now split|].
  cbn [AddDataApex_files].
  destruct (IH (AddDataApex_file file r)) as [-> ->].
  apply AddDataApex_file_frame.
Qed.

Lemma admitted_frame (file : string) (apex_file : ApexFile)
    (r r' : ApexFileRepository) :
  pre_installed_store_ r' = pre_installed_store_ r ->
  admitted file apex_file r -> admitted file apex_file r'.
Proof. unfold admitted. intros ->. auto. Qed.

(** The entry found under a name after one turn. *)
Lemma AddDataApex_file_find (file key : string) (r : ApexFileRepository)
    (f' : ApexFile) :
  find key (data_store_ (AddDataApex_file file r)) = Some f' ->
  find key (data_store_ r) = Some f' \/
  (admitted file f' r /\ name (GetManifest f') = key /\
   forall f, find key (data_store_ r) = Some f ->
             version (GetManifest f) < version (GetManifest f')).
Proof.
  destruct (AddDataApex_file_cases file r) as [[-> _] | (a & Ha & H)];
    [now left|].
  destruct (find (name (GetManifest a)) (data_store_ r)) as [it|] eqn:F.
  - destruct (version (GetManifest it) <? version (GetManifest a)) eqn:V;
      rewrite H; [|now left].
    cbn [with_data_store data_store_].
    destruct (String.eqb_spec (name (GetManifest a)) key) as [E | E].
    + subst key. rewrite (find_assign_same _ _ it) by exact F.
      intros Hf. injection Hf as <-. right. split; [exact Ha|].
      split; [reflexivity|]. intros f Hf. rewrite F in Hf.
      injection Hf as <-. now apply Z.ltb_lt.
    + rewrite find_assign_other by exact E. now left.
  - rewrite H. cbn [with_data_store data_store_].
    destruct (String.eqb_spec (name (GetManifest a)) key) as [E | E].
    + subst key. rewrite find_emplace_new by exact F.
      intros Hf. injection Hf as <-. right. split; [exact Ha|].
      split; [reflexivity|]. intros f Hf. congruence.
    + rewrite find_emplace_other by exact E. now left.
Qed.

(** An entry is never dropped, and its version never goes down. *)
Lemma AddDataApex_file_grows (file key : string) (r : ApexFileRepository)
    (f : ApexFile) :
  find key (data_store_ r) = Some f ->
  exists f',
    find key (data_store_ (AddDataApex_file file r)) = Some f' /\
    (f' = f \/ version (GetManifest f) < version (GetManifest f')).
Proof.
  intros Hf.
  destruct (AddDataApex_file_cases file r) as [[-> _] | (a & Ha & H)].
  { exists f. split; [exact Hf | now left]. }
  destruct (find (name (GetManifest a)) (data_store_ r)) as [it|] eqn:F.
  - destruct (version (GetManifest it) <? version (GetManifest a)) eqn:V;
      rewrite H; [|exists f; split; [exact Hf | now left]].
    cbn [with_data_store data_store_].
    destruct (String.eqb_spec (name (GetManifest a)) key) as [E | E].
    + subst key. exists a. rewrite (find_assign_same _ _ it) by exact F.
      split; [reflexivity|]. rewrite F in Hf. injection Hf as <-.
      apply Z.ltb_lt in V. now right.
    + exists f. rewrite find_assign_other by exact E.
      split; [exact Hf | now left].
  - rewrite H. cbn [with_data_store data_store_].
    exists f. split; [now apply find_emplace_keeps | now left].
Qed.

Lemma AddDataApex_files_grows (files : list string) (key : string)
    (r : ApexFileRepository) (f : ApexFile) :
  find key (data_store_ r) = Some f ->
  exists f',
    find key (data_store_ (AddDataApex_files files r)) = Some f' /\
    (f' = f \/ version (GetManifest f) < version (GetManifest f')).
Proof.
  revert r f. induction files as [|file rest IH]; intros r f Hf.
  - exists f. split; [exact Hf | now left].
  - cbn [AddDataApex_files].
    destruct (AddDataApex_file_grows file key r f Hf) as (f1 & H1 & V1).
    destruct (IH _ f1 H1) as (f' & H' & V'). exists f'.
    split; [exact H'|].
    destruct V1 as [-> | V1], V' as [-> | V']; auto; right; lia.
Qed.

(** After its turn an admitted file is served by an entry of its name
    that is at least as recent. *)
Lemma AddDataApex_file_serves (file : string) (r : ApexFileRepository)
    (apex_file : ApexFile) :
  admitted file apex_file r ->
  exists f',
    find (name (GetManifest apex_file))
      (data_store_ (AddDataApex_file file r)) = Some f' /\
    version (GetManifest apex_file) <= version (GetManifest f').
Proof.
  intros Ha.
  destruct (AddDataApex_file_cases file r) as [[_ Hn] | (a & Ha' & H)].
  { exfalso. exact (Hn _ Ha). }
  assert (a = apex_file) as ->.
  { destruct Ha as [O _], Ha' as [O' _]. congruence. }
  destruct (find (name (GetManifest apex_file)) (data_store_ r))
    as [it|] eqn:F.
  - destruct (version (GetManifest it) <? version (GetManifest apex_file))
      eqn:V; rewrite H.
    + exists apex_file. cbn [with_data_store data_store_].
      rewrite (find_assign_same _ _ it) by exact F. split; [reflexivity|lia].
    + exists it. split; [exact F|]. apply Z.ltb_ge in V. lia.
  - rewrite H. exists apex_file. cbn [with_data_store data_store_].
    rewrite find_emplace_new by exact F. split; [reflexivity | lia].
Qed.

Lemma AddDataApex_files_serves (files : list string)
    (r : ApexFileRepository) (file : string) (apex_file : ApexFile) :
  In file files ->
  admitted file apex_file r ->
  exists f',
    find (name (GetManifest apex_file))
      (data_store_ (AddDataApex_files files r)) = Some f' /\
    version (GetManifest apex_file) <= version (GetManifest f').
Proof.
  revert r. induction files as [|file0 rest IH]; intros r Hin Ha.
  - destruct Hin.
  - cbn [AddDataApex_files]. destruct Hin as [-> | Hin].
    + destruct (AddDataApex_file_serves file r apex_file Ha)
        as (f1 & H1 & V1).
      destruct (AddDataApex_files_grows rest _ _ f1 H1) as (f' & H' & V').
      exists f'. split; [exact H'|]. destruct V' as [-> | V']; lia.
    + apply IH; [exact Hin|].
      apply (admitted_frame file apex_file r); [|exact Ha].
      apply AddDataApex_file_frame.
Qed.

Lemma AddDataApex_files_find (files : list string) (key : string)
    (r : ApexFileRepository) (f' : ApexFile) :
  find key (data_store_ (AddDataApex_files files r)) = Some f' ->
  find key (data_store_ r) = Some f' \/
  (exists file, In file files /\ admitted file f' r /\
                name (GetManifest f') = key).
Proof.
  revert r. induction files as [|file rest IH]; intros r H; [now left|].
  cbn [AddDataApex_files] in H. destruct (IH _ H) as [H1 | (f0 & Hin & Ha & Hn)].
  - destruct (AddDataApex_file_find file key r f' H1) as [H2 | (Ha & Hn & _)].
    + now left.
    + right. exists file. split; [now left | now split].
  - right. exists f0. split; [now right|]. split; [|exact Hn].
    apply (admitted_frame f0 f' (AddDataApex_file file r)); [|exact Ha].
    symmetry. apply AddDataApex_file_frame.
Qed.

Lemma AddDataApex_inv (data_dir : string) (r r' : ApexFileRepository)
    (a : Result unit) :
  AddDataApex data_dir r = Returns a r' ->
  r' = r \/
  exists active_apex,
    FindFilesBySuffix data_dir [kApexPackageSuffix] = Success active_apex /\
    a = Success tt /\ r' = AddDataApex_files active_apex r.
Proof.
  unfold AddDataApex. intros H.
  destruct (access data_dir);
    try (injection H as _ <-; now left);
    (destruct (FindFilesBySuffix data_dir _) as [files|e];
     [ injection H as <- <-; right; exists files; now repeat split
     | injection H as _ <-; now left ]).
Qed.

(** X9.  AddDataApex never aborts and never touches the pre-installed
    store.  It returns an error only when the listing of the directory
    fails, with the repository unchanged; files that do not open, have no
    pre-installed counterpart, carry another key or a decompressed name
    are skipped without an error. *)
Theorem AddDataApex_outcome (data_dir : string) (r : ApexFileRepository) :
  exists a r',
    AddDataApex data_dir r = Returns a r' /\
    pre_installed_store_ r' = pre_installed_store_ r /\
    decompression_dir_ r' = decompression_dir_ r /\
    (forall message,
       a = Error message ->
       access data_dir <> NoEntry /\
       FindFilesBySuffix data_dir [kApexPackageSuffix] = Error message /\
       r' = r) /\
    (access data_dir = NoEntry -> a = Success tt /\ r' = r).
Proof.
  unfold AddDataApex. destruct (access data_dir) eqn:A.
  - destruct (FindFilesBySuffix data_dir _) as [files|e].
    + exists (Success tt), (AddDataApex_files files r).
      split; [reflexivity|].
      split; [apply AddDataApex_files_frame|].
      split; [apply AddDataApex_files_frame|].
      split; [discriminate | discriminate].
    + exists (Error e), r. repeat split; try discriminate; congruence.
  - exists (Success tt), r. repeat split; try discriminate; congruence.
  - destruct (FindFilesBySuffix data_dir _) as [files|e].
    + exists (Success tt), (AddDataApex_files files r).
      split; [reflexivity|].
      split; [apply AddDataApex_files_frame|].
      split; [apply AddDataApex_files_frame|].
      split; [discriminate | discriminate].
    + exists (Error e), r. repeat split; try discriminate; congruence.
Qed.

Lemma AddDataApex_files_backed (files : list string)
    (r : ApexFileRepository) :
  data_backed r -> data_backed (AddDataApex_files files r).
Proof.
  intros Hb key f Hf.
  destruct (AddDataApex_files_frame files r) as [-> _].
  destruct (AddDataApex_files_find files key r f Hf)
    as [H0 | (file & _ & (_ & (p & Hp & Hk) & _) & Hn)].
  - now apply Hb.
  - exists p. subst key. split; [exact Hp | now symmetry].
Qed.

(** X10.  AddDataApex keeps the data store backed: if every data APEX
    had a pre-installed APEX of its name with the same bundled public key
    before the call, so it is after it. *)
Theorem AddDataApex_data_backed (data_dir : string)
    (r r' : ApexFileRepository) (a : Result unit) :
  data_backed r ->
  AddDataApex data_dir r = Returns a r' ->
  data_backed r'.
Proof.
  intros Hb H.
  destruct (AddDataApex_inv data_dir r r' a H)
    as [-> | (files & _ & _ & ->)]; [exact Hb|].
  now apply AddDataApex_files_backed.
Qed.

(** X11.  AddDataApex never stores a file whose path ends with the
    suffix of decompressed APEXes: if no data APEX had such a path before
    the call, none has after it. *)
Theorem AddDataApex_no_decompressed_suffix (data_dir : string)
    (r r' : ApexFileRepository) (a : Result unit) :
  (forall key f, find key (data_store_ r) = Some f ->
     EndsWith (GetPath f) kDecompressedApexPackageSuffix = false) ->
  AddDataApex data_dir r = Returns a r' ->
  forall key f, find key (data_store_ r') = Some f ->
    EndsWith (GetPath f) kDecompressedApexPackageSuffix = false.
Proof.
  intros Hb H.
  destruct (AddDataApex_inv data_dir r r' a H)
    as [-> | (files & _ & _ & ->)]; [exact Hb|].
  intros key f Hf.
  destruct (AddDataApex_files_find files key r f Hf)
    as [H0 | (file & _ & (_ & _ & Hs) & _)].
  - now apply (Hb key).
  - exact Hs.
Qed.

(** X12.  AddDataApex selects the highest version.  A data APEX that
    was stored stays, or gives way to one of a strictly higher version
    (of two files of one version the first stays); every file of the
    listing that is admitted is served under its name by a version at
    least as high as its own; and what the store holds in the end was
    there before or is an admitted file of the listing. *)
Theorem AddDataApex_highest_version (data_dir : string)
    (r r' : ApexFileRepository) (active_apex : list string) :
  access data_dir <> NoEntry ->
  FindFilesBySuffix data_dir [kApexPackageSuffix] = Success active_apex ->
  AddDataApex data_dir r = Returns (Success tt) r' ->
  (forall key f,
     find key (data_store_ r) = Some f ->
     exists f',
       find key (data_store_ r') = Some f' /\
       (f' = f \/ version (GetManifest f) < version (GetManifest f'))) /\
  (forall file apex_file,
     In file active_apex ->
     admitted file apex_file r ->
     exists f',
       find (name (GetManifest apex_file)) (data_store_ r') = Some f' /\
       version (GetManifest apex_file) <= version (GetManifest f')) /\
  (forall key f',
     find key (data_store_ r') = Some f' ->
     find key (data_store_ r) = Some f' \/
     exists file,
       In file active_apex /\ admitted file f' r /\
       name (GetManifest f') = key).
Proof.
  intros A Hfind H. unfold AddDataApex in H. rewrite Hfind in H.
  assert (Hr : r' = AddDataApex_files active_apex r).
  { destruct (access data_dir); try contradiction;
      injection H as <-; reflexivity. }
  subst r'. split; [|split].
  - intros key f Hf. now apply AddDataApex_files_grows.
  - intros file apex_file Hin Ha.
    now apply (AddDataApex_files_serves active_apex r file).
  - intros key f' Hf. now apply AddDataApex_files_find.
Qed.

Lemma AddDataApex_files_settled (files : list string)
    (r : ApexFileRepository) :
  (forall file apex_file,
     In file files -> admitted file apex_file r ->
     exists f',
       find (name (GetManifest apex_file)) (data_store_ r) = Some f' /\
       version (GetManifest apex_file) <= version (GetManifest f')) ->
  AddDataApex_files files r = r.
Proof.
  induction files as [|file rest IH]; intros H; [reflexivity|].
  cbn [AddDataApex_files].
  assert (E : AddDataApex_file file r = r).
  { destruct (AddDataApex_file_cases file r) as [[E _] | (a & Ha & Hc)];
      [exact E|].
    destruct (H file a (or_introl eq_refl) Ha) as (f' & Hf & Hv).
    rewrite Hf in Hc.
    destruct (version (GetManifest f') <? version (GetManifest a)) eqn:V;
      [apply Z.ltb_lt in V; lia | exact Hc]. }
  rewrite E. apply IH. intros f a Hin Ha. apply (H f a); [now right|exact Ha].
Qed.

(** X13.  AddDataApex is idempotent: a second call on the same directory
    leaves the repository as the first call left it. *)
Theorem AddDataApex_twice (data_dir : string) (r r' : ApexFileRepository)
    (a : Result unit) :
  AddDataApex data_dir r = Returns a r' ->
  AddDataApex data_dir r' = Returns a r'.
Proof.
  intros H. unfold AddDataApex in *.
  destruct (access data_dir) eqn:A;
    try (injection H as <- <-; reflexivity);
    (destruct (FindFilesBySuffix data_dir _) as [files|e] eqn:Hfind;
     [|injection H as <- <-; reflexivity];
     injection H as <- <-; f_equal;
     apply AddDataApex_files_settled;
     intros file apex_file Hin Ha;
     apply (AddDataApex_files_serves files r file apex_file Hin);
     apply (admitted_frame file apex_file (AddDataApex_files files r));
     [symmetry; apply AddDataApex_files_frame | exact Ha]).
Qed.

End DataFacts.

(* ================================================================== *)
(** * apexd: the stores stay keyed by name *)

Section StoreInvariant.

Context {sys : System}.

Lemma ScanBuiltInDir_files_ok (files : list string)
    (r r' : ApexFileRepository) (a : Result unit) :
  repository_ok r ->
  ScanBuiltInDir_files files r = Returns a r' ->
  repository_ok r'.
Proof.
  revert r. induction files as [|file rest IH]; intros r Hok H.
  - cbn [ScanBuiltInDir_files] in H. injection H as _ <-. exact Hok.
  - cbn [ScanBuiltInDir_files] in H.
    destruct (Open file) as [apex_file|e].
    2:{ injection H as _ <-. exact Hok. }
    destruct (find (name (GetManifest apex_file)) (pre_installed_store_ r))
      as [it|] eqn:F.
    + destruct (negb (GetPath it =? GetPath apex_file)%string).
      * destruct (_ && _); [now apply (IH r) | discriminate].
      * destruct (negb _); [discriminate | now apply (IH r)].
    + refine (IH _ _ H). destruct Hok as [Hp Hd].
      split; [|exact Hd]. cbn [with_pre_installed_store pre_installed_store_].
      now apply store_ok_emplace.
Qed.

Lemma ScanBuiltInDir_ok (dir : string) (r r' : ApexFileRepository)
    (a : Result unit) :
  repository_ok r -> ScanBuiltInDir dir r = Returns a r' -> repository_ok r'.
Proof.
  unfold ScanBuiltInDir. intros Hok H.
  destruct (access dir);
    try (injection H as _ <-; exact Hok);
    (destruct (FindFilesBySuffix dir _) as [files|e];
     [now apply (ScanBuiltInDir_files_ok files r r' a)
     | injection H as _ <-; exact Hok]).
Qed.

Lemma AddPreInstalledApex_ok (dirs : list string)
    (r r' : ApexFileRepository) (a : Result unit) :
  repository_ok r ->
  AddPreInstalledApex dirs r = Returns a r' ->
  repository_ok r'.
Proof.
  revert r. induction dirs as [|dir rest IH]; intros r Hok H.
  - cbn [AddPreInstalledApex] in H. injection H as _ <-. exact Hok.
  - cbn [AddPreInstalledApex] in H.
    destruct (ScanBuiltInDir dir r) as [[[]|e] r1|] eqn:S; [| |discriminate].
    + apply (IH r1); [|exact H]. exact (ScanBuiltInDir_ok dir r r1 _ Hok S).
    + injection H as _ <-. exact (ScanBuiltInDir_ok dir r r1 _ Hok S).
Qed.

Lemma AddBlockApex_apexes_ok (disk_path : string) (i : Z)
    (apexes : list ApexSignature) (r r' : ApexFileRepository)
    (a : Result unit) :
  repository_ok r ->
  AddBlockApex_apexes disk_path i apexes r = Returns a r' ->
  repository_ok r'.
Proof.
  revert i r. induction apexes as [|s rest IH]; intros i r Hok H.
  - cbn [AddBlockApex_apexes] in H. injection H as _ <-. exact Hok.
  - cbn [AddBlockApex_apexes] in H.
    destruct (OpenWithSize _ _) as [apex_file|e].
    2:{ injection H as _ <-. exact Hok. }
    destruct (_ && _).
    { injection H as _ <-. exact Hok. }
    destruct (find (name (GetManifest apex_file)) (pre_installed_store_ r))
      as [it|] eqn:F.
    { injection H as _ <-. exact Hok. }
    refine (IH _ _ _ H). destruct Hok as [Hp Hd].
    split; [|exact Hd]. cbn [with_pre_installed_store pre_installed_store_].
    now apply store_ok_emplace.
Qed.

Lemma AddBlockApex_ok (signature_partition : string)
    (r r' : ApexFileRepository) (a : Result unit) :
  repository_ok r ->
  AddBlockApex signature_partition r = Returns a r' ->
  repository_ok r'.
Proof.
  unfold AddBlockApex. intros Hok H.
  destruct (access signature_partition);
    try (injection H as _ <-; exact Hok);
    (destruct (Realpath signature_partition) as [real|];
     [|injection H as _ <-; exact Hok];
     destruct (ConsumeSuffix real "1") as [disk|];
     [|injection H as _ <-; exact Hok];
     destruct (ReadMicrodroidSignature real) as [sig|e];
     [|injection H as _ <-; exact Hok];
     now apply (AddBlockApex_apexes_ok disk 0 sig r r' a)).
Qed.

Lemma AddDataApex_file_ok (file : string) (r : ApexFileRepository) :
  repository_ok r -> repository_ok (AddDataApex_file file r).
Proof.
  intros [Hp Hd].
  destruct (AddDataApex_file_cases file r) as [[-> _] | (a & _ & H)];
    [now split|].
  destruct (find (name (GetManifest a)) (data_store_ r)) as [it|].
  - destruct (_ <? _); rewrite H; [|now split].
    split; [exact Hp|]. cbn [with_data_store data_store_].
    now apply store_ok_assign.
  - rewrite H. split; [exact Hp|]. cbn [with_data_store data_store_].
    now apply store_ok_emplace.
Qed.

Lemma AddDataApex_files_ok (files : list string) (r : ApexFileRepository) :
  repository_ok r -> repository_ok (AddDataApex_files files r).
Proof.
  revert r. induction files as [|file rest IH]; intros r Hok; [exact Hok|].
  cbn [AddDataApex_files]. apply IH. now apply AddDataApex_file_ok.
Qed.

(** X14.  Every call that fills the repository keeps it well keyed: each
    store has one entry per key, and every APEX is stored under the name
    of its own manifest.  This holds for ScanBuiltInDir,
    AddPreInstalledApex, AddBlockApex and AddDataApex, whether they end
    well or with an error. *)
Theorem repository_stays_keyed_by_name (r r' : ApexFileRepository)
    (a : Result unit) :
  repository_ok r ->
  (forall dir, ScanBuiltInDir dir r = Returns a r' -> repository_ok r') /\
  (forall dirs, AddPreInstalledApex dirs r = Returns a r' ->
                repository_ok r') /\
  (forall partition, AddBlockApex partition r = Returns a r' ->
                     repository_ok r') /\
  (forall data_dir, AddDataApex data_dir r = Returns a r' ->
                    repository_ok r').
Proof.
  intros Hok. split; [|split; [|split]].
  - intros dir. now apply ScanBuiltInDir_ok.
  - intros dirs. now apply AddPreInstalledApex_ok.
  - intros partition. now apply AddBlockApex_ok.
  - intros data_dir H.
    destruct (AddDataApex_inv data_dir r r' a H)
      as [-> | (files & _ & _ & ->)]; [exact Hok|].
    now apply AddDataApex_files_ok.
Qed.

(* ================================================================== *)
(** * apexd: looking an APEX up *)

(** X15.  The lookups by name agree.  For a name that is not registered
    HasPreInstalledVersion is false, GetPublicKey and GetPreinstalledPath
    return their error naming the package, GetPreInstalledApex is aborted
    by its CHECK, and no APEX of that name counts as pre-installed.  For a
    name registered with an APEX they all answer with that APEX:
    HasPreInstalledVersion is true, GetPublicKey returns its key,
    GetPreinstalledPath its path, GetPreInstalledApex the APEX itself,
    which counts as pre-installed. *)
Theorem pre_installed_lookups_agree (package : string)
    (r : ApexFileRepository) :
  store_ok (pre_installed_store_ r) ->
  (~ In package (map fst (pre_installed_store_ r)) ->
   HasPreInstalledVersion package r = false /\
   GetPublicKey package r =
     Error ("No preinstalled apex found for package " ++ package)%string /\
   GetPreinstalledPath package r =
     Error ("No preinstalled data found for package " ++ package)%string /\
   GetPreInstalledApex package r = Aborted /\
   forall apex, name (GetManifest apex) = package ->
                IsPreInstalledApex apex r = false) /\
  (forall it,
     In (package, it) (pre_installed_store_ r) ->
     HasPreInstalledVersion package r = true /\
     GetPublicKey package r = Success (GetBundledPublicKey it) /\
     GetPreinstalledPath package r = Success (GetPath it) /\
     GetPreInstalledApex package r = Returns it r /\
     IsPreInstalledApex it r = true).
Proof.
  intros Hok.
  unfold HasPreInstalledVersion, GetPublicKey, GetPreinstalledPath,
    GetPreInstalledApex, IsPreInstalledApex.
  split.
  - intros Hnot. apply find_None in Hnot. rewrite Hnot.
    repeat split. intros apex <-. now rewrite Hnot.
  - intros it Hin.
    assert (F : find package (pre_installed_store_ r) = Some it)
      by (apply In_find; [apply Hok | exact Hin]).
    rewrite F. repeat split.
    rewrite (store_ok_find package it _ Hok F), F.
    now rewrite String.eqb_refl.
Qed.

(** Every APEX held in the pre-installed store counts as pre-installed,
    and GetPreInstalledApex under its name returns it. *)
Lemma stored_apex_is_pre_installed (key : string) (apex : ApexFile)
    (r : ApexFileRepository) :
  store_ok (pre_installed_store_ r) ->
  In (key, apex) (pre_installed_store_ r) ->
  IsPreInstalledApex apex r = true /\
  GetPreInstalledApex (name (GetManifest apex)) r = Returns apex r.
Proof.
  intros Hok Hin.
  assert (F : find key (pre_installed_store_ r) = Some apex)
    by (apply In_find; [apply Hok | exact Hin]).
  pose proof (store_ok_find key apex _ Hok F) as Hn.
  unfold IsPreInstalledApex, GetPreInstalledApex. rewrite Hn, F.
  split; [|reflexivity]. now rewrite String.eqb_refl.
Qed.

Lemma find_path_Some (full_path : string) (s : store) (apex : ApexFile) :
  find_path full_path s = Some apex ->
  In apex (map snd s) /\ GetPath apex = full_path.
Proof.
  induction s as [|[k f] s IH]; cbn [find_path map snd]; [discriminate|].
  destruct (String.eqb_spec (GetPath f) full_path) as [E | E]; intros H.
  - injection H as <-. split; [now left | exact E].
  - destruct (IH H) as [Hin Hp]. split; [now right | exact Hp].
Qed.

Lemma find_path_None (full_path : string) (s : store) :
  find_path full_path s = None <->
  forall apex, In apex (map snd s) -> GetPath apex <> full_path.
Proof.
  induction s as [|[k f] s IH]; cbn [find_path map snd].
  - split; [intros _ apex [] | reflexivity].
  - destruct (String.eqb_spec (GetPath f) full_path) as [E | E].
    + split; [discriminate|]. intros H. exfalso.
      apply (H f); [now left | exact E].
    + rewrite IH. split.
      * intros H apex [<- | Hin]; [exact E | now apply H].
      * intros H apex Hin. apply H. now right.
Qed.

(** X16.  GetApexFile answers with an APEX of the repository whose path
    is the one asked for, a pre-installed one when there is one, and with
    nothing exactly when no APEX of either store has that path. *)
Theorem GetApexFile_by_path (full_path : string) (r : ApexFileRepository) :
  (forall apex,
     GetApexFile full_path r = Some apex ->
     GetPath apex = full_path /\
     (In apex (GetPreInstalledApexFiles r) \/
      (In apex (GetDataApexFiles r) /\
       forall p, In p (GetPreInstalledApexFiles r) ->
                 GetPath p <> full_path))) /\
  (GetApexFile full_path r = None <->
   forall apex,
     In apex (GetPreInstalledApexFiles r ++ GetDataApexFiles r) ->
     GetPath apex <> full_path).
Proof.
  unfold GetApexFile, GetPreInstalledApexFiles, GetDataApexFiles. split.
  - intros apex H.
    destruct (find_path full_path (pre_installed_store_ r)) as [p|] eqn:P.
    + injection H as <-. destruct (find_path_Some _ _ _ P) as [Hin Hp].
      split; [exact Hp | now left].
    + destruct (find_path_Some _ _ _ H) as [Hin Hp].
      split; [exact Hp|]. right. split; [exact Hin|].
      now apply find_path_None.
  - destruct (find_path full_path (pre_installed_store_ r)) as [p|] eqn:P.
    + split; [discriminate|]. intros H. exfalso.
      destruct (find_path_Some _ _ _ P) as [Hin Hp].
      apply (H p); [apply in_or_app; now left | exact Hp].
    + rewrite find_path_None. rewrite find_path_None in P. split.
      * intros H apex Hin. apply in_app_or in Hin as [Hin | Hin]; auto.
      * intros H apex Hin. apply H. apply in_or_app. now right.
Qed.

End StoreInvariant.

(* ================================================================== *)
(** * apexd: grouping by name *)

Section GroupFacts.

Context {sys : System}.

Lemma find_set_group_same (key : string) (fs : list ApexFile) (g : groups) :
  find_group key (set_group key fs g) = Some fs.
Proof.
  induction g as [|[k old] g IH]; cbn [set_group find_group].
  - now rewrite String.eqb_refl.
  - destruct (k =? key)%string eqn:E; cbn [find_group]; rewrite E; auto.
Qed.

Lemma find_set_group_other (key key' : string) (fs : list ApexFile)
    (g : groups) :
  key <> key' -> find_group key' (set_group key fs g) = find_group key' g.
Proof.
  intros Hne. induction g as [|[k old] g IH]; cbn [set_group find_group].
  - destruct (String.eqb_spec key key'); [contradiction | reflexivity].
  - destruct (String.eqb_spec k key) as [-> | Hk]; cbn [find_group].
    + destruct (String.eqb_spec key key'); [contradiction | reflexivity].
    + destruct (k =? key')%string; [reflexivity | exact IH].
Qed.

Lemma find_push_group_same (key : string) (f : ApexFile) (g : groups) :
  find_group key (push_group key f g) =
  Some (match find_group key g with
        | Some fs => fs ++ [f]
        | None => [f]
        end).
Proof.
  induction g as [|[k fs] g IH]; cbn [push_group find_group].
  - now rewrite String.eqb_refl.
  - destruct (k =? key)%string eqn:E; cbn [find_group]; rewrite E; auto.
Qed.

Lemma find_push_group_other (key key' : string) (f : ApexFile) (g : groups) :
  key <> key' -> find_group key' (push_group key f g) = find_group key' g.
Proof.
  intros Hne. induction g as [|[k fs] g IH]; cbn [push_group find_group].
  - destruct (String.eqb_spec key key'); [contradiction | reflexivity].
  - destruct (String.eqb_spec k key) as [-> | Hk]; cbn [find_group].
    + destruct (String.eqb_spec key key'); [contradiction | reflexivity].
    + destruct (k =? key')%string; [reflexivity | exact IH].
Qed.

Lemma find_group_one (package : string) (g : groups) (f : ApexFile) :
  find_group package (group_one g f) =
  if (name (GetManifest f) =? package)%string
  then Some (match find_group package g with
             | Some fs => fs ++ [f]
             | None => [f]
             end)
  else find_group package g.
Proof.
  unfold group_one.
  destruct (String.eqb_spec (name (GetManifest f)) package) as [<- | Hne].
  - rewrite find_push_group_same.
    destruct (find_group (name (GetManifest f)) g) as [fs|] eqn:F.
    + now rewrite F.
    + now rewrite find_set_group_same.
  - rewrite find_push_group_other by exact Hne.
    destruct (find_group (name (GetManifest f)) g); [reflexivity|].
    now apply find_set_group_other.
Qed.

Lemma find_group_fold (package : string) (files : list ApexFile)
    (g : groups) :
  find_group package (fold_left group_one files g) =
  match find_group package g with
  | Some fs => Some (fs ++ named package files)
  | None =>
      match named package files with
      | [] => None
      | f :: fs => Some (f :: fs)
      end
  end.
Proof.
  revert g. induction files as [|f files IH]; intros g.
  - cbn [fold_left named filter].
    destruct (find_group package g); [now rewrite app_nil_r | reflexivity].
  - cbn [fold_left]. rewrite IH, find_group_one. unfold named.
    cbn [filter].
    destruct (name (GetManifest f) =? package)%string.
    + destruct (find_group package g) as [fs|].
      * now rewrite <- app_assoc.
      * reflexivity.
    + reflexivity.
Qed.

Lemma named_store (package : string) (s : store) :
  store_ok s ->
  named package (map snd s) =
  match find package s with
  | Some f => [f]
  | None => []
  end.
Proof.
  intros [Hnd Hnamed]. induction s as [|[k f] s IH]; [reflexivity|].
  inversion Hnd as [|? ? Hnotin Hnd']; subst.
  inversion Hnamed as [|? ? Hk Hrest]; subst. cbn [fst snd] in Hk.
  unfold named in *. cbn [map snd filter find]. rewrite Hk.
  destruct (String.eqb_spec k package) as [-> | Hne].
  - f_equal. rewrite (IH Hnd' Hrest).
    destruct (find package s) eqn:F; [|reflexivity].
    exfalso. apply Hnotin. apply find_In in F.
    apply (in_map fst) in F. exact F.
  - now apply IH.
Qed.

(** X17.  AllApexFilesByName puts under each name exactly the APEXes of
    that name, all of them, the pre-installed ones before the data ones,
    and has no group for a name no APEX carries.  In a repository keyed by
    name a group is the pre-installed APEX of the name, then its data
    APEX. *)
Theorem AllApexFilesByName_groups (package : string)
    (r : ApexFileRepository) :
  find_group package (AllApexFilesByName r) =
    match named package (GetPreInstalledApexFiles r ++ GetDataApexFiles r)
    with
    | [] => None
    | f :: fs => Some (f :: fs)
    end /\
  (repository_ok r ->
   find_group package (AllApexFilesByName r) =
     match find package (pre_installed_store_ r),
           find package (data_store_ r) with
     | Some p, Some d => Some [p; d]
     | Some p, None => Some [p]
     | None, Some d => Some [d]
     | None, None => None
     end).
Proof.
  assert (H : find_group package (AllApexFilesByName r) =
    match named package (GetPreInstalledApexFiles r ++ GetDataApexFiles r)
    with
    | [] => None
    | f :: fs => Some (f :: fs)
    end).
  { unfold AllApexFilesByName. now rewrite find_group_fold. }
  split; [exact H|]. intros [Hp Hd]. rewrite H.
  unfold named, GetPreInstalledApexFiles, GetDataApexFiles.
  rewrite filter_app.
  change (filter _ (map snd (pre_installed_store_ r)))
    with (named package (map snd (pre_installed_store_ r))).
  change (filter _ (map snd (data_store_ r)))
    with (named package (map snd (data_store_ r))).
  rewrite (named_store package _ Hp), (named_store package _ Hd).
  destruct (find package (pre_installed_store_ r)),
           (find package (data_store_ r)); reflexivity.
Qed.

End GroupFacts.

(* ================================================================== *)
(** * apexd: the directories stay scanned *)

Section SettledFacts.

Context {sys : System}.

(** X8.  After AddPreInstalledApex has succeeded on a list of
    directories, every one of them is settled: a later scan of any of
    them succeeds and changes nothing, and so does a second
    AddPreInstalledApex on the whole list. *)
Theorem AddPreInstalledApex_settles (dirs : list string)
    (r r' : ApexFileRepository) :
  AddPreInstalledApex dirs r = Returns (Success tt) r' ->
  (forall dir, In dir dirs ->
               ScanBuiltInDir dir r' = Returns (Success tt) r') /\
  AddPreInstalledApex dirs r' = Returns (Success tt) r'.
Proof.
  intros H.
  assert (Hall : forall dir, In dir dirs ->
                 ScanBuiltInDir dir r' = Returns (Success tt) r').
  { revert r H. induction dirs as [|dir rest IH]; intros r H d Hin.
    - destruct Hin.
    - cbn [AddPreInstalledApex] in H.
      destruct (ScanBuiltInDir dir r) as [[[]|e] r1|] eqn:S;
        [|discriminate|discriminate].
      destruct Hin as [<- | Hin]; [|now apply (IH r1)].
      apply (ScanBuiltInDir_settled_later dir r r1 r' S).
      apply (AddPreInstalledApex_keeps rest r1 r' _ H). }
  split; [exact Hall|].
  clear H. induction dirs as [|dir rest IH]; [reflexivity|].
  cbn [AddPreInstalledApex]. rewrite (Hall dir (or_introl eq_refl)).
  apply IH. intros d Hin. apply Hall. now right.
Qed.

End SettledFacts.

(* ================================================================== *)
(** * apexd: the APEXes of a block device *)

Section BlockFacts.

Context {sys : System}.

Lemma length_emplace_new (key : string) (f : ApexFile) (s : store) :
  find key s = None -> List.length (emplace key f s) = S (List.length s).
Proof.
  intros H. unfold emplace. rewrite H, length_app. cbn [List.length]. lia.
Qed.

Lemma AddBlockApex_apexes_success (disk_path : string)
    (apexes : list ApexSignature) (i : Z) (r r' : ApexFileRepository) :
  AddBlockApex_apexes disk_path i apexes r = Returns (Success tt) r' ->
  data_store_ r' = data_store_ r /\
  decompression_dir_ r' = decompression_dir_ r /\
  (forall key f,
     find key (pre_installed_store_ r) = Some f ->
     find key (pre_installed_store_ r') = Some f) /\
  List.length (pre_installed_store_ r') =
    (List.length (pre_installed_store_ r) + List.length apexes)%nat /\
  (forall n apex_signature,
     nth_error apexes n = Some apex_signature ->
     exists apex_file,
       OpenWithSize (disk_path ++ to_string (i + Z.of_nat n + 2))%string
         (size apex_signature) = Success apex_file /\
       find (name (GetManifest apex_file)) (pre_installed_store_ r) = None /\
       find (name (GetManifest apex_file)) (pre_installed_store_ r')
         = Some apex_file /\
       (publickey apex_signature = ""%string \/
        publickey apex_signature = GetBundledPublicKey apex_file)).
Proof.
  revert i r. induction apexes as [|s rest IH]; intros i r H.
  - cbn [AddBlockApex_apexes] in H. injection H as <-.
    repeat split; auto. intros [|n] sig Hn; discriminate.
  - cbn [AddBlockApex_apexes] in H. unfold kFirstApexPartition in H.
    destruct (OpenWithSize (disk_path ++ to_string (i + 2))%string (size s))
      as [apex_file|e] eqn:O; [|discriminate].
    destruct (negb (publickey s =? "")%string &&
              negb (publickey s =? GetBundledPublicKey apex_file)%string)
      eqn:K; [discriminate|].
    destruct (find (name (GetManifest apex_file)) (pre_installed_store_ r))
      as [it|] eqn:F; [discriminate|].
    destruct (IH _ _ H) as (Hd & Hdir & Hkeep & Hlen & Hall).
    cbn [with_pre_installed_store data_store_ decompression_dir_
         pre_installed_store_] in *.
    split; [exact Hd|]. split; [exact Hdir|]. split; [|split].
    + intros key f Hf. apply Hkeep. now apply find_emplace_keeps.
    + rewrite Hlen, length_emplace_new by exact F. cbn [List.length]. lia.
    + intros [|n] sig Hn; cbn [nth_error] in Hn.
      * injection Hn as <-. exists apex_file.
        replace (i + Z.of_nat 0 + 2) with (i + 2) by lia.
        split; [exact O|]. split; [exact F|]. split.
        -- apply Hkeep. now apply find_emplace_new.
        -- apply andb_false_iff in K as [K | K];
             apply negb_false_iff, String.eqb_eq in K; auto.
      * destruct (Hall n sig Hn) as (f & Of & Fnew & Ffin & Hk).
        exists f.
        replace (i + Z.of_nat (S n) + 2) with (i + 1 + Z.of_nat n + 2)
          by lia.
        split; [exact Of|]. split; [|now split].
        destruct (find (name (GetManifest f)) (pre_installed_store_ r))
          as [g|] eqn:G; [|reflexivity].
        rewrite (find_emplace_keeps _ _ _ g) in Fnew by exact G.
        discriminate.
Qed.

Lemma AddBlockApex_apexes_returns (disk_path : string)
    (apexes : list ApexSignature) (i : Z) (r : ApexFileRepository) :
  exists a r', AddBlockApex_apexes disk_path i apexes r = Returns a r'.
Proof.
  revert i r. induction apexes as [|s rest IH]; intros i r;
    cbn [AddBlockApex_apexes]; [eauto|].
  destruct (OpenWithSize _ _) as [apex_file|e]; [|eauto].
  destruct (_ && _); [eauto|].
  destruct (find _ _); [eauto | apply IH].
Qed.

Lemma AddBlockApex_inv (signature_partition : string)
    (r r' : ApexFileRepository) (a : Result unit) :
  AddBlockApex signature_partition r = Returns a r' ->
  (a = Success tt /\ r' = r) \/
  exists signature_realpath disk_path signature,
    Realpath signature_partition = Some signature_realpath /\
    ConsumeSuffix signature_realpath "1" = Some disk_path /\
    ReadMicrodroidSignature signature_realpath = Success signature /\
    AddBlockApex_apexes disk_path 0 signature r = Returns a r'.
Proof.
  unfold AddBlockApex. intros H.
  destruct (access signature_partition);
    try (injection H as <- <-; left; now split);
    (destruct (Realpath signature_partition) as [real|] eqn:Hreal;
     [|injection H as <- <-; left; now split];
     destruct (ConsumeSuffix real "1") as [disk|] eqn:Hdisk;
     [|injection H as <- <-; left; now split];
     destruct (ReadMicrodroidSignature real) as [sig|e] eqn:Hsig;
     [|injection H as <- <-; left; now split];
     right; exists real, disk, sig; now repeat split).
Qed.

(** X18.  AddBlockApex never aborts.  It skips, returning success and
    leaving the repository as it was, when the partition does not exist,
    or has no real path, or its real path does not end with "1", or no
    signature can be read from it.  In every other case it is the loop
    over the entries of the signature, and when that succeeds it has
    registered one APEX per entry: entry i was opened from the disk path
    followed by the decimal i + 2, with the size the signature gives, its
    name was not registered before, its key is the one the signature names
    when it names one, and it is now found under its name.  APEXes
    registered before are kept and the data store is not touched. *)
Theorem AddBlockApex_registers (signature_partition : string)
    (r : ApexFileRepository) :
  (exists a r', AddBlockApex signature_partition r = Returns a r') /\
  (access signature_partition = NoEntry \/
   Realpath signature_partition = None \/
   (exists signature_realpath,
      Realpath signature_partition = Some signature_realpath /\
      (ConsumeSuffix signature_realpath "1" = None \/
       exists e, ReadMicrodroidSignature signature_realpath = Error e)) ->
   AddBlockApex signature_partition r = Returns (Success tt) r) /\
  (forall signature_realpath disk_path signature,
     access signature_partition <> NoEntry ->
     Realpath signature_partition = Some signature_realpath ->
     ConsumeSuffix signature_realpath "1" = Some disk_path ->
     ReadMicrodroidSignature signature_realpath = Success signature ->
     AddBlockApex signature_partition r =
       AddBlockApex_apexes disk_path 0 signature r /\
     forall r',
       AddBlockApex signature_partition r = Returns (Success tt) r' ->
       data_store_ r' = data_store_ r /\
       (forall key f,
          find key (pre_installed_store_ r) = Some f ->
          find key (pre_installed_store_ r') = Some f) /\
       List.length (pre_installed_store_ r') =
         (List.length (pre_installed_store_ r) + List.length signature)%nat /\
       forall n apex_signature,
         nth_error signature n = Some apex_signature ->
         exists apex_file,
           OpenWithSize (disk_path ++ to_string (Z.of_nat n + 2))%string
             (size apex_signature) = Success apex_file /\
           find (name (GetManifest apex_file)) (pre_installed_store_ r)
             = None /\
           find (name (GetManifest apex_file)) (pre_installed_store_ r')
             = Some apex_file /\
           (publickey apex_signature = ""%string \/
            publickey apex_signature = GetBundledPublicKey apex_file)).
Proof.
  split; [|split].
  - unfold AddBlockApex.
    destruct (access signature_partition); eauto;
      (destruct (Realpath signature_partition) as [real|]; [|eauto];
       destruct (ConsumeSuffix real "1") as [disk|]; [|eauto];
       destruct (ReadMicrodroidSignature real) as [sig|e]; [|eauto];
       apply AddBlockApex_apexes_returns).
  - unfold AddBlockApex.
    intros [Hacc | [Hreal | (real & Hreal & [Hdisk | [e Hsig]])]].
    + now rewrite Hacc.
    + rewrite Hreal. now destruct (access signature_partition).
    + rewrite Hreal, Hdisk. now destruct (access signature_partition).
    + rewrite Hreal, Hsig.
      destruct (access signature_partition); [|reflexivity|];
        now destruct (ConsumeSuffix real "1").
  - intros real disk sig Hacc Hreal Hdisk Hsig.
    assert (Heq : AddBlockApex signature_partition r =
                  AddBlockApex_apexes disk 0 sig r).
    { unfold AddBlockApex. rewrite Hreal, Hdisk, Hsig.
      destruct (access signature_partition);
        [reflexivity | contradiction | reflexivity]. }
    split; [exact Heq|].
    intros r' H. rewrite Heq in H.
    destruct (AddBlockApex_apexes_success disk sig 0 r r' H)
      as (Hd & _ & Hkeep & Hlen & Hall).
    split; [exact Hd|]. split; [exact Hkeep|]. split; [exact Hlen|].
    exact Hall.
Qed.

(** X19.  AddBlockApex is not repeatable: once the APEXes of a signature
    that lists at least one have been registered, a second call on the
    same partition returns the error naming the first of them as a
    duplicate, and registers nothing. *)
Theorem AddBlockApex_twice (signature_partition signature_realpath
    disk_path : string) (first : ApexSignature) (others : list ApexSignature)
    (r r' : ApexFileRepository) :
  access signature_partition <> NoEntry ->
  Realpath signature_partition = Some signature_realpath ->
  ConsumeSuffix signature_realpath "1" = Some disk_path ->
  ReadMicrodroidSignature signature_realpath = Success (first :: others) ->
  AddBlockApex signature_partition r = Returns (Success tt) r' ->
  exists apex_file,
    OpenWithSize (disk_path ++ to_string 2)%string (size first)
      = Success apex_file /\
    AddBlockApex signature_partition r' =
      Returns (Error ("duplicate found in " ++ GetPath apex_file)%string) r'.
Proof.
  intros A Hreal Hdisk Hsig H.
  assert (Hloop : AddBlockApex_apexes disk_path 0 (first :: others) r
                  = Returns (Success tt) r').
  { unfold AddBlockApex in H. rewrite Hreal, Hdisk, Hsig in H.
    destruct (access signature_partition); [exact H | contradiction | exact H]. }
  destruct (AddBlockApex_apexes_success _ _ _ _ _ Hloop)
    as (_ & _ & _ & _ & Hall).
  destruct (Hall 0%nat first eq_refl) as (f & O & _ & F & K).
  change (0 + Z.of_nat 0 + 2) with 2 in O.
  exists f. split; [exact O|].
  assert (Hagain : AddBlockApex_apexes disk_path 0 (first :: others) r' =
    Returns (Error ("duplicate found in " ++ GetPath f)%string) r').
  { cbn [AddBlockApex_apexes]. unfold kFirstApexPartition.
    change (0 + 2) with 2. rewrite O, F.
    destruct K as [K | K]; rewrite K.
    - cbn [String.eqb negb andb]. reflexivity.
    - rewrite String.eqb_refl. cbn [negb]. rewrite andb_false_r.
      reflexivity. }
  unfold AddBlockApex. rewrite Hreal, Hdisk, Hsig.
  destruct (access signature_partition);
    [exact Hagain | contradiction | exact Hagain].
Qed.

End BlockFacts.

(* ================================================================== *)
(** * apexd: staging an install hook *)

Section StageFacts.

Context {sys : System}.

Lemma find_hook_seen (fn : ApexManifest -> string) (apexes : list ApexFile)
    (i hook_idx : Z) :
  hook_idx <> -1 ->
  find_hook fn apexes i hook_idx =
  if existsb (has_hook fn) apexes then MultipleHooks else HookAt hook_idx.
Proof.
  intros Hh. revert i. induction apexes as [|apex rest IH]; intros i;
    [reflexivity|].
  cbn [find_hook existsb]. fold (has_hook fn apex).
  destruct (has_hook fn apex); cbn [orb].
  - destruct (Z.eqb_spec hook_idx (-1)); [contradiction | reflexivity].
  - apply IH.
Qed.

Lemma find_hook_none (fn : ApexManifest -> string) (apexes : list ApexFile)
    (i hook_idx : Z) :
  existsb (has_hook fn) apexes = false ->
  find_hook fn apexes i hook_idx = HookAt hook_idx.
Proof.
  revert i. induction apexes as [|apex rest IH]; intros i H; [reflexivity|].
  cbn [find_hook existsb] in *. fold (has_hook fn apex).
  apply orb_false_iff in H as [-> H]. now apply IH.
Qed.

Lemma find_hook_first (fn : ApexManifest -> string)
    (before after : list ApexFile) (apex : ApexFile) (i : Z) :
  0 <= i ->
  existsb (has_hook fn) before = false ->
  has_hook fn apex = true ->
  find_hook fn (before ++ apex :: after) i (-1) =
  if existsb (has_hook fn) after then MultipleHooks
  else HookAt (i + Z.of_nat (List.length before)).
Proof.
  revert i. induction before as [|b before IH]; intros i Hi Hb Ha.
  - cbn [app find_hook List.length]. fold (has_hook fn apex). rewrite Ha.
    cbn [Z.eqb negb]. rewrite find_hook_seen by lia.
    now rewrite Z.add_0_r.
  - cbn [existsb] in Hb. apply orb_false_iff in Hb as [Hb0 Hb].
    cbn [app find_hook]. fold (has_hook fn b). rewrite Hb0.
    rewrite IH by (try lia; assumption).
    destruct (existsb (has_hook fn) after); [reflexivity|].
    f_equal. cbn [List.length]. lia.
Qed.

Lemma other_mount_points_after (mount_points : list string)
    (i hook_idx : Z) :
  hook_idx < i -> other_mount_points mount_points i hook_idx = mount_points.
Proof.
  revert i. induction mount_points as [|p rest IH]; intros i H;
    [reflexivity|].
  cbn [other_mount_points].
  destruct (Z.eqb_spec i hook_idx); [lia|]. cbn [negb].
  now rewrite IH by lia.
Qed.

Lemma other_mount_points_skip (mount_points : list string) (i : Z)
    (k : nat) :
  other_mount_points mount_points i (i + Z.of_nat k) =
  firstn k mount_points ++ skipn (S k) mount_points.
Proof.
  revert i k. induction mount_points as [|p rest IH]; intros i k.
  - now destruct k.
  - cbn [other_mount_points]. destruct k as [|k].
    + replace (i + Z.of_nat 0) with i by lia. rewrite Z.eqb_refl.
      cbn [negb firstn skipn app]. apply other_mount_points_after. lia.
    + destruct (Z.eqb_spec i (i + Z.of_nat (S k))); [lia|]. cbn [negb].
      replace (i + Z.of_nat (S k)) with (i + 1 + Z.of_nat k) by lia.
      rewrite IH. reflexivity.
Qed.

(** X20.  StageFnInstall by the number of APEXes with a hook: with none
    its CHECK aborts; with more than one it returns the error on multiple
    hooks and runs nothing; with one, at position h of apexes, it runs
    apexd through ForkAndRun on the stage argument, mount_points[h] and
    then the other mount points in their order, and returns what that
    returns.  mount_points[h] is read without a check: when mount_points
    has no entry at h the behaviour is undefined. *)
Theorem StageFnInstall_by_hooks (apexes : list ApexFile)
    (mount_points : list string) (fn : ApexManifest -> string)
    (arg name : string) :
  (existsb (has_hook fn) apexes = false ->
   StageFnInstall apexes mount_points fn arg name = StageAborted) /\
  (forall before apex after,
     apexes = before ++ apex :: after ->
     existsb (has_hook fn) before = false ->
     has_hook fn apex = true ->
     (existsb (has_hook fn) after = true ->
      StageFnInstall apexes mount_points fn arg name =
      Staged
        (Error ("Missing support for multiple " ++ name ++ " hooks")%string))
     /\
     (existsb (has_hook fn) after = false ->
      (forall hook_mount_point,
         nth_error mount_points (List.length before)
           = Some hook_mount_point ->
         StageFnInstall apexes mount_points fn arg name =
         Staged
           (ForkAndRun
              ("/system/bin/apexd"%string :: arg :: hook_mount_point
               :: firstn (List.length before) mount_points
               ++ skipn (S (List.length before)) mount_points))) /\
      ((List.length mount_points <= List.length before)%nat ->
       StageFnInstall apexes mount_points fn arg name = StageUndefined))).
Proof.
  unfold StageFnInstall. split.
  - intros H. now rewrite find_hook_none.
  - intros before apex after -> Hb Ha.
    rewrite find_hook_first by (try lia; assumption).
    split; [intros ->; reflexivity|].
    intros ->. cbn [Z.add].
    destruct (Z.eqb_spec (Z.of_nat (List.length before)) (-1)); [lia|].
    unfold invocation_args.
    destruct (Z.ltb_spec (Z.of_nat (List.length before)) 0); [lia|].
    rewrite Nat2Z.id. split.
    + intros p Hp. rewrite Hp.
      change (Z.of_nat (List.length before))
        with (0 + Z.of_nat (List.length before)).
      now rewrite other_mount_points_skip.
    + intros Hlen. apply nth_error_None in Hlen. now rewrite Hlen.
Qed.

(** X21.  The command StageFnInstall runs is apexd, the stage argument,
    the mount point of the APEX with the hook, then all other mount points
    in their order: every mount point is passed exactly once, the one with
    the hook first. *)
Theorem invocation_args_shape (mount_points : list string) (arg : string)
    (h : nat) :
  (h < List.length mount_points)%nat ->
  invocation_args mount_points arg (Z.of_nat h) =
    Some ("/system/bin/apexd"%string :: arg :: nth h mount_points ""%string
          :: firstn h mount_points ++ skipn (S h) mount_points) /\
  List.length
    ("/system/bin/apexd"%string :: arg :: nth h mount_points ""%string
     :: firstn h mount_points ++ skipn (S h) mount_points) =
    (2 + List.length mount_points)%nat /\
  firstn h mount_points ++ nth h mount_points ""%string
    :: skipn (S h) mount_points = mount_points.
Proof.
  intros Hh. unfold invocation_args.
  destruct (Z.ltb_spec (Z.of_nat h) 0) as [Hneg | _]; [lia|].
  rewrite Nat2Z.id.
  rewrite (nth_error_nth' mount_points ""%string Hh).
  change (Z.of_nat h) with (0 + Z.of_nat h).
  rewrite other_mount_points_skip. split; [reflexivity|]. split.
  - cbn [app List.length]. rewrite length_app, length_firstn, length_skipn.
    lia.
  - rewrite <- (firstn_skipn h mount_points) at 4.
    f_equal. clear arg.
    revert h Hh. induction mount_points as [|p rest IH]; intros h Hh.
    + cbn [List.length] in Hh. lia.
    + destruct h as [|h]; [reflexivity|].
      cbn [nth skipn]. apply IH. cbn [List.length] in Hh. lia.
Qed.

End StageFacts.

(* ================================================================== *)
(** * apexd: a data APEX and its pre-installed key *)

Section BackedFacts.

Context {sys : System}.

(** X22.  In a repository whose data store is backed, a package with a
    data version has a pre-installed version, and GetPublicKey for it
    returns the very key the data APEX bundles. *)
Theorem data_apex_key_is_pre_installed (package : string)
    (r : ApexFileRepository) :
  data_backed r ->
  HasDataVersion package r = true ->
  exists it,
    GetDataApex package r = Returns it r /\
    GetDataPath package r = Success (GetPath it) /\
    HasPreInstalledVersion package r = true /\
    GetPublicKey package r = Success (GetBundledPublicKey it).
Proof.
  intros Hb H. unfold HasDataVersion in H.
  unfold GetDataApex, GetDataPath, HasPreInstalledVersion, GetPublicKey.
  destruct (find package (data_store_ r)) as [it|] eqn:F; [|discriminate].
  destruct (Hb package it F) as (p & Hp & Hk). rewrite Hp, Hk.
  exists it. repeat split.
Qed.

End BackedFacts.

(* ================================================================== *)
(** * apexd: the theorems at work on the small system *)

Lemma demo_scanned_returns :
  AddPreInstalledApex ["/vendor/apex"%string; "/system/apex"%string]
    demo_empty = Returns (Success tt) demo_scanned.
Proof. vm_compute. reflexivity. Qed.

Lemma demo_updated_returns :
  AddDataApex "/data/apex/active" demo_scanned =
  Returns (Success tt) demo_updated.
Proof. vm_compute. reflexivity. Qed.

Lemma demo_with_block_returns :
  AddBlockApex "/dev/block/by-name/signature" demo_scanned =
  Returns (Success tt) demo_with_block.
Proof. vm_compute. reflexivity. Qed.

Lemma demo_empty_ok : repository_ok demo_empty.
Proof. split; apply store_ok_nil. Qed.

Lemma demo_scanned_ok : repository_ok demo_scanned.
Proof.
  exact (AddPreInstalledApex_ok _ _ _ _ demo_empty_ok demo_scanned_returns).
Qed.

Lemma demo_scanned_backed : data_backed demo_scanned.
Proof. intros package f H. discriminate H. Qed.

Lemma demo_updated_files :
  demo_updated =
  AddDataApex_files
    ["/data/apex/active/com.android.foo@3.apex"%string;
     "/data/apex/active/com.android.foo@2.apex"%string;
     "/data/apex/active/com.android.evil.apex"%string;
     "/data/apex/active/com.android.bar@2.decompressed.apex"%string;
     "/data/apex/active/com.android.new.apex"%string;
     "/data/apex/active/junk.apex"%string] demo_scanned.
Proof. vm_compute. reflexivity. Qed.

Lemma demo_updated_ok : repository_ok demo_updated.
Proof.
  rewrite demo_updated_files. apply AddDataApex_files_ok.
  exact demo_scanned_ok.
Qed.

Lemma demo_updated_backed : data_backed demo_updated.
Proof.
  rewrite demo_updated_files. apply AddDataApex_files_backed.
  exact demo_scanned_backed.
Qed.

Lemma scans_keep_registered_witness :
  data_store_ demo_scanned = [] /\
  find "com.android.foo" (pre_installed_store_ demo_scanned) =
    find "com.android.foo"
      (pre_installed_store_
         (repository_of (ScanBuiltInDir "/system/apex" demo_empty))).
Proof.
  destruct (scans_keep_registered
              (repository_of (ScanBuiltInDir "/system/apex" demo_empty))
              demo_scanned (Success tt))
    as (Hd & _ & Hk).
  - left. exists "/system/apex"%string. vm_compute. reflexivity.
  - split; [reflexivity|]. symmetry. apply Hk. vm_compute. reflexivity.
Defined.

Lemma ScanBuiltInDir_success_witness :
  exists all_apex_files,
    FindFilesBySuffix "/system/apex"
      [kApexPackageSuffix; kCompressedApexPackageSuffix]
      = Success all_apex_files /\
    List.length all_apex_files = 2%nat.
Proof.
  destruct (ScanBuiltInDir_success "/system/apex" demo_empty demo_scanned)
    as (files & Hf & _).
  - vm_compute. discriminate.
  - vm_compute. reflexivity.
  - exists files. split; [exact Hf|].
    vm_compute in Hf. injection Hf as <-. reflexivity.
Defined.

Lemma ScanBuiltInDir_twice_witness :
  ScanBuiltInDir "/system/apex" demo_scanned =
  Returns (Success tt) demo_scanned.
Proof.
  apply (ScanBuiltInDir_twice "/system/apex" demo_empty demo_scanned).
  vm_compute. reflexivity.
Defined.

Lemma ScanBuiltInDir_error_witness :
  exists all_apex_files file e,
    FindFilesBySuffix "/odd/apex"
      [kApexPackageSuffix; kCompressedApexPackageSuffix]
      = Success all_apex_files /\
    In file all_apex_files /\ Open file = Error e.
Proof.
  destruct (ScanBuiltInDir_error "/odd/apex" demo_scanned demo_scanned
              "Failed to open /odd/apex/broken.apex : not an APEX")
    as [[Hf _] | (files & file & e & Hf & Hin & Ho & _)].
  - vm_compute. reflexivity.
  - vm_compute in Hf. discriminate Hf.
  - exists files, file, e. now repeat split.
Defined.

Lemma AddPreInstalledApex_stops_at_failure_witness :
  AddPreInstalledApex
    (["/vendor/apex"%string; "/system/apex"%string]
     ++ "/odd/apex"%string :: ["/never/looked/at"%string]) demo_empty =
  Returns (Error "Failed to open /odd/apex/broken.apex : not an APEX")
    demo_scanned.
Proof.
  apply (AddPreInstalledApex_stops_at_failure _ _ _ _ demo_scanned).
  - vm_compute. reflexivity.
  - vm_compute. reflexivity.
Defined.

Lemma AddPreInstalledApex_settles_witness :
  AddPreInstalledApex ["/vendor/apex"%string; "/system/apex"%string]
    demo_scanned = Returns (Success tt) demo_scanned.
Proof.
  apply (AddPreInstalledApex_settles _ demo_empty demo_scanned).
  vm_compute. reflexivity.
Defined.

Lemma AddDataApex_outcome_witness :
  exists a r',
    AddDataApex "/data/apex/active" demo_scanned = Returns a r' /\
    pre_installed_store_ r' = pre_installed_store_ demo_scanned.
Proof.
  destruct (AddDataApex_outcome "/data/apex/active" demo_scanned)
    as (a & r' & H & Hp & _).
  exists a, r'. now split.
Defined.

Lemma AddDataApex_data_backed_witness :
  exists p,
    find "com.android.foo" (pre_installed_store_ demo_updated) = Some p /\
    GetBundledPublicKey p = "key-foo"%string.
Proof.
  destruct (AddDataApex_data_backed "/data/apex/active" demo_scanned
              demo_updated (Success tt) demo_scanned_backed
              demo_updated_returns "com.android.foo"%string
              (demo_apex "/data/apex/active/com.android.foo@3.apex"
                 "com.android.foo" 3 "key-foo" ""))
    as (p & Hp & Hk).
  - vm_compute. reflexivity.
  - exists p. split; [exact Hp | exact Hk].
Defined.

Lemma AddDataApex_no_decompressed_suffix_witness :
  EndsWith "/data/apex/active/com.android.foo@3.apex"
    kDecompressedApexPackageSuffix = false.
Proof.
  refine (AddDataApex_no_decompressed_suffix "/data/apex/active"
            demo_scanned demo_updated (Success tt) _ demo_updated_returns
            "com.android.foo"%string
            (demo_apex "/data/apex/active/com.android.foo@3.apex"
               "com.android.foo" 3 "key-foo" "") _).
  - intros key f H. discriminate H.
  - vm_compute. reflexivity.
Defined.

Lemma AddDataApex_highest_version_witness :
  exists f',
    find "com.android.foo" (data_store_ demo_updated) = Some f' /\
    2 <= version (GetManifest f').
Proof.
  destruct (AddDataApex_highest_version "/data/apex/active" demo_scanned
              demo_updated
              ["/data/apex/active/com.android.foo@3.apex"%string;
               "/data/apex/active/com.android.foo@2.apex"%string;
               "/data/apex/active/com.android.evil.apex"%string;
               "/data/apex/active/com.android.bar@2.decompressed.apex"%string;
               "/data/apex/active/com.android.new.apex"%string;
               "/data/apex/active/junk.apex"%string])
    as (_ & Hserve & _).
  - vm_compute. discriminate.
  - vm_compute. reflexivity.
  - vm_compute. reflexivity.
  - apply (Hserve "/data/apex/active/com.android.foo@2.apex"%string
             (demo_apex "/data/apex/active/com.android.foo@2.apex"
                "com.android.foo" 2 "key-foo" "")).
    + right. left. reflexivity.
    + split; [vm_compute; reflexivity|]. split; [|vm_compute; reflexivity].
      eexists. split; vm_compute; reflexivity.
Defined.

Lemma AddDataApex_twice_witness :
  AddDataApex "/data/apex/active" demo_updated =
  Returns (Success tt) demo_updated.
Proof.
  apply (AddDataApex_twice "/data/apex/active" demo_scanned).
  vm_compute. reflexivity.
Defined.

Lemma repository_stays_keyed_by_name_witness : repository_ok demo_updated.
Proof.
  apply (proj2 (proj2 (proj2
          (repository_stays_keyed_by_name demo_scanned demo_updated
             (Success tt) demo_scanned_ok))) "/data/apex/active"%string).
  vm_compute. reflexivity.
Defined.

Lemma pre_installed_lookups_agree_witness :
  (HasPreInstalledVersion "com.android.none" demo_scanned = false /\
   GetPreInstalledApex "com.android.none" demo_scanned = Aborted) /\
  (HasPreInstalledVersion "com.android.foo" demo_scanned = true /\
   GetPublicKey "com.android.foo" demo_scanned = Success "key-foo"%string /\
   GetPreinstalledPath "com.android.foo" demo_scanned =
     Success "/system/apex/com.android.foo.apex"%string).
Proof.
  split.
  - destruct (proj1 (pre_installed_lookups_agree "com.android.none"
                       demo_scanned (proj1 demo_scanned_ok)))
      as (H1 & _ & _ & H4 & _).
    + vm_compute. intros [H | [H | []]]; discriminate H.
    + split; [exact H1 | exact H4].
  - destruct (proj2 (pre_installed_lookups_agree "com.android.foo"
                       demo_scanned (proj1 demo_scanned_ok))
                (demo_apex "/system/apex/com.android.foo.apex"
                   "com.android.foo" 1 "key-foo" "bin/preinstall"))
      as (H1 & H2 & H3 & _).
    + vm_compute. left. reflexivity.
    + split; [exact H1 | split; [exact H2 | exact H3]].
Defined.

Lemma GetApexFile_by_path_witness :
  GetApexFile "/data/apex/active/com.android.foo@2.apex" demo_updated = None.
Proof.
  apply (proj2 (GetApexFile_by_path
                  "/data/apex/active/com.android.foo@2.apex" demo_updated)).
  intros apex Hin. vm_compute in Hin.
  destruct Hin as [<- | [<- | [<- | []]]]; vm_compute; discriminate.
Defined.

Lemma AllApexFilesByName_groups_witness :
  option_map (map GetPath)
    (find_group "com.android.foo" (AllApexFilesByName demo_updated)) =
  Some ["/system/apex/com.android.foo.apex"%string;
        "/data/apex/active/com.android.foo@3.apex"%string].
Proof.
  rewrite (proj2 (AllApexFilesByName_groups "com.android.foo" demo_updated)
             demo_updated_ok).
  vm_compute. reflexivity.
Defined.

Lemma AddBlockApex_registers_witness :
  AddBlockApex "/vendor/apex" demo_scanned =
    Returns (Success tt) demo_scanned /\
  data_store_ demo_with_block = data_store_ demo_scanned /\
  List.length (pre_installed_store_ demo_with_block) =
    (List.length (pre_installed_store_ demo_scanned) + 2)%nat /\
  option_map GetPath
    (find "com.android.baz" (pre_installed_store_ demo_with_block)) =
    Some "/dev/block/vdb2"%string /\
  option_map GetPath
    (find "com.android.qux" (pre_installed_store_ demo_with_block)) =
    Some "/dev/block/vdb3"%string.
Proof.
  split.
  - apply (proj1 (proj2 (AddBlockApex_registers "/vendor/apex"
                           demo_scanned))).
    left. reflexivity.
  - destruct (proj2 (proj2 (AddBlockApex_registers
                              "/dev/block/by-name/signature" demo_scanned))
                "/dev/block/vdb1"%string "/dev/block/vdb"%string
                [{| size := 4096; publickey := "" |};
                 {| size := 8192; publickey := "key-qux" |}])
      as (_ & H).
    + vm_compute. discriminate.
    + vm_compute. reflexivity.
    + vm_compute. reflexivity.
    + vm_compute. reflexivity.
    + destruct (H demo_with_block) as (Hd & _ & Hlen & Hall).
      * vm_compute. reflexivity.
      * split; [exact Hd|]. split; [exact Hlen|].
        destruct (Hall 0%nat {| size := 4096; publickey := "" |} eq_refl)
          as (f0 & O0 & _ & F0 & _).
        destruct (Hall 1%nat {| size := 8192; publickey := "key-qux" |}
                    eq_refl) as (f1 & O1 & _ & F1 & _).
        vm_compute in O0. injection O0 as <-.
        vm_compute in O1. injection O1 as <-.
        split.
        -- cbn [name GetManifest demo_apex] in F0.
           exact (f_equal (option_map GetPath) F0).
        -- cbn [name GetManifest demo_apex] in F1.
           exact (f_equal (option_map GetPath) F1).
Defined.

Lemma AddBlockApex_twice_witness :
  AddBlockApex "/dev/block/by-name/signature" demo_with_block =
  Returns (Error "duplicate found in /dev/block/vdb2") demo_with_block.
Proof.
  destruct (AddBlockApex_twice "/dev/block/by-name/signature"
              "/dev/block/vdb1" "/dev/block/vdb"
              {| size := 4096; publickey := "" |}
              [{| size := 8192; publickey := "key-qux" |}]
              demo_scanned demo_with_block)
    as (f & Ho & H).
  - vm_compute. discriminate.
  - vm_compute. reflexivity.
  - vm_compute. reflexivity.
  - vm_compute. reflexivity.
  - vm_compute. reflexivity.
  - vm_compute in Ho. injection Ho as <-. exact H.
Defined.

Lemma StageFnInstall_by_hooks_witness :
  StagePostInstall (GetPreInstalledApexFiles demo_scanned)
    ["/apex/com.android.foo@1"%string; "/apex/com.android.bar@1"%string]
    = StageAborted /\
  StagePreInstall (GetPreInstalledApexFiles demo_scanned)
    ["/apex/com.android.foo@1"%string; "/apex/com.android.bar@1"%string]
    = Staged
        (ForkAndRun
           ["/system/bin/apexd"%string; "--pre-install"%string;
            "/apex/com.android.foo@1"%string;
            "/apex/com.android.bar@1"%string]) /\
  StagePreInstall (GetPreInstalledApexFiles demo_scanned) []
    = StageUndefined.
Proof.
  split; [|split].
  - apply (proj1 (StageFnInstall_by_hooks
                    (GetPreInstalledApexFiles demo_scanned)
                    ["/apex/com.android.foo@1"%string;
                     "/apex/com.android.bar@1"%string]
                    postinstallhook "--post-install" "post-install")).
    vm_compute. reflexivity.
  - refine (proj1 (proj2 (proj2 (StageFnInstall_by_hooks
                      (GetPreInstalledApexFiles demo_scanned)
                      ["/apex/com.android.foo@1"%string;
                       "/apex/com.android.bar@1"%string]
                      preinstallhook "--pre-install" "pre-install")
               []
               (demo_apex "/system/apex/com.android.foo.apex"
                  "com.android.foo" 1 "key-foo" "bin/preinstall")
               [demo_apex "/system/apex/com.android.bar.capex"
                  "com.android.bar" 1 "key-bar" ""] _ _ _) _)
               "/apex/com.android.foo@1"%string _);
      vm_compute; reflexivity.
  - refine (proj2 (proj2 (proj2 (StageFnInstall_by_hooks
                      (GetPreInstalledApexFiles demo_scanned) []
                      preinstallhook "--pre-install" "pre-install")
               []
               (demo_apex "/system/apex/com.android.foo.apex"
                  "com.android.foo" 1 "key-foo" "bin/preinstall")
               [demo_apex "/system/apex/com.android.bar.capex"
                  "com.android.bar" 1 "key-bar" ""] _ _ _) _) _).
    + vm_compute. reflexivity.
    + vm_compute. reflexivity.
    + vm_compute. reflexivity.
    + vm_compute. reflexivity.
    + cbn [List.length]. lia.
Defined.

Lemma invocation_args_shape_witness :
  invocation_args ["/apex/a"%string; "/apex/b"%string; "/apex/c"%string]
    "--pre-install" 1 =
  Some ["/system/bin/apexd"%string; "--pre-install"%string;
        "/apex/b"%string; "/apex/a"%string; "/apex/c"%string].
Proof.
  refine (proj1 (invocation_args_shape
                   ["/apex/a"%string; "/apex/b"%string; "/apex/c"%string]
                   "--pre-install" 1 _)).
  vm_compute. lia.
Defined.

Lemma data_apex_key_is_pre_installed_witness :
  GetPublicKey "com.android.foo" demo_updated = Success "key-foo"%string.
Proof.
  destruct (data_apex_key_is_pre_installed "com.android.foo" demo_updated)
    as (it & Hget & _ & _ & Hkey).
  - exact demo_updated_backed.
  - vm_compute. reflexivity.
  - vm_compute in Hget. injection Hget as <-. exact Hkey.
Defined.

End ApexFacts.
